(** * The action runner of the workbench, and its lifecycle properties

    A shallow embedding of [src/app/lib/runtime/action-runner.ts] (class
    [ActionRunner]) and of the action types of [src/app/types/actions.ts].

    The runner is asynchronous JavaScript.  Its store of action records is a
    finite map; its [#currentExecutionPromise] is a chain of promises, embedded
    as the queue of reactions registered on that chain together with the one
    [#executeAction] call that may be in flight; every [await] of the sandbox is
    a suspension point whose outcome is chosen by the environment. *)

From Stdlib Require Import ZArith Ascii String.
From stdpp Require Import base option list strings gmap.

(** ** Action types ([src/app/types/actions.ts]) *)

Inductive ActionType := file | shell | contract.
Inductive Language := solidity | rust | javascript.
Inductive Target := ethereum | polygon | bsc | solana | near.

(** [BoltAction = FileAction | ShellAction | ContractAction].  An optional
    key of a contract action is absent ([None]) or present; a key that is
    present holds a value or [undefined] ([Some None]). *)
Inductive BoltAction :=
| FileAction (content filePath : string)
| ShellAction (content : string)
| ContractAction (content : string) (language : Language) (filePath : string)
    (target : option (option Target)) (optimize : option (option bool))
    (outputDir : option (option string)).

#[global] Instance ActionType_eq_dec : EqDecision ActionType.
Proof. solve_decision. Defined.
#[global] Instance Language_eq_dec : EqDecision Language.
Proof. solve_decision. Defined.
#[global] Instance Target_eq_dec : EqDecision Target.
Proof. solve_decision. Defined.

(** ** Action records ([ActionState]) *)

Inductive ActionStatus := pending | running | complete | aborted | failed.

#[global] Instance ActionStatus_eq_dec : EqDecision ActionStatus.
Proof. solve_decision. Defined.

(** A record of the store is a JavaScript object built by spreading; a field
    is what reading the key gives, [None] for [undefined] (the key is absent,
    or holds [undefined]).  [type] and [content] are present in every
    [BoltAction]; [error] is the key added by a ['failed'] update.  The
    [abort] closure and the [abortSignal] of a record belong to the
    [AbortController] made for its identifier; they are kept in the runner
    ([signals] below), because the snapshot taken by [#executeAction] and the
    record in the store share them. *)
Record ActionState := mkActionState {
  type : ActionType;
  content : string;
  filePath : option string;
  language : option Language;
  target : option Target;
  optimize : option bool;
  outputDir : option string;
  status : ActionStatus;
  executed : bool;
  error : option string
}.

(** [{ ...data.action, status: 'pending', executed: false, abort, abortSignal }] *)
Definition new_record (a : BoltAction) : ActionState :=
  match a with
  | FileAction c fp =>
      mkActionState file c (Some fp) None None None None pending false None
  | ShellAction c =>
      mkActionState shell c None None None None None pending false None
  | ContractAction c l fp t o d =>
      mkActionState contract c (Some fp) (Some l) (default None t) (default None o)
        (default None d) pending false None
  end.

(** [{ ...r, ...a }]: the keys of [a] override those of [r], also with
    [undefined]; a key absent from [a] keeps the value it has in [r]. *)
Definition spread (r : ActionState) (a : BoltAction) : ActionState :=
  match a with
  | FileAction c fp =>
      mkActionState file c (Some fp) (language r) (target r) (optimize r)
        (outputDir r) (status r) (executed r) (error r)
  | ShellAction c =>
      mkActionState shell c (filePath r) (language r) (target r) (optimize r)
        (outputDir r) (status r) (executed r) (error r)
  | ContractAction c l fp t o d =>
      mkActionState contract c (Some fp) (Some l)
        (from_option id (target r) t) (from_option id (optimize r) o)
        (from_option id (outputDir r) d) (status r) (executed r) (error r)
  end.

(** The three shapes of [ActionStateUpdate] that the runner merges into a
    record. *)
Definition set_status (st : ActionStatus) (r : ActionState) : ActionState :=
  mkActionState (type r) (content r) (filePath r) (language r) (target r)
    (optimize r) (outputDir r) st (executed r) (error r).

Definition set_failed (e : string) (r : ActionState) : ActionState :=
  mkActionState (type r) (content r) (filePath r) (language r) (target r)
    (optimize r) (outputDir r) failed (executed r) (Some e).

Definition set_executed (r : ActionState) : ActionState :=
  mkActionState (type r) (content r) (filePath r) (language r) (target r)
    (optimize r) (outputDir r) (status r) true (error r).

(** ** The sandbox, the compiler and the clock: what a handler awaits *)

(** [CompilationResult] of [src/app/lib/smartcontracts/compiler.ts]; the
    entries of [abi] and the value of [gasEstimates] are opaque JSON. *)
Record CompilationResult := mkCompilationResult {
  success : bool;
  bytecode : option string;
  abi : option (list string);
  errors : option (list string);
  warnings : option (list string);
  gasEstimates : option string;
  metadata : option string
}.

(** The objects that [#runContractAction] serialises with [JSON.stringify]. *)
Record Report := mkReport {
  rp_success : bool;
  rp_fileName : string;
  rp_language : option Language;
  rp_target : option Target;
  rp_warnings : list string;
  rp_gasEstimates : option string;
  rp_compiledAt : string
}.

Record ErrorReport := mkErrorReport {
  er_success : bool;
  er_fileName : string;
  er_language : option Language;
  er_errors : list string;
  er_warnings : list string;
  er_compiledAt : string
}.

(** What is handed to [webcontainer.fs.writeFile]: a string as it is, or the
    [JSON.stringify(_, null, 2)] text of an object. *)
Inductive FileData :=
| Text (s : string)
| JsonAbi (entries : list string)
| JsonReport (r : Report)
| JsonErrorReport (r : ErrorReport).

(** The promises a handler awaits. *)
Inductive Call :=
| CWebcontainer                                  (* await this.#webcontainer *)
| CImportCompiler                                (* await import('~/lib/smartcontracts/compiler') *)
| CSpawn (cmd : string) (args : list string)     (* webcontainer.spawn(cmd, args, {env}) *)
| CExit                                          (* process.exit *)
| CMkdir (folder : string)                       (* webcontainer.fs.mkdir(folder, {recursive: true}) *)
| CWriteFile (path : string) (data : FileData)   (* webcontainer.fs.writeFile(path, data) *)
| CReadFile (path : string)                      (* webcontainer.fs.readFile(path, 'utf8') *)
| CCompile (source : string) (lang : option Language) (path : string)
    (opt : option bool).                         (* smartContractCompiler.compile(...) *)

(** The type of the value an awaited promise is fulfilled with. *)
Definition answer (c : Call) : Type :=
  match c with
  | CExit => Z
  | CReadFile _ => string
  | CCompile _ _ _ _ => CompilationResult
  | _ => unit
  end.

(** A settled promise: fulfilled with a value, or rejected with an error
    (errors are identified by their message). *)
Inductive Outcome (A : Type) :=
| Fulfilled (v : A)
| Rejected (e : string).
Arguments Fulfilled {A} v.
Arguments Rejected {A} e.

(** The environment: how it settles each promise a handler may await. *)
Definition World := forall c : Call, Outcome (answer c).

(** Synchronous, observable effects of a handler. *)
Inductive Effect :=
| LoggerDebug (msg : string)
| LoggerInfo (msg : string)
| LoggerError (msg : string)
| ConsoleLog (msg : string)
| ConsoleError (msg : string)
| AddAbortListener      (* action.abortSignal.addEventListener('abort', () => process.kill()) *)
| PipeOutput.           (* process.output.pipeTo(new WritableStream(...)) *)

(** ** Asynchronous functions

    The body of an [async] function: it returns, throws, performs a
    synchronous effect, reads the clock ([new Date()]), or suspends on a
    promise and resumes with its outcome. *)
Inductive Prog (A : Type) :=
| Return (a : A)
| Throw (e : string)
| Do (o : Effect) (k : Prog A)
| Now (k : string -> Prog A)
| Await (c : Call) (k : Outcome (answer c) -> Prog A).
Arguments Return {A} a.
Arguments Throw {A} e.
Arguments Do {A} o k.
Arguments Now {A} k.
Arguments Await {A} c k.

Fixpoint bind {A B} (p : Prog A) (f : A -> Prog B) : Prog B :=
  match p with
  | Return a => f a
  | Throw e => Throw e
  | Do o k => Do o (bind k f)
  | Now k => Now (fun t => bind (k t) f)
  | Await c k => Await c (fun r => bind (k r) f)
  end.

#[global] Instance Prog_ret : MRet Prog := @Return.
#[global] Instance Prog_bind : MBind Prog := fun A B f p => bind p f.

(** [try { p } catch (error) { h error }] *)
Fixpoint try_catch {A} (p : Prog A) (h : string -> Prog A) : Prog A :=
  match p with
  | Return a => Return a
  | Throw e => h e
  | Do o k => Do o (try_catch k h)
  | Now k => Now (fun t => try_catch (k t) h)
  | Await c k => Await c (fun r => try_catch (k r) h)
  end.

(** [await c]: the value of a fulfilled promise; a rejection is thrown. *)
Definition await (c : Call) : Prog (answer c) :=
  Await c (fun r => match r with Fulfilled v => Return v | Rejected e => Throw e end).

Definition effect (o : Effect) : Prog unit := Do o (Return tt).
Definition clock : Prog string := Now Return.
Definition when (b : bool) (p : Prog unit) : Prog unit := if b then p else Return tt.

(** ** JavaScript values in conditions *)

(** [s || d] on an optional string: [undefined] and [''] are falsy. *)
Definition or_default (s : option string) (d : string) : string :=
  match s with
  | Some v => if decide (v = "") then d else v
  | None => d
  end.

(** Truthiness of an optional string. *)
Definition truthy (s : option string) : bool :=
  match s with
  | Some v => if decide (v = "") then false else true
  | None => false
  end.

(** [ws && ws.length > 0] *)
Definition non_empty (ws : option (list string)) : bool :=
  match ws with
  | Some (_ :: _) => true
  | _ => false
  end.

(** The line feed of [join('\n')]. *)
Definition newline : string := String (ascii_of_nat 10) EmptyString.

(** [xs.join(sep)] *)
Fixpoint join_with (sep : string) (xs : list string) : string :=
  match xs with
  | [] => ""
  | [x] => x
  | x :: rest => x +:+ sep +:+ join_with sep rest
  end.

(** [folder.replace(/\/+$/g, '')]: the trailing slashes are removed. *)
Fixpoint strip_trailing_slashes (s : string) : string :=
  match s with
  | EmptyString => EmptyString
  | String c rest =>
      match strip_trailing_slashes rest with
      | EmptyString => if Ascii.eqb c "/"%char then EmptyString else String c EmptyString
      | rest' => String c rest'
      end
  end.

(** ** [node:path]

    The functions of Node's [path] module that the handlers call.  They are
    not code of this repository: the runner is verified for every
    implementation of them. *)
Class NodePath := {
  dirname : string -> string;
  basename : string -> string -> string;
  extname : string -> string;
  join : string -> string -> string
}.

(** The POSIX implementation of these four functions ([path.posix] of
    Node), to run the runner on concrete paths. *)
Module Posix.

Definition is_slash (c : ascii) : bool := Ascii.eqb c "/"%char.

(** The segments between the separators. *)
Fixpoint split_slash (s : string) : list string :=
  match s with
  | EmptyString => [EmptyString]
  | String c rest =>
      match split_slash rest with
      | seg :: segs =>
          if is_slash c then EmptyString :: seg :: segs
          else String c seg :: segs
      | [] => [String c EmptyString]
      end
  end.

Definition is_absolute (s : string) : bool :=
  match s with
  | String c _ => is_slash c
  | EmptyString => false
  end.

Definition ends_with_slash (s : string) : bool :=
  match last (list_ascii_of_string s) with
  | Some c => is_slash c
  | None => false
  end.

(** [normalizeString], segment by segment: empty segments and [.] are
    dropped, [..] removes the segment before it, and is kept where there is
    none to remove in a relative path. *)
Definition push_segment (stack : list string) (seg : string) (abs : bool)
  : list string :=
  if decide (seg = "") then stack
  else if decide (seg = ".") then stack
  else if decide (seg = "..") then
    match stack with
    | top :: below => if decide (top = "..") then seg :: stack else below
    | [] => if abs then [] else [seg]
    end
  else seg :: stack.

Definition normalize (s : string) : string :=
  let abs := is_absolute s in
  let stack := foldl (fun st seg => push_segment st seg abs) [] (split_slash s) in
  let body := join_with "/" (reverse stack) in
  if decide (body = "")
  then if abs then "/" else if ends_with_slash s then "./" else "."
  else (if abs then "/" else "") +:+ body +:+ (if ends_with_slash s then "/" else "").

(** The characters of [s] from its end, without the trailing separators;
    and those of its last segment. *)
Fixpoint skip_slashes (cs : list ascii) : list ascii :=
  match cs with
  | c :: rest => if is_slash c then skip_slashes rest else cs
  | [] => []
  end.

Fixpoint skip_segment (cs : list ascii) : list ascii :=
  match cs with
  | c :: rest => if is_slash c then cs else skip_segment rest
  | [] => []
  end.

Fixpoint take_segment (cs : list ascii) : list ascii :=
  match cs with
  | c :: rest => if is_slash c then [] else c :: take_segment rest
  | [] => []
  end.

Definition last_segment (s : string) : string :=
  string_of_list_ascii
    (reverse (take_segment (skip_slashes (reverse (list_ascii_of_string s))))).

(** [dirname]: the path up to the separator before its last segment; the
    first character of the path is never taken for that separator. *)
Definition dirname (s : string) : string :=
  match s with
  | EmptyString => "."
  | String c rest =>
      match skip_segment (skip_slashes (reverse (list_ascii_of_string rest))) with
      | [] => if is_slash c then "/" else "."
      | _ :: before =>
          if is_slash c && bool_decide (before = []) then "//"
          else String c (string_of_list_ascii (reverse before))
      end
  end.

(** The part of [s] from its last dot on, if it has a dot. *)
Fixpoint ext_from (s : string) : option string :=
  match s with
  | EmptyString => None
  | String c rest =>
      match ext_from rest with
      | Some e => Some e
      | None => if Ascii.eqb c "."%char then Some s else None
      end
  end.

(** [extname]: the last segment from its last dot on; nothing when that dot
    is the first character of the segment, or the segment is [..]. *)
Definition extname (s : string) : string :=
  match last_segment s with
  | String c rest =>
      if decide (String c rest = "..") then "" else default "" (ext_from rest)
  | EmptyString => ""
  end.

(** The characters of the suffix [ext], from its end, are compared with
    those of the last segment [seg], from its end: the segment without the
    suffix when all of them are found, [None] when one differs, and the
    suffix that is left when the segment is used up before. *)
Fixpoint strip_suffix (seg ext : list ascii) : option (list ascii) + list ascii :=
  match ext, seg with
  | [], _ => inl (Some seg)
  | e :: ext', c :: seg' =>
      if Ascii.eqb c e then strip_suffix seg' ext' else inl None
  | _ :: _, [] => inr ext
  end.

Definition basename (s ext : string) : string :=
  let from_end := skip_slashes (reverse (list_ascii_of_string s)) in
  let seg := take_segment from_end in
  if decide (ext = "") then string_of_list_ascii (reverse seg)
  else if decide (String.length s < String.length ext) then string_of_list_ascii (reverse seg)
  else if decide (ext = s) then ""
  else
    match strip_suffix seg (reverse (list_ascii_of_string ext)) with
    | inl (Some []) | inl None => string_of_list_ascii (reverse seg)
    | inl (Some stem) => string_of_list_ascii (reverse stem)
    | inr _ =>
        (* the segment ended inside the suffix: the path from the segment on *)
        string_of_list_ascii
          (reverse (take (length (list_ascii_of_string s) - length from_end + length seg)
                      (reverse (list_ascii_of_string s))))
    end.

(** [join]: the non-empty arguments, joined by a separator and
    normalized. *)
Definition join (a b : string) : string :=
  if decide (a = "") then normalize b
  else if decide (b = "") then normalize a
  else normalize (a +:+ "/" +:+ b).

End Posix.

#[global] Instance posix : NodePath :=
  {| dirname := Posix.dirname; basename := Posix.basename;
     extname := Posix.extname; join := Posix.join |}.

(** ** The handlers *)

Section Handlers.
Context {node_path : NodePath}.

(** [#runShellAction] *)
Definition runShellAction (action : ActionState) : Prog unit :=
  match type action with
  | shell =>
      _ ← await CWebcontainer;
      _ ← await (CSpawn "jsh" ["-c"; content action]);
      effect AddAbortListener;;
      effect PipeOutput;;
      exitCode ← await CExit;
      effect (LoggerDebug "Process terminated with code")
  | _ => Throw "Expected shell action"
  end.

(** [#runFileAction].  A record of type ['file'] has a [filePath] (lemma
    [store_well_typed]); [nodePath.dirname(undefined)] throws a
    [TypeError]. *)
Definition runFileAction (action : ActionState) : Prog unit :=
  match type action with
  | file =>
      _ ← await CWebcontainer;
      match filePath action with
      | None => Throw "TypeError"
      | Some path =>
          let folder := strip_trailing_slashes (dirname path) in
          when (bool_decide (folder ≠ "."))
            (try_catch
               (_ ← await (CMkdir folder);
                effect (LoggerDebug ("Created folder " +:+ folder)))
               (fun _ => effect (LoggerError "Failed to create folder")));;
          try_catch
            (_ ← await (CWriteFile path (Text (content action)));
             effect (LoggerDebug ("File written " +:+ path)))
            (fun _ => effect (LoggerError "Failed to write file"))
      end
  | _ => Throw "Expected file action"
  end.

(** The two branches of [#runContractAction] after the compiler has
    answered. *)
Definition write_artifacts (action : ActionState) (path outputDir outputPath : string)
    (result : CompilationResult) : Prog unit :=
  when (truthy (bytecode result))
    (await (CWriteFile (outputPath +:+ ".bin") (Text (default "" (bytecode result)))));;
  match abi result with
  | Some entries => await (CWriteFile (outputPath +:+ ".abi.json") (JsonAbi entries))
  | None => Return tt
  end;;
  when (truthy (metadata result))
    (await (CWriteFile (outputPath +:+ ".metadata.json")
              (Text (default "" (metadata result)))));;
  compiledAt ← clock;
  let report :=
    {| rp_success := true; rp_fileName := path; rp_language := language action;
       rp_target := target action; rp_warnings := default [] (warnings result);
       rp_gasEstimates := gasEstimates result; rp_compiledAt := compiledAt |} in
  await (CWriteFile (outputPath +:+ ".report.json") (JsonReport report));;
  effect (LoggerInfo ("Contract compiled successfully: " +:+ path));;
  effect (ConsoleLog ("Contract compilation successful! Artifacts saved to: " +:+ outputDir));;
  when (non_empty (warnings result))
    (effect (ConsoleLog ("Warnings: " +:+ join_with newline (default [] (warnings result))))).

Definition write_error_report (action : ActionState) (path outputPath : string)
    (result : CompilationResult) : Prog unit :=
  compiledAt ← clock;
  let errorReport :=
    {| er_success := false; er_fileName := path; er_language := language action;
       er_errors := default [] (errors result);
       er_warnings := default [] (warnings result); er_compiledAt := compiledAt |} in
  await (CWriteFile (outputPath +:+ ".error.json") (JsonErrorReport errorReport));;
  effect (LoggerError ("Contract compilation failed: " +:+ path));;
  effect (ConsoleError ("Contract compilation failed! " +:+
            or_default (join_with newline <$> errors result) "Unknown error"));;
  when (non_empty (warnings result))
    (effect (ConsoleLog ("Warnings: " +:+ join_with newline (default [] (warnings result)))));;
  Throw "Compilation failed".

(** [#runContractAction].  A record of type ['contract'] has a [filePath]
    (lemma [store_well_typed]); without one the handler is taken to throw
    at the first use of the path. *)
Definition runContractAction (action : ActionState) : Prog unit :=
  match type action with
  | contract =>
      try_catch
        (_ ← await CImportCompiler;
         _ ← await CWebcontainer;
         match filePath action with
         | None => Throw "TypeError"
         | Some path =>
             sourceCode ← await (CReadFile path);
             result ← await (CCompile sourceCode (language action) path (optimize action));
             let outputDir := or_default (outputDir action) "contracts/artifacts" in
             let outputPath := join outputDir (basename path (extname path)) in
             try_catch (await (CMkdir outputDir))
               (fun _ => effect (LoggerDebug "Output directory already exists or failed to create"));;
             if success result
             then write_artifacts action path outputDir outputPath result
             else write_error_report action path outputPath result
         end)
        (fun e => effect (LoggerError "Contract action failed:");; Throw e)
  | _ => Throw "Expected contract action"
  end.

(** The [switch (action.type)] of [#executeAction]. *)
Definition handler (action : ActionState) : Prog unit :=
  match type action with
  | shell => runShellAction action
  | file => runFileAction action
  | contract => runContractAction action
  end.

End Handlers.

(** ** The runner *)

(** A reaction registered with [.then] on the chain of
    [#currentExecutionPromise]: the callback of [addAction], or the
    [#executeAction] call of [runAction] (with its [.catch]). *)
Inductive Reaction :=
| MarkRunning (id : string)
| Execute (id : string).

(** The [#executeAction] call in flight: the promise it is suspended on, what
    it does with the outcome, and whether the shell handler has attached its
    ['abort'] listener to the signal so far. *)
Record Suspended := mkSuspended {
  run_id : string;
  awaiting : Call;
  resume : Outcome (answer awaiting) -> Prog unit;
  listening : bool
}.

(** What an observer of the runner and of the sandbox sees, in order. *)
Inductive Obs :=
| Began (id : string)       (* #executeAction enters its try block *)
| Ended (id : string)       (* the promise of #executeAction has settled *)
| Called (c : Call)         (* a handler starts a sandbox or compiler call *)
| Did (o : Effect)          (* a synchronous effect of a handler *)
| Killed (id : string)      (* process.kill() of the shell action's process *)
| Caught (e : string).      (* console.error('Action failed:', error) *)

Record Runner := mkRunner {
  actions : gmap string ActionState;   (* this.actions *)
  signals : gmap string bool;          (* abortSignal.aborted, per identifier *)
  chain : list Reaction;               (* reactions waiting on the promise chain *)
  current : option Suspended;          (* pending #executeAction, if any *)
  time : string;                       (* what new Date().toISOString() returns *)
  trace : list Obs
}.

Definition with_actions (f : gmap string ActionState -> gmap string ActionState)
    (s : Runner) : Runner :=
  mkRunner (f (actions s)) (signals s) (chain s) (current s) (time s) (trace s).
Definition with_signals (f : gmap string bool -> gmap string bool) (s : Runner) : Runner :=
  mkRunner (actions s) (f (signals s)) (chain s) (current s) (time s) (trace s).
Definition with_chain (q : list Reaction) (s : Runner) : Runner :=
  mkRunner (actions s) (signals s) q (current s) (time s) (trace s).
Definition with_current (c : option Suspended) (s : Runner) : Runner :=
  mkRunner (actions s) (signals s) (chain s) c (time s) (trace s).
Definition with_time (t : string) (s : Runner) : Runner :=
  mkRunner (actions s) (signals s) (chain s) (current s) t (trace s).
Definition observe (o : Obs) (s : Runner) : Runner :=
  mkRunner (actions s) (signals s) (chain s) (current s) (time s) (trace s ++ [o]).

(** [new ActionRunner(...)]: an empty store, [Promise.resolve()] as the
    current execution promise. *)
Definition new_runner : Runner := mkRunner ∅ ∅ [] None "" [].

(** [abortSignal.aborted] of the controller of [id]. *)
Definition is_aborted (id : string) (s : Runner) : bool :=
  default false (signals s !! id).

(** [#updateAction(id, newState)], for a registered [id]: the update is
    merged into the record.  Every caller passes a registered identifier
    (lemma [lane_registered]). *)
Definition updateAction (id : string) (update : ActionState -> ActionState)
    (s : Runner) : Runner :=
  match actions s !! id with
  | Some r => with_actions <[id := update r]> s
  | None => s
  end.

(** [addAction(data)] *)
Definition addAction (id : string) (a : BoltAction) (s : Runner) : Runner :=
  match actions s !! id with
  | Some _ => s
  | None =>
      with_chain (chain s ++ [MarkRunning id])
        (with_signals <[id := false]>
           (with_actions <[id := new_record a]> s))
  end.

(** The signals that have the ['abort'] listener of [#runShellAction]:
    the identifiers in whose execution [addEventListener] was called, as
    the trace shows them ([cur] is the execution under way).  The listener
    is never removed: a signal keeps it when its handler has ended. *)
Fixpoint listeners (cur : option string) (t : list Obs) : list string :=
  match t with
  | [] => []
  | Began id :: rest => listeners (Some id) rest
  | Ended _ :: rest => listeners None rest
  | Did AddAbortListener :: rest =>
      match cur with
      | Some id => id :: listeners cur rest
      | None => listeners cur rest
      end
  | _ :: rest => listeners cur rest
  end.

Definition listens (id : string) (s : Runner) : bool :=
  bool_decide (id ∈ listeners None (trace s)).

(** The [abort] closure of the record of [id]: [abortController.abort()],
    which runs the listener of a signal not yet aborted, then the update. *)
Definition abort (id : string) (s : Runner) : Runner :=
  match actions s !! id with
  | None => s
  | Some _ =>
      let heard := listens id s && negb (is_aborted id s) in
      updateAction id (set_status aborted)
        (with_signals <[id := true]> (if heard then observe (Killed id) s else s))
  end.

(** [runAction(data)]: [None] is the error thrown by [unreachable]. *)
Definition runAction (id : string) (a : BoltAction) (s : Runner) : option Runner :=
  match actions s !! id with
  | None => None
  | Some action =>
      if executed action then Some s
      else
        Some (with_chain (chain s ++ [Execute id])
                (updateAction id (fun _ => set_executed (spread action a)) s))
  end.

(** The end of [#executeAction] and of its link of the chain: the update of
    line 122 after a normal return of the handler; the [catch] block, the
    re-thrown error and the [.catch] of [runAction] after a throw. *)
Definition settle (id : string) (result : option string) (s : Runner) : Runner :=
  match result with
  | None =>
      observe (Ended id)
        (updateAction id (set_status (if is_aborted id s then aborted else complete)) s)
  | Some e =>
      observe (Ended id)
        (observe (Caught e) (updateAction id (set_failed "Action failed") s))
  end.

(** The update merged into the record when [#executeAction] ends. *)
Definition last_update (was_aborted : bool) (result : option string)
    : ActionState -> ActionState :=
  match result with
  | None => set_status (if was_aborted then aborted else complete)
  | Some _ => set_failed "Action failed"
  end.

(** Whether an effect attaches the ['abort'] listener. *)
Definition attaches_listener (o : Effect) : bool :=
  match o with
  | AddAbortListener => true
  | _ => false
  end.

(** An [#executeAction] call runs until it suspends or ends. *)
Fixpoint proceed (id : string) (heard : bool) (p : Prog unit) (s : Runner) : Runner :=
  match p with
  | Return _ => settle id None (with_current None s)
  | Throw e => settle id (Some e) (with_current None s)
  | Do o k =>
      proceed id (heard || attaches_listener o) k (observe (Did o) s)
  | Now k => proceed id heard (k (time s)) s
  | Await c k => with_current (Some (mkSuspended id c k heard)) (observe (Called c) s)
  end.

Section Runner.
Context {node_path : NodePath}.

(** [#executeAction(actionId)], up to its first suspension. *)
Definition executeAction (id : string) (s : Runner) : Runner :=
  match actions s !! id with
  | None => s
  | Some action =>
      proceed id false (handler action)
        (observe (Began id) (updateAction id (set_status running) s))
  end.

(** The next reaction of the chain runs, once the promise it was
    registered on has settled: nothing runs while an [#executeAction] is
    pending. *)
Definition tick (s : Runner) : Runner :=
  match current s with
  | Some _ => s
  | None =>
      match chain s with
      | [] => s
      | MarkRunning id :: rest => updateAction id (set_status running) (with_chain rest s)
      | Execute id :: rest => executeAction id (with_chain rest s)
      end
  end.

(** The promise that the pending [#executeAction] awaits settles. *)
Definition resolve (w : World) (s : Runner) : Runner :=
  match current s with
  | None => s
  | Some c => proceed (run_id c) (listening c) (resume c (w (awaiting c))) s
  end.

(** What happens to a runner: the calls of its public interface, made by
    the message parser and the workbench, and the turns of the event
    loop. *)
Inductive Event :=
| AddAction (id : string) (a : BoltAction)
| RunAction (id : string) (a : BoltAction)
| Abort (id : string)
| Tick
| Resolve (w : World)
| Clock (t : string).

Definition step (s : Runner) (e : Event) : Runner :=
  match e with
  | AddAction id a => addAction id a s
  | RunAction id a => default s (runAction id a s)
  | Abort id => abort id s
  | Tick => tick s
  | Resolve w => resolve w s
  | Clock t => with_time t s
  end.

Definition run (es : list Event) (s : Runner) : Runner := foldl step s es.

(** The runner after the events [es], from its construction. *)
Definition after (es : list Event) : Runner := run es new_runner.

End Runner.

(** ** Reading a runner *)

Definition status_of (id : string) (s : Runner) : option ActionStatus :=
  status <$> actions s !! id.

Definition executed_of (id : string) (s : Runner) : option bool :=
  executed <$> actions s !! id.

Definition error_of (id : string) (s : Runner) : option string :=
  actions s !! id ≫= error.

(** The identifiers whose handler was started, oldest first. *)
Fixpoint started (t : list Obs) : list string :=
  match t with
  | [] => []
  | Began id :: rest => id :: started rest
  | _ :: rest => started rest
  end.

(** The identifiers of the [#executeAction] calls, and of the [addAction]
    callbacks, that wait on the chain, in order. *)
Fixpoint execs (q : list Reaction) : list string :=
  match q with
  | [] => []
  | Execute id :: rest => id :: execs rest
  | MarkRunning _ :: rest => execs rest
  end.

Fixpoint marks (q : list Reaction) : list string :=
  match q with
  | [] => []
  | MarkRunning id :: rest => id :: marks rest
  | Execute _ :: rest => marks rest
  end.

(** The identifier whose [#executeAction] is pending. *)
Definition busy (s : Runner) : option string := run_id <$> current s.

(** The handler intervals of a trace: from an idle or busy lane [cur], a
    handler begins only when the lane is idle and the handler that ends is the
    one that runs.  [None] when the trace has overlapping intervals. *)
Fixpoint lane_after (cur : option string) (t : list Obs) : option (option string) :=
  match t with
  | [] => Some cur
  | Began id :: rest =>
      match cur with
      | None => lane_after (Some id) rest
      | Some _ => None
      end
  | Ended id :: rest =>
      match cur with
      | Some id' => if decide (id = id') then lane_after None rest else None
      | None => None
      end
  | _ :: rest => lane_after cur rest
  end.

(** The begin and end marks of a trace. *)
Fixpoint intervals (t : list Obs) : list Obs :=
  match t with
  | [] => []
  | Began id :: rest => Began id :: intervals rest
  | Ended id :: rest => Ended id :: intervals rest
  | _ :: rest => intervals rest
  end.

(** [Began a1; Ended a1; ...; Began aN; Ended aN] *)
Definition one_by_one (ids : list string) : list Obs :=
  ids ≫= (fun id => [Began id; Ended id]).

(** [bounded n p]: the asynchronous function [p] awaits at most [n]
    promises before it ends. *)
Fixpoint bounded (n : nat) (p : Prog unit) : Prop :=
  match p with
  | Return _ | Throw _ => True
  | Do _ k => bounded n k
  | Now k => forall t, bounded n (k t)
  | Await _ k =>
      match n with
      | O => False
      | S m => forall r, bounded m (k r)
      end
  end.

(** How the synchronous part of an asynchronous function ends at time [t]:
    by returning ([Some None]), by throwing ([Some (Some e)]), or suspended
    on a promise ([None]). *)
Fixpoint ends_now (t : string) (p : Prog unit) : option (option string) :=
  match p with
  | Return _ => Some None
  | Throw e => Some (Some e)
  | Do _ k => ends_now t k
  | Now k => ends_now t (k t)
  | Await _ _ => None
  end.

Section Schedules.
Context {node_path : NodePath}.

(** The event loop runs the runner with the environment [w] until nothing
    is left to do, for at most [fuel] turns. *)
Fixpoint drain (w : World) (fuel : nat) (s : Runner) : Runner :=
  match fuel with
  | O => s
  | S fuel' =>
      match current s, chain s with
      | Some _, _ => drain w fuel' (resolve w s)
      | None, _ :: _ => drain w fuel' (tick s)
      | None, [] => s
      end
  end.

(** The finalize order of a sequence of events: the identifiers of the
    [runAction] calls that find a registered record not yet executed. *)
Fixpoint finalized (es : list Event) (s : Runner) : list string :=
  match es with
  | [] => []
  | e :: rest =>
      match e with
      | RunAction id _ =>
          match executed_of id s with
          | Some false => [id]
          | _ => []
          end
      | _ => []
      end ++ finalized rest (step s e)
  end.

(** The number of events of [es] at which the status of [id] becomes
    ['running'], coming from another status. *)
Fixpoint entries (id : string) (es : list Event) (s : Runner) : nat :=
  match es with
  | [] => 0
  | e :: rest =>
      (if bool_decide (status_of id s ≠ Some running
                       ∧ status_of id (step s e) = Some running)
       then 1 else 0)%nat + entries id rest (step s e)
  end.

(** What the pending [#executeAction] does when the promise it awaits
    settles as [w] says: whose execution it is, and how it ends, if it ends
    before it awaits another promise. *)
Definition next_end (w : World) (s : Runner) : option (string * option string) :=
  match current s with
  | Some c => (fun result => (run_id c, result)) <$> ends_now (time s) (resume c (w (awaiting c)))
  | None => None
  end.

(** The events [es] are turns of the event loop in the environment [w]. *)
Definition turns (w : World) (es : list Event) : Prop :=
  Forall (fun e => e = Tick ∨ e = Resolve w) es.

(** No promise settles during the events [es]. *)
Definition unsettled (es : list Event) : bool :=
  forallb (fun e => match e with Resolve _ => false | _ => true end) es.

(** The identifiers of the [runAction] calls of [es], in order. *)
Fixpoint finalize_calls (es : list Event) : list string :=
  match es with
  | [] => []
  | RunAction id _ :: rest => id :: finalize_calls rest
  | _ :: rest => finalize_calls rest
  end.

(** In [es], an action is registered before it is finalized ([seen]: the
    identifiers registered before [es]). *)
Fixpoint registered_first (seen : list string) (es : list Event) : bool :=
  match es with
  | [] => true
  | AddAction id _ :: rest => registered_first (id :: seen) rest
  | RunAction id _ :: rest => bool_decide (id ∈ seen) && registered_first seen rest
  | _ :: rest => registered_first seen rest
  end.

(** The events [es] neither finalize [id] nor invoke its [abort]. *)
Definition leaves (id : string) (es : list Event) : bool :=
  forallb (fun e => match e with
                    | RunAction id' _ | Abort id' => bool_decide (id' ≠ id)
                    | _ => true
                    end) es.

(** Each of the promises awaited by the pending handler is settled by [w],
    after the events [x] of [xs] that come before. *)
Definition settling (w : World) (xs : list (list Event)) : list Event :=
  xs ≫= (fun x => x ++ [Resolve w]).

End Schedules.

(** The rules whereby a status may change, when [abort] is not invoked:
    a record is created ['pending'], and moves forward along
    pending -> running -> {complete, failed}. *)
Inductive forward : option ActionStatus -> option ActionStatus -> Prop :=
| forward_same st : forward st st
| forward_register : forward None (Some pending)
| forward_dispatch : forward (Some pending) (Some running)
| forward_complete : forward (Some running) (Some complete)
| forward_fail : forward (Some running) (Some failed).

Definition terminal (st : ActionStatus) : Prop :=
  st = complete ∨ st = aborted ∨ st = failed.

(** ** Invariants of the runner *)

(** An [#executeAction] call is never registered before the callback of
    [addAction] for the same identifier has run. *)
Fixpoint ordered (q : list Reaction) : Prop :=
  match q with
  | [] => True
  | MarkRunning _ :: rest => ordered rest
  | Execute id :: rest => (id ∉ marks rest) ∧ ordered rest
  end.

Record invariant (s : Runner) : Prop := {
  (* every identifier known to the lane has a record *)
  inv_marks_registered : forall id, id ∈ marks (chain s) -> is_Some (actions s !! id);
  inv_busy_registered : forall id, busy s = Some id -> is_Some (actions s !! id);
  inv_unregistered_signal : forall id, actions s !! id = None -> signals s !! id = None;
  (* one execution per finalized record *)
  inv_once : NoDup (started (trace s) ++ execs (chain s));
  inv_executed : forall id,
    id ∈ started (trace s) ++ execs (chain s) <-> executed_of id s = Some true;
  (* the callback of addAction comes first *)
  inv_marks_once : NoDup (marks (chain s));
  inv_ordered : ordered (chain s);
  inv_marks_fresh : forall id, id ∈ marks (chain s) -> id ∉ started (trace s);
  (* one handler at a time *)
  inv_lane : lane_after None (trace s) = Some (busy s);
  inv_busy_started : forall id, busy s = Some id -> id ∈ started (trace s);
  (* the pending handler awaits finitely many promises *)
  inv_bounded : forall c, current s = Some c -> exists n, forall r, bounded n (resume c r);
  (* the status of a record whose abort was not invoked *)
  inv_pending : forall id r, actions s !! id = Some r -> is_aborted id s = false ->
    (status r = pending <-> id ∈ marks (chain s));
  inv_terminal : forall id r, actions s !! id = Some r -> is_aborted id s = false ->
    (status r = complete ∨ status r = failed <->
     id ∈ started (trace s) ∧ busy s ≠ Some id);
  inv_not_aborted : forall id r, actions s !! id = Some r -> is_aborted id s = false ->
    status r ≠ aborted
}.


(** ** Scenarios *)

(** An environment in which every promise is fulfilled. *)
Definition all_fulfilled (exitCode : Z) (source : string) (result : CompilationResult)
    : World :=
  fun c =>
    match c with
    | CExit => Fulfilled exitCode
    | CReadFile _ => Fulfilled source
    | CCompile _ _ _ _ => Fulfilled result
    | CWebcontainer | CImportCompiler | CSpawn _ _ | CMkdir _ | CWriteFile _ _ =>
        Fulfilled tt
    end.

Definition compiled : CompilationResult :=
  mkCompilationResult true (Some "6080") (Some []) None None None None.

Definition calm : World := all_fulfilled 0 "" compiled.

Definition hello : BoltAction := FileAction "hi" "a.txt".
Definition sleep : BoltAction := ShellAction "sleep 9".

(** An action is registered and finalized in one turn of the parser. *)
Definition finalized_at_once : list Event := [AddAction "1" hello; RunAction "1" hello].

(** A file action runs to completion. *)
Definition file_completes : list Event :=
  [AddAction "1" hello; Tick; RunAction "1" hello; Tick; Resolve calm; Resolve calm].

(** A second action is registered while a shell action runs. *)
Definition registered_behind : list Event :=
  [AddAction "1" sleep; RunAction "1" sleep; Tick; Tick; AddAction "2" hello].

(** The shell action ends and the lane moves on. *)
Definition lane_moves_on : list Event :=
  [Resolve calm; Resolve calm; Resolve calm; Tick; Tick].


(** An environment in which every promise is rejected. *)
Definition stormy : World := fun _ => Rejected "boom".

(** An environment in which the sandbox answers, the process exits with
    code 1, the compiler reports errors, and no file can be written. *)
Definition rejected_source : CompilationResult :=
  mkCompilationResult false None None (Some ["bad syntax"]) None None None.

Definition unexpected_token : CompilationResult :=
  mkCompilationResult false None None (Some ["unexpected token"]) None None None.

Definition read_only (result : CompilationResult) : World :=
  fun c =>
    match c with
    | CExit => Fulfilled 1%Z
    | CReadFile _ => Fulfilled "contract C {"
    | CCompile _ _ _ _ => Fulfilled result
    | CMkdir _ | CWriteFile _ _ => Rejected "EACCES"
    | CWebcontainer | CImportCompiler | CSpawn _ _ => Fulfilled tt
    end.

(** The sandbox answers, and the [spawn] call raises an error. *)
Definition spawn_refused : World :=
  fun c =>
    match c with
    | CExit => Fulfilled 0%Z
    | CReadFile _ => Fulfilled ""
    | CCompile _ _ _ _ => Fulfilled compiled
    | CSpawn _ _ => Rejected "ENOENT"
    | CWebcontainer | CImportCompiler | CMkdir _ | CWriteFile _ _ => Fulfilled tt
    end.

(** The process is spawned, and the promise of its exit is rejected. *)
Definition exit_lost : World :=
  fun c =>
    match c with
    | CExit => Rejected "process lost"
    | CReadFile _ => Fulfilled ""
    | CCompile _ _ _ _ => Fulfilled compiled
    | CWebcontainer | CImportCompiler | CSpawn _ _ | CMkdir _ | CWriteFile _ _ =>
        Fulfilled tt
    end.

(** A shell action has been dispatched and awaits the sandbox. *)
Definition shell_dispatched : list Event :=
  [AddAction "1" sleep; RunAction "1" sleep; Tick; Tick].


(** A file action below a folder is executed in a sandbox that cannot be
    written; a contract is compiled, with [result] as the compiler's
    answer. *)
Definition nested : BoltAction := FileAction "hi" "src/a.txt".

Definition file_in_read_only_sandbox : list Event :=
  [AddAction "1" nested; RunAction "1" nested; Tick; Tick;
   Resolve (read_only compiled); Resolve (read_only compiled);
   Resolve (read_only compiled)].

Definition c_sol : BoltAction := ContractAction "" solidity "C.sol" None None None.

Definition contract_dispatched : list Event :=
  [AddAction "3" c_sol; RunAction "3" c_sol; Tick].

Definition compiler_says (result : CompilationResult) : World :=
  all_fulfilled 0 "contract C {" result.

Definition contract_compiled (result : CompilationResult) : list Event :=
  contract_dispatched ++ Tick :: replicate 6 (Resolve (compiler_says result)).


(** ** More readings of a runner *)

(** The action data of a record: the keys that come from a [BoltAction]. *)
Definition payload (r : ActionState) :=
  (type r, content r, filePath r, language r, target r, optimize r, outputDir r).

Definition payload_of (id : string) (s : Runner) := payload <$> actions s !! id.

(** A record has the keys that [BoltAction] requires for its type. *)
Definition well_typed (r : ActionState) : Prop :=
  match type r with
  | file => is_Some (filePath r)
  | shell => True
  | contract => is_Some (filePath r) ∧ is_Some (language r)
  end.

(** The identifiers of the shell actions whose process was killed, oldest
    first. *)
Fixpoint kills (t : list Obs) : list string :=
  match t with
  | [] => []
  | Killed id :: rest => id :: kills rest
  | _ :: rest => kills rest
  end.

(** The events [es] do not invoke the [abort] of [id]. *)
Definition spares (id : string) (es : list Event) : bool :=
  forallb (fun e => match e with
                    | Abort id' => bool_decide (id' ≠ id)
                    | _ => true
                    end) es.

(** ** A handler in a fixed environment

    What an asynchronous function does when nothing else happens while it is
    suspended: every promise it awaits settles as the environment [w] says,
    and the clock shows [t]. *)

(** The calls and effects of the function, in order, and how it ends:
    [None] for a normal return, [Some e] for the error [e]. *)
Fixpoint perform (w : World) (t : string) (p : Prog unit) : list Obs * option string :=
  match p with
  | Return _ => ([], None)
  | Throw e => ([], Some e)
  | Do o k => let '(obs, result) := perform w t k in (Did o :: obs, result)
  | Now k => perform w t (k t)
  | Await c k => let '(obs, result) := perform w t (k (w c)) in (Called c :: obs, result)
  end.

(** The number of promises it awaits. *)
Fixpoint awaits (w : World) (t : string) (p : Prog unit) : nat :=
  match p with
  | Return _ | Throw _ => 0
  | Do _ k => awaits w t k
  | Now k => awaits w t (k t)
  | Await c k => S (awaits w t (k (w c)))
  end.

(** The observations [obs] are added to the trace. *)
Definition observes (obs : list Obs) (s : Runner) : Runner :=
  mkRunner (actions s) (signals s) (chain s) (current s) (time s) (trace s ++ obs).

(** The files that a trace shows written, oldest first. *)
Fixpoint writes (t : list Obs) : list (string * FileData) :=
  match t with
  | [] => []
  | Called (CWriteFile path data) :: rest => (path, data) :: writes rest
  | _ :: rest => writes rest
  end.

(** The calls that a trace shows, oldest first. *)
Fixpoint calls (t : list Obs) : list Call :=
  match t with
  | [] => []
  | Called c :: rest => c :: calls rest
  | _ :: rest => calls rest
  end.

(** The trace without the kills of [abort]: what the lane and the handlers
    did, in order. *)
Fixpoint handled (t : list Obs) : list Obs :=
  match t with
  | [] => []
  | Killed _ :: rest => handled rest
  | o :: rest => o :: handled rest
  end.

(** The calls of a trace, each with the execution in which it is made
    ([cur] is the execution under way). *)
Fixpoint calls_of (cur : option string) (t : list Obs) : list (string * Call) :=
  match t with
  | [] => []
  | Began id :: rest => calls_of (Some id) rest
  | Ended _ :: rest => calls_of None rest
  | Called c :: rest =>
      match cur with
      | Some id => (id, c) :: calls_of cur rest
      | None => calls_of cur rest
      end
  | _ :: rest => calls_of cur rest
  end.

(** [c] is one of the calls that [p] makes, at some time and for some
    outcomes of the calls before it. *)
Fixpoint occurs (c : Call) (p : Prog unit) : Prop :=
  match p with
  | Return _ | Throw _ => False
  | Do _ k => occurs c k
  | Now k => exists t, occurs c (k t)
  | Await c' k => c = c' ∨ exists r, occurs c (k r)
  end.

(** The files that [#runContractAction] writes for a contract that
    compiled: the bytecode and the metadata when they are non-empty strings,
    the ABI when there is one, and the report. *)
Definition artifacts (r : ActionState) (path out compiledAt : string)
    (result : CompilationResult) : list (string * FileData) :=
  (if truthy (bytecode result)
   then [(out +:+ ".bin", Text (default "" (bytecode result)))] else []) ++
  match abi result with
  | Some entries => [(out +:+ ".abi.json", JsonAbi entries)]
  | None => []
  end ++
  (if truthy (metadata result)
   then [(out +:+ ".metadata.json", Text (default "" (metadata result)))] else []) ++
  [(out +:+ ".report.json",
    JsonReport {| rp_success := true; rp_fileName := path; rp_language := language r;
                  rp_target := target r; rp_warnings := default [] (warnings result);
                  rp_gasEstimates := gasEstimates result;
                  rp_compiledAt := compiledAt |})].

(** The writes of [files] that are attempted when they are written one
    after the other and the first refusal ends the sequence, and the error
    of that refusal. *)
Fixpoint attempted (w : World) (files : list (string * FileData))
    : list (string * FileData) :=
  match files with
  | [] => []
  | (path, data) :: rest =>
      (path, data) :: match w (CWriteFile path data) with
                      | Fulfilled _ => attempted w rest
                      | Rejected _ => []
                      end
  end.

Fixpoint refusal (w : World) (files : list (string * FileData)) : option string :=
  match files with
  | [] => None
  | (path, data) :: rest =>
      match w (CWriteFile path data) with
      | Fulfilled _ => refusal w rest
      | Rejected e => Some e
      end
  end.

Definition is_rejected {A} (o : Outcome A) : bool :=
  match o with Rejected _ => true | Fulfilled _ => false end.

(** The calls of [cs] that are made when they are awaited one after the
    other and the first rejection ends the sequence. *)
Fixpoint tried (w : World) (cs : list Call) : list Call :=
  match cs with
  | [] => []
  | c :: rest => c :: if is_rejected (w c) then [] else tried w rest
  end.

(** What [#runContractAction] awaits before it creates the output folder:
    the compiler module, the sandbox, the source, and the compiler's answer
    for the source that was read. *)
Definition preparation (w : World) (r : ActionState) (path : string) : list Call :=
  [CImportCompiler; CWebcontainer; CReadFile path] ++
  match w (CReadFile path) with
  | Fulfilled source => [CCompile source (language r) path (optimize r)]
  | Rejected _ => []
  end.

(** * The compiler ([src/app/lib/smartcontracts/compiler.ts])

    The class [SmartContractCompiler].  Its methods are asynchronous, but
    the only promise they await is the import of [solc]; a call is embedded
    as a function from the state of the object to the new state and the
    settled promise.  The messages of its logger are left out. *)

(** A value caught by [catch (error)]: an [Error] with its message, or
    anything else. *)
Inductive Thrown :=
| ErrorObject (message : string)
| OtherValue.

(** [error instanceof Error ? error.message : 'Unknown error'] *)
Definition message_of (e : Thrown) : string :=
  match e with
  | ErrorObject message => message
  | OtherValue => "Unknown error"
  end.

Record CompilerOptions := mkCompilerOptions {
  co_optimize : option bool;
  co_optimizationRuns : option Z;
  co_evmVersion : option string;
  co_outputSelection : option string
}.

(** The [outputSelection] of the input: the default of [compileSolidity]
    ([abi], [evm.bytecode], [evm.gasEstimates] and [metadata] of every
    contract of every file), or the caller's. *)
Inductive OutputSelection :=
| AbiBytecodeGasMetadata
| Selected (json : string).

(** The standard JSON input handed to [solc.compile]: one source. *)
Record SolcInput := mkSolcInput {
  in_fileName : string;
  in_content : string;
  in_enabled : bool;
  in_runs : Z;
  in_evmVersion : string;
  in_outputSelection : OutputSelection
}.

(** The parsed output of [solc]: the diagnostics, each with its severity
    and its formatted message as the compiler writes them, and for each
    source file its contracts, in the order of their keys. *)
Record Diagnostic := mkDiagnostic {
  severity : string;
  formattedMessage : string
}.

Record Bytecode := mkBytecode { object : option string }.

Record Evm := mkEvm {
  evm_bytecode : option Bytecode;
  evm_gasEstimates : option string
}.

Record Contract := mkContract {
  c_evm : option Evm;
  c_abi : option (list string);
  c_metadata : option string
}.

Record SolcOutput := mkSolcOutput {
  out_errors : option (list Diagnostic);
  out_contracts : option (gmap string (list (string * Contract)))
}.

(** [JSON.parse(solc.compile(JSON.stringify(input)))]: the output, or what
    [compile] or [JSON.parse] throws. *)
Definition Solc := SolcInput -> SolcOutput + Thrown.

(** What the JavaScript engine and the module loader decide. *)
Class Engine := {
  (** [(await import('solc')).default]; [None] is a module without
      default export *)
  import_solc : Outcome (option Solc);
  (** [new Function(sourceCode)]: the message of the [SyntaxError] it
      throws, if it throws *)
  new_Function : string -> option string;
  (** the message of the [TypeError] for reading the property [key] of
      [undefined] *)
  cannot_read : string -> string
}.

(** The fields [_solc] and [_initialized]. *)
Record SmartContractCompiler := mkSmartContractCompiler {
  _solc : option Solc;
  _initialized : bool
}.

Definition smartContractCompiler : SmartContractCompiler :=
  mkSmartContractCompiler None false.

(** [{ success: false, errors }] *)
Definition failure (errs : list string) : CompilationResult :=
  mkCompilationResult false None None (Some errs) None None None.

(** [ds.filter((d) => d.severity === sev).map((d) => d.formattedMessage)] *)
Definition messages (sev : string) (ds : list Diagnostic) : list string :=
  formattedMessage <$> filter (fun d => severity d = sev) ds.

Section Compiler.
Context {engine : Engine}.

Definition initialize (c : SmartContractCompiler)
    : SmartContractCompiler * Outcome unit :=
  if _initialized c then (c, Fulfilled tt)
  else match import_solc with
       | Fulfilled solc => (mkSmartContractCompiler solc true, Fulfilled tt)
       | Rejected _ => (c, Rejected "Failed to initialize Solidity compiler")
       end.

(** The body of the [try] of [compileSolidity] after the output is parsed:
    the result it returns, or what it throws. *)
Definition read_output (output : SolcOutput) (fileName : string)
    : CompilationResult + Thrown :=
  let errs := from_option (messages "error") [] (out_errors output) in
  let warns := from_option (messages "warning") [] (out_errors output) in
  if bool_decide (errs ≠ [])
  then inl (mkCompilationResult false None None (Some errs) (Some warns) None None)
  else
    match out_contracts output with
    | None => inr (ErrorObject (cannot_read fileName))
    | Some sources =>
        match sources !! fileName with
        | None => inl (failure ["No contracts found in source code"])
        | Some [] => inr (ErrorObject (cannot_read "evm"))
        | Some ((contractName, first) :: _) =>
            inl (mkCompilationResult true
                   ((c_evm first ≫= evm_bytecode) ≫= object)
                   (c_abi first) None (Some warns)
                   (c_evm first ≫= evm_gasEstimates)
                   (c_metadata first))
        end
    end.

(** The [input] of [compileSolidity], with the defaults of its options. *)
Definition solc_input (sourceCode fileName : string) (options : CompilerOptions)
    : SolcInput :=
  {| in_fileName := fileName; in_content := sourceCode;
     in_enabled := default false (co_optimize options);
     in_runs := default 200%Z (co_optimizationRuns options);
     in_evmVersion := default "london" (co_evmVersion options);
     in_outputSelection :=
       from_option Selected AbiBytecodeGasMetadata (co_outputSelection options) |}.

Definition compileSolidity (c : SmartContractCompiler) (sourceCode fileName : string)
    (options : CompilerOptions) : SmartContractCompiler * Outcome CompilationResult :=
  match initialize c with
  | (c', Rejected e) => (c', Rejected e)
  | (c', Fulfilled _) =>
      let attempt :=
        match _solc c' with
        | None => inr (ErrorObject (cannot_read "compile"))
        | Some solc =>
            match solc (solc_input sourceCode fileName options) with
            | inl output => read_output output fileName
            | inr e => inr e
            end
        end in
      (c', Fulfilled match attempt with
                     | inl result => result
                     | inr e => failure ["Compilation failed: " +:+ message_of e]
                     end)
  end.

Definition compileRust (c : SmartContractCompiler) (sourceCode fileName : string)
    : SmartContractCompiler * Outcome CompilationResult :=
  (c, Fulfilled (failure ["Rust compilation not yet implemented. Use shell actions with cargo build instead."])).

Definition compileJavaScript (c : SmartContractCompiler) (sourceCode fileName : string)
    : SmartContractCompiler * Outcome CompilationResult :=
  (c, Fulfilled match new_Function sourceCode with
                | None => mkCompilationResult true (Some sourceCode) (Some []) None
                            (Some []) None None
                | Some message => failure ["JavaScript syntax error: " +:+ message]
                end).

(** [compile]; a [language] that is none of the three is [undefined], as
    for a record without the key. *)
Definition compile (c : SmartContractCompiler) (sourceCode : string)
    (language : option Language) (fileName : string) (options : CompilerOptions)
    : SmartContractCompiler * Outcome CompilationResult :=
  match language with
  | Some solidity => compileSolidity c sourceCode fileName options
  | Some rust => compileRust c sourceCode fileName
  | Some javascript => compileJavaScript c sourceCode fileName
  | None => (c, Fulfilled (failure ["Unsupported language: undefined"]))
  end.

(** The compiler calls of the runner, [compile(sourceCode, action.language,
    action.filePath, { optimize: action.optimize })], are answered by the
    compiler in state [c]. *)
Definition compiles_with (c : SmartContractCompiler) (w : World) : Prop :=
  forall source lang path opt,
    w (CCompile source lang path opt)
    = (compile c source lang path (mkCompilerOptions opt None None None)).2.

(** A caller that makes one [compile] call after the other, each with
    source, language, file name and options. *)
Definition Request : Type := string * option Language * string * CompilerOptions.

Fixpoint compile_each (c : SmartContractCompiler) (requests : list Request)
    : SmartContractCompiler * list (Outcome CompilationResult) :=
  match requests with
  | [] => (c, [])
  | (sourceCode, language, fileName, options) :: rest =>
      let '(c', answered) := compile c sourceCode language fileName options in
      let '(c'', others) := compile_each c' rest in
      (c'', answered :: others)
  end.

End Compiler.

(** ** Scenarios for the compiler *)

Definition storage_contract : Contract :=
  mkContract (Some (mkEvm (Some (mkBytecode (Some "6080"))) None)) (Some []) (Some "{}").

Definition unused_variable : Diagnostic :=
  mkDiagnostic "warning" "Warning: Unused local variable.".

(** A [solc] that finds one contract in every source, with one warning. *)
Definition lenient_solc : Solc :=
  fun input =>
    inl (mkSolcOutput (Some [unused_variable])
           (Some {[ in_fileName input := [("C", storage_contract)] ]})).

(** An engine that loads [lenient_solc] and rejects only the source [}]. *)
Definition lenient_engine : Engine :=
  {| import_solc := Fulfilled (Some lenient_solc);
     new_Function := fun source =>
       if decide (source = "}") then Some "Unexpected token '}'" else None;
     cannot_read := fun key =>
       "Cannot read properties of undefined (reading '" +:+ key +:+ "')" |}.

(** An engine that cannot load [solc]. *)
Definition offline_engine : Engine :=
  {| import_solc := Rejected "Failed to fetch dynamically imported module";
     new_Function := fun _ => None;
     cannot_read := fun key =>
       "Cannot read properties of undefined (reading '" +:+ key +:+ "')" |}.

(** The environment of a sandbox that accepts everything and holds
    [source] in every file, with the compiler in state [c]. *)
Definition compiling `{Engine} (c : SmartContractCompiler) (source : string) : World :=
  fun call =>
    match call with
    | CExit => Fulfilled 0%Z
    | CReadFile _ => Fulfilled source
    | CCompile sourceCode lang path opt =>
        (compile c sourceCode lang path (mkCompilerOptions opt None None None)).2
    | CWebcontainer | CImportCompiler | CSpawn _ _ | CMkdir _ | CWriteFile _ _ =>
        Fulfilled tt
    end.

Definition c_js : BoltAction := ContractAction "" javascript "token.js" None None None.


Definition javascript_dispatched : list Event :=
  [AddAction "5" c_js; RunAction "5" c_js; Tick].

(** ** What a handler can call *)

(** Every call that [p] can make satisfies [allowed]. *)
Fixpoint confined (allowed : Call -> Prop) (p : Prog unit) : Prop :=
  match p with
  | Return _ | Throw _ => True
  | Do _ k => confined allowed k
  | Now k => forall t, confined allowed (k t)
  | Await c k => allowed c ∧ forall r, confined allowed (k r)
  end.

Section Finalized.
Context {node_path : NodePath}.

(** The call [c] is made in the execution of [id] for what a [runAction]
    call of [es] stored: that call found the record of [id] registered and
    not yet executed, and [c] is a call of the handler on the merged
    record. *)
Definition called_for (es : list Event) (id : string) (c : Call) : Prop :=
  exists es1 a es2 r0,
    es = es1 ++ RunAction id a :: es2 ∧
    actions (after es1) !! id = Some r0 ∧ executed r0 = false ∧
    occurs c (handler (spread r0 a)).

(** The data of the record [r] of [id] is what a [runAction] call of [es]
    stored. *)
Definition stored_by (es : list Event) (id : string) (r : ActionState) : Prop :=
  exists es1 a es2 r0,
    es = es1 ++ RunAction id a :: es2 ∧
    actions (after es1) !! id = Some r0 ∧ executed r0 = false ∧
    payload r = payload (spread r0 a).

End Finalized.

(** A shell action is registered while its command is still streaming in,
    finalized with the whole command, and executed. *)
Definition streamed_command : list Event :=
  [AddAction "1" (ShellAction "npm i"); RunAction "1" (ShellAction "npm install");
   Tick; Tick; Resolve calm].

(** * The example contract in JavaScript ([src/contracts/SimpleContract.js])

    The class [SimpleContract]: a [Map] from keys to values and a list of
    events.  A [Map] keeps its entries in insertion order and [set] on a key
    it has replaces the value in place, so the map is an association list.
    [Date.now()] is read by the caller: a method that reads the clock takes
    the readings as arguments, in the order in which they are made. *)
Module SimpleContract.
Section Contract.
Context {Value : Type} (undefined : Value).

(** [Map.prototype.set], [get], [has], [delete] *)
Fixpoint map_set (key : string) (value : Value) (m : list (string * Value))
    : list (string * Value) :=
  match m with
  | [] => [(key, value)]
  | (k, v) :: rest =>
      if decide (k = key) then (k, value) :: rest else (k, v) :: map_set key value rest
  end.

Fixpoint map_get (key : string) (m : list (string * Value)) : option Value :=
  match m with
  | [] => None
  | (k, v) :: rest => if decide (k = key) then Some v else map_get key rest
  end.

Definition map_has (key : string) (m : list (string * Value)) : bool :=
  bool_decide (key ∈ m.*1).

Definition map_delete (key : string) (m : list (string * Value))
    : list (string * Value) :=
  filter (fun entry => entry.1 ≠ key) m.

(** The [data] of an event: [{ key, value, timestamp }], [{ key,
    timestamp }] or [{ timestamp }]. *)
Inductive EventData :=
| KeyValueTimestamp (key : string) (value : Value) (timestamp : Z)
| KeyTimestamp (key : string) (timestamp : Z)
| Timestamp (timestamp : Z).

Record ContractEvent := mkContractEvent {
  event : string;
  data : EventData;
  timestamp : Z
}.

Record SimpleContract := mkSimpleContract {
  storage : list (string * Value);
  owner : string;
  events : list ContractEvent
}.

(** [constructor()] *)
Definition new_contract : SimpleContract := mkSimpleContract [] "contract_creator" [].

Definition emitEvent (eventName : string) (d : EventData) (now : Z) (c : SimpleContract)
    : SimpleContract :=
  mkSimpleContract (storage c) (owner c) (events c ++ [mkContractEvent eventName d now]).

Definition store (key : string) (value : Value) (now now' : Z) (c : SimpleContract)
    : SimpleContract * bool :=
  (emitEvent "ValueStored" (KeyValueTimestamp key value now) now'
     (mkSimpleContract (map_set key value (storage c)) (owner c) (events c)),
   true).

Definition retrieve (key : string) (c : SimpleContract) : Value :=
  default undefined (map_get key (storage c)).

Definition getAllKeys (c : SimpleContract) : list string := (storage c).*1.

Definition hasKey (key : string) (c : SimpleContract) : bool := map_has key (storage c).

Definition deleteKey (key : string) (now now' : Z) (c : SimpleContract)
    : SimpleContract * bool :=
  if map_has key (storage c)
  then (emitEvent "ValueDeleted" (KeyTimestamp key now) now'
          (mkSimpleContract (map_delete key (storage c)) (owner c) (events c)),
        true)
  else (c, false).

Definition getOwner (c : SimpleContract) : string := owner c.

Definition getEvents (c : SimpleContract) : list ContractEvent := events c.

Definition getEventsByName (eventName : string) (c : SimpleContract)
    : list ContractEvent :=
  filter (fun e => event e = eventName) (events c).

Definition clearStorage (now now' : Z) (c : SimpleContract) : SimpleContract :=
  emitEvent "StorageCleared" (Timestamp now) now'
    (mkSimpleContract [] (owner c) (events c)).

Definition getStorageSize (c : SimpleContract) : nat := length (storage c).

(** The calls that change a contract, with the two clock readings of
    each, and a contract after a sequence of them. *)
Inductive Method :=
| Store (key : string) (value : Value) (now now' : Z)
| DeleteKey (key : string) (now now' : Z)
| ClearStorage (now now' : Z).

Definition call (c : SimpleContract) (m : Method) : SimpleContract :=
  match m with
  | Store key value now now' => (store key value now now' c).1
  | DeleteKey key now now' => (deleteKey key now now' c).1
  | ClearStorage now now' => clearStorage now now' c
  end.

Definition called (ms : list Method) : SimpleContract := foldl call new_contract ms.

(** The map that a list of events describes. *)
Definition apply_event (m : list (string * Value)) (e : ContractEvent)
    : list (string * Value) :=
  match data e with
  | KeyValueTimestamp key value _ => map_set key value m
  | KeyTimestamp key _ => map_delete key m
  | Timestamp _ => []
  end.

Definition replay (es : list ContractEvent) : list (string * Value) :=
  foldl apply_event [] es.

(** The number of [store] calls among the methods. *)
Fixpoint stores (ms : list Method) : nat :=
  match ms with
  | [] => 0
  | Store _ _ _ _ :: rest => S (stores rest)
  | _ :: rest => stores rest
  end.

End Contract.
End SimpleContract.

(** * The example contract in Solidity ([src/contracts/SimpleStorage.sol])

    One [uint256] in storage and one event.  The compiler is 0.8, so the
    addition of [increment] is checked: it reverts instead of wrapping
    around.  A transaction that reverts leaves the storage and the log as
    they were. *)
Module SimpleStorage.

Definition max_uint256 : Z := 2 ^ 256 - 1.

(** [event ValueChanged(uint256 newValue, address changedBy)] *)
Record ValueChanged := mkValueChanged {
  newValue : Z;
  changedBy : Z
}.

Record SimpleStorage := mkSimpleStorage {
  storedData : Z;
  logs : list ValueChanged
}.

Definition deployed : SimpleStorage := mkSimpleStorage 0 [].

(** The functions, called by [sender]; [None] is a revert. *)
Definition set (x : Z) (sender : Z) (c : SimpleStorage) : option SimpleStorage :=
  Some (mkSimpleStorage x (logs c ++ [mkValueChanged x sender])).

Definition get (c : SimpleStorage) : Z := storedData c.

Definition increment (sender : Z) (c : SimpleStorage) : option SimpleStorage :=
  if decide (storedData c + 1 > max_uint256)%Z then None
  else Some (mkSimpleStorage (storedData c + 1)
               (logs c ++ [mkValueChanged (storedData c + 1) sender])).

Definition reset (sender : Z) (c : SimpleStorage) : option SimpleStorage :=
  Some (mkSimpleStorage 0 (logs c ++ [mkValueChanged 0 sender])).

Inductive Transaction :=
| CallSet (x : Z) (sender : Z)
| CallIncrement (sender : Z)
| CallReset (sender : Z).

Definition transact (c : SimpleStorage) (tx : Transaction) : SimpleStorage :=
  default c match tx with
            | CallSet x sender => set x sender c
            | CallIncrement sender => increment sender c
            | CallReset sender => reset sender c
            end.

Definition mined (txs : list Transaction) : SimpleStorage := foldl transact deployed txs.

(** The argument of the transaction is a [uint256]. *)
Definition well_formed (tx : Transaction) : Prop :=
  match tx with
  | CallSet x _ => (0 <= x <= max_uint256)%Z
  | _ => True
  end.

End SimpleStorage.

(** * Properties *)

(** ** Lists of reactions and traces *)

(** A signal has the listener of a handler that was started. *)
Lemma listeners_started cur t id :
  id ∈ listeners cur t -> cur = Some id ∨ id ∈ started t.
Proof.
  revert cur. induction t as [|o t IH]; intros cur; [by intros ?%elem_of_nil|].
  destruct o as [id'|id'|c|e|id'|e]; simpl; try (by apply IH).
  - intros [[=]|Hin]%IH; [|set_solver]. subst. set_solver.
  - intros [[=]|Hin]%IH. by right.
  - destruct e; try (by apply IH). destruct cur as [id'|]; [|by apply IH].
    intros [->|Hin]%elem_of_cons; [by left|]. by apply IH.
Qed.

Lemma execs_app q1 q2 : execs (q1 ++ q2) = execs q1 ++ execs q2.
Proof. induction q1 as [|[]]; simpl; congruence. Qed.

Lemma marks_app q1 q2 : marks (q1 ++ q2) = marks q1 ++ marks q2.
Proof. induction q1 as [|[]]; simpl; congruence. Qed.

Lemma started_app t1 t2 : started (t1 ++ t2) = started t1 ++ started t2.
Proof. induction t1 as [|[]]; simpl; congruence. Qed.

Lemma intervals_app t1 t2 : intervals (t1 ++ t2) = intervals t1 ++ intervals t2.
Proof. induction t1 as [|[]]; simpl; congruence. Qed.

Lemma lane_after_app t1 t2 cur :
  lane_after cur (t1 ++ t2) = lane_after cur t1 ≫= fun c => lane_after c t2.
Proof.
  revert cur. induction t1 as [|o t1 IH]; intros cur; [done|].
  destruct o, cur; simpl; try done; try apply IH.
  case_decide; [apply IH | done].
Qed.

Lemma ordered_snoc_mark q id :
  ordered q -> id ∉ execs q -> ordered (q ++ [MarkRunning id]).
Proof.
  induction q as [|[id'|id'] q IH]; simpl; [done | auto |].
  intros [Hfresh Hq] Hid. rewrite marks_app. simpl. split.
  - set_solver.
  - apply IH; set_solver.
Qed.

Lemma ordered_snoc_exec q id : ordered q -> ordered (q ++ [Execute id]).
Proof.
  induction q as [|[id'|id'] q IH]; simpl; [set_solver | auto |].
  intros [Hfresh Hq]. rewrite marks_app. simpl. split; [set_solver | auto].
Qed.

(** ** The operations on the store *)

Lemma lookup_updateAction id u s id' :
  actions (updateAction id u s) !! id' =
  if decide (id = id') then u <$> actions s !! id' else actions s !! id'.
Proof.
  unfold updateAction. case_decide as Hid.
  - subst id'. destruct (actions s !! id) as [r|] eqn:Hr; simpl.
    + by rewrite lookup_insert_eq.
    + by rewrite Hr.
  - destruct (actions s !! id); simpl; [by rewrite lookup_insert_ne | done].
Qed.

Lemma updateAction_frame id u s :
  signals (updateAction id u s) = signals s ∧ chain (updateAction id u s) = chain s ∧
  current (updateAction id u s) = current s ∧ time (updateAction id u s) = time s ∧
  trace (updateAction id u s) = trace s.
Proof. unfold updateAction. by destruct (actions s !! id). Qed.

Lemma signals_updateAction id u s : signals (updateAction id u s) = signals s.
Proof. apply updateAction_frame. Qed.
Lemma chain_updateAction id u s : chain (updateAction id u s) = chain s.
Proof. apply updateAction_frame. Qed.
Lemma current_updateAction id u s : current (updateAction id u s) = current s.
Proof. apply updateAction_frame. Qed.
Lemma time_updateAction id u s : time (updateAction id u s) = time s.
Proof. apply updateAction_frame. Qed.
Lemma trace_updateAction id u s : trace (updateAction id u s) = trace s.
Proof. apply updateAction_frame. Qed.

Lemma is_aborted_updateAction id' id u s :
  is_aborted id' (updateAction id u s) = is_aborted id' s.
Proof. unfold is_aborted. by rewrite signals_updateAction. Qed.

Lemma busy_updateAction id u s : busy (updateAction id u s) = busy s.
Proof. unfold busy. by rewrite current_updateAction. Qed.

Create Rewrite HintDb runner.
#[local] Hint Rewrite lookup_updateAction signals_updateAction chain_updateAction
  current_updateAction time_updateAction trace_updateAction is_aborted_updateAction
  busy_updateAction execs_app marks_app started_app : runner.

Lemma status_of_updateAction id u s id' :
  status_of id' (updateAction id u s) =
  if decide (id = id') then (status ∘ u) <$> actions s !! id' else status_of id' s.
Proof.
  unfold status_of. rewrite lookup_updateAction. case_decide; [|done].
  by destruct (actions s !! id').
Qed.

Lemma executed_set_status st r : executed (set_status st r) = executed r.
Proof. done. Qed.

Lemma executed_set_failed e r : executed (set_failed e r) = executed r.
Proof. done. Qed.

(** ** Running a handler *)

Lemma proceed_frame p : forall id heard s,
  chain (proceed id heard p s) = chain s ∧
  signals (proceed id heard p s) = signals s ∧
  time (proceed id heard p s) = time s.
Proof.
  induction p as [a|e|o k IH|k IH|c k IH]; intros id heard s; simpl.
  - by autorewrite with runner.
  - by autorewrite with runner.
  - apply (IH id _ (observe (Did o) s)).
  - apply IH.
  - done.
Qed.

Lemma chain_proceed p id heard s : chain (proceed id heard p s) = chain s.
Proof. apply proceed_frame. Qed.
Lemma signals_proceed p id heard s : signals (proceed id heard p s) = signals s.
Proof. apply proceed_frame. Qed.
Lemma time_proceed p id heard s : time (proceed id heard p s) = time s.
Proof. apply proceed_frame. Qed.

#[local] Hint Rewrite chain_proceed signals_proceed time_proceed : runner.

(** A handler never touches the records of the other actions, and never
    removes a record. *)
Lemma lookup_proceed_ne p : forall id heard s id',
  id ≠ id' -> actions (proceed id heard p s) !! id' = actions s !! id'.
Proof.
  induction p as [a|e|o k IH|k IH|c k IH]; intros id heard s id' Hne; simpl.
  - autorewrite with runner. by rewrite decide_False.
  - autorewrite with runner. by rewrite decide_False.
  - by rewrite IH.
  - by rewrite IH.
  - done.
Qed.

Lemma bounded_mono p : forall n m, n <= m -> bounded n p -> bounded m p.
Proof.
  induction p as [a|e|o k IH|k IH|c k IH]; intros n m Hnm; simpl; eauto.
  destruct n as [|n]; [done|]. destruct m as [|m]; [lia|].
  intros Hk r. apply (IH r n); [lia | done].
Qed.

Lemma lane_after_quiet cur o :
  (forall id, o ≠ Began id) -> (forall id, o ≠ Ended id) -> lane_after cur [o] = Some cur.
Proof. intros Hb He. destruct o; simpl; try done; [by destruct (Hb id) | by destruct (He id)]. Qed.

Lemma started_quiet o : (forall id, o ≠ Began id) -> started [o] = [].
Proof. intros Hb. destruct o; simpl; try done. by destruct (Hb id). Qed.

(** ** The invariant is kept by every event *)

(** The invariant reads a runner through its store, its signals, its chain,
    the handlers of its trace, and the identifier and bound of the pending
    handler. *)
Lemma invariant_ext s s' :
  actions s' = actions s -> signals s' = signals s -> chain s' = chain s ->
  started (trace s') = started (trace s) ->
  lane_after None (trace s') = lane_after None (trace s) ->
  busy s' = busy s ->
  (forall c, current s' = Some c -> exists n, forall r, bounded n (resume c r)) ->
  invariant s -> invariant s'.
Proof.
  intros Ha Hs Hc Ht Hl Hb Hbd [].
  split; unfold executed_of, is_aborted in *; rewrite ?Ha, ?Hs, ?Hc, ?Ht, ?Hl, ?Hb; auto.
Qed.

Lemma invariant_new_runner : invariant new_runner.
Proof.
  split; simpl; try done; try (intros; set_solver); try constructor.
Qed.

Lemma invariant_observe o s :
  (forall id, o ≠ Began id) -> (forall id, o ≠ Ended id) ->
  invariant s -> invariant (observe o s).
Proof.
  intros Hb He Hinv. apply (invariant_ext s); simpl; try done.
  - by rewrite started_app, started_quiet, app_nil_r.
  - rewrite lane_after_app. destruct (lane_after None (trace s)); simpl; [|done].
    by apply lane_after_quiet.
  - apply Hinv.
Qed.

Lemma invariant_suspend c c' s :
  run_id c' = run_id c -> (exists n, forall r, bounded n (resume c' r)) ->
  invariant (with_current (Some c) s) -> invariant (with_current (Some c') s).
Proof.
  intros Hid Hbd. apply invariant_ext; simpl; try done.
  - unfold busy. simpl. by rewrite Hid.
  - by intros ? [= <-].
Qed.

Lemma invariant_time t s : invariant s -> invariant (with_time t s).
Proof. intros Hinv. apply (invariant_ext s); try done. apply Hinv. Qed.

(** A record is registered iff it has a status. *)
Lemma executed_registered id s b : executed_of id s = Some b -> is_Some (actions s !! id).
Proof. unfold executed_of. destruct (actions s !! id); naive_solver. Qed.

Lemma invariant_execs_registered s id :
  invariant s -> id ∈ execs (chain s) -> is_Some (actions s !! id).
Proof.
  intros Hinv Hid. apply (executed_registered id s true), Hinv. set_solver.
Qed.

Lemma invariant_started_registered s id :
  invariant s -> id ∈ started (trace s) -> is_Some (actions s !! id).
Proof.
  intros Hinv Hid. apply (executed_registered id s true), Hinv. set_solver.
Qed.

Lemma settle_spec id res s :
  chain (settle id res s) = chain s ∧ signals (settle id res s) = signals s ∧
  current (settle id res s) = current s ∧ time (settle id res s) = time s ∧
  started (trace (settle id res s)) = started (trace s) ∧
  lane_after None (trace (settle id res s)) =
    (lane_after None (trace s) ≫= fun c => lane_after c [Ended id]) ∧
  forall id', actions (settle id res s) !! id' =
    if decide (id = id') then last_update (is_aborted id s) res <$> actions s !! id'
    else actions s !! id'.
Proof.
  destruct res as [e|]; simpl; autorewrite with runner; simpl;
    rewrite ?app_nil_r; repeat split; try done;
    try (intros id'; by rewrite lookup_updateAction).
  - rewrite <- app_assoc, lane_after_app. by destruct (lane_after None (trace s)).
  - by rewrite lane_after_app.
Qed.

Lemma invariant_settle id res s :
  busy s = Some id -> invariant s -> invariant (settle id res (with_current None s)).
Proof.
  intros Hbusy Hinv.
  destruct (settle_spec id res (with_current None s))
    as (Hchain & Hsig & Hcur & _ & Hstarted & Hlane & Hact).
  simpl in *.
  assert (Hdom : forall id', is_Some (actions (settle id res (with_current None s)) !! id')
                             <-> is_Some (actions s !! id')).
  { intros id'. rewrite Hact. case_decide; [|done]. by rewrite fmap_is_Some. }
  assert (Hexec : forall id', executed_of id' (settle id res (with_current None s))
                              = executed_of id' s).
  { intros id'. unfold executed_of. rewrite Hact. case_decide; [|done].
    destruct (actions s !! id'); [|done]. by destruct res. }
  assert (Hidle : busy (settle id res (with_current None s)) = None).
  { unfold busy. by rewrite Hcur. }
  assert (Hab : forall id', is_aborted id' (settle id res (with_current None s))
                            = is_aborted id' s).
  { intros id'. unfold is_aborted. by rewrite Hsig. }
  pose proof (inv_busy_started s Hinv id Hbusy) as Hid.
  assert (Hna : forall r, is_aborted id s = false ->
                 status (last_update (is_aborted id (with_current None s)) res r) = complete
                 ∨ status (last_update (is_aborted id (with_current None s)) res r) = failed).
  { intros r Hna. unfold is_aborted in *. simpl. rewrite Hna. destruct res; simpl; auto. }
  split; rewrite ?Hchain, ?Hstarted, ?Hidle; try apply Hinv.
  - intros id' Hin. apply Hdom. by apply (inv_marks_registered s Hinv).
  - done.
  - intros id' Hnone. rewrite Hsig. apply (inv_unregistered_signal s Hinv).
    apply eq_None_not_Some. intros Hsome. apply Hdom in Hsome.
    rewrite Hnone in Hsome. by apply is_Some_None in Hsome.
  - intros id'. rewrite Hexec. apply (inv_executed s Hinv).
  - rewrite Hlane, (inv_lane s Hinv), Hbusy. simpl. by rewrite decide_True.
  - done.
  - by rewrite Hcur.
  - intros id' r. rewrite Hact, Hab. case_decide as Heq.
    + subst id'. destruct (actions s !! id) as [r0|] eqn:Hr0; [|done].
      intros [= <-] Hnab. split.
      * destruct (Hna r0 Hnab); congruence.
      * intros Hin. by destruct (inv_marks_fresh s Hinv id).
    + apply (inv_pending s Hinv).
  - intros id' r. rewrite Hact, Hab. case_decide as Heq.
    + subst id'. destruct (actions s !! id) as [r0|] eqn:Hr0; [|done].
      intros [= <-] Hnab. split; [done|]. intros _. by apply Hna.
    + intros Hr Hnab. rewrite (inv_terminal s Hinv id' r Hr Hnab).
      split; intros [? ?]; split; try done. congruence.
  - intros id' r. rewrite Hact, Hab. case_decide as Heq.
    + subst id'. destruct (actions s !! id) as [r0|] eqn:Hr0; [|done].
      intros [= <-] Hnab. destruct (Hna r0 Hnab); congruence.
    + apply (inv_not_aborted s Hinv).
Qed.

(** An update that keeps [executed] keeps the registered identifiers and
    what is executed. *)
Lemma updateAction_dom id u s id' :
  is_Some (actions (updateAction id u s) !! id') <-> is_Some (actions s !! id').
Proof.
  rewrite lookup_updateAction. case_decide; [|done]. by rewrite fmap_is_Some.
Qed.

Lemma updateAction_none id u s id' :
  actions (updateAction id u s) !! id' = None <-> actions s !! id' = None.
Proof. rewrite !eq_None_not_Some. by rewrite updateAction_dom. Qed.

Lemma executed_of_updateAction id u s id' :
  (forall r, executed (u r) = executed r) ->
  executed_of id' (updateAction id u s) = executed_of id' s.
Proof.
  intros Hu. unfold executed_of. rewrite lookup_updateAction. case_decide; [|done].
  destruct (actions s !! id'); simpl; [by rewrite Hu | done].
Qed.

Lemma invariant_mark id rest s :
  chain s = MarkRunning id :: rest -> invariant s ->
  invariant (updateAction id (set_status running) (with_chain rest s)).
Proof.
  intros Hchain Hinv.
  pose proof (inv_marks_once s Hinv) as Hnodup.
  pose proof (inv_ordered s Hinv) as Hord.
  pose proof (inv_once s Hinv) as Honce.
  rewrite Hchain in Hnodup, Hord, Honce. simpl in Hnodup, Hord, Honce.
  apply NoDup_cons in Hnodup as [Hfresh Hnodup].
  assert (Hmarks : forall id', id' ∈ marks rest -> id' ∈ marks (chain s)).
  { intros id'. rewrite Hchain. simpl. set_solver. }
  split; autorewrite with runner; simpl; try done; try apply Hinv.
  - intros id' Hin. apply updateAction_dom. simpl.
    by apply (inv_marks_registered s Hinv), Hmarks.
  - intros id' Hb. apply updateAction_dom. simpl. by apply (inv_busy_registered s Hinv).
  - intros id' Hnone. apply updateAction_none in Hnone.
    by apply (inv_unregistered_signal s Hinv).
  - intros id'. rewrite executed_of_updateAction by done.
    rewrite <- (inv_executed s Hinv id'), Hchain. done.
  - intros id' Hin. by apply (inv_marks_fresh s Hinv), Hmarks.
  - intros id' r. autorewrite with runner. simpl. case_decide as Heq.
    + subst id'. destruct (actions s !! id) as [r0|] eqn:Hr0; [|done].
      simpl. intros [= <-] Hna. simpl. split; [done|]. intros Hin. by destruct Hfresh.
    + simpl. intros Hr. unfold is_aborted. simpl. intros Hna.
      rewrite (inv_pending s Hinv id' r Hr Hna), Hchain. simpl. set_solver.
  - intros id' r. autorewrite with runner. simpl. case_decide as Heq.
    + subst id'. destruct (actions s !! id) as [r0|] eqn:Hr0; [|done].
      simpl. intros [= <-] Hna. simpl. split; [by intros [|]|].
      intros [Hin _]. destruct (inv_marks_fresh s Hinv id); [|done].
      rewrite Hchain. simpl. set_solver.
    + simpl. intros Hr Hna. exact (inv_terminal s Hinv id' r Hr Hna).
  - intros id' r. autorewrite with runner. simpl. case_decide as Heq.
    + subst id'. destruct (actions s !! id) as [r0|] eqn:Hr0; [|done].
      simpl. by intros [= <-] Hna.
    + simpl. intros Hr Hna. exact (inv_not_aborted s Hinv id' r Hr Hna).
Qed.

Lemma executed_of_with_current id c s :
  executed_of id (with_current c s) = executed_of id s.
Proof. done. Qed.
Lemma executed_of_with_chain id q s : executed_of id (with_chain q s) = executed_of id s.
Proof. done. Qed.
Lemma executed_of_observe id o s : executed_of id (observe o s) = executed_of id s.
Proof. done. Qed.
Lemma status_of_with_current id c s : status_of id (with_current c s) = status_of id s.
Proof. done. Qed.
Lemma status_of_with_chain id q s : status_of id (with_chain q s) = status_of id s.
Proof. done. Qed.
Lemma status_of_observe id o s : status_of id (observe o s) = status_of id s.
Proof. done. Qed.
Lemma is_aborted_with_current id c s : is_aborted id (with_current c s) = is_aborted id s.
Proof. done. Qed.
Lemma is_aborted_with_chain id q s : is_aborted id (with_chain q s) = is_aborted id s.
Proof. done. Qed.
Lemma is_aborted_observe id o s : is_aborted id (observe o s) = is_aborted id s.
Proof. done. Qed.

#[local] Hint Rewrite executed_of_with_current executed_of_with_chain executed_of_observe
  status_of_with_current status_of_with_chain status_of_observe
  is_aborted_with_current is_aborted_with_chain is_aborted_observe : runner.

Lemma invariant_begin id rest c s :
  current s = None -> chain s = Execute id :: rest -> invariant s ->
  run_id c = id -> (exists n, forall r, bounded n (resume c r)) ->
  invariant (with_current (Some c)
               (observe (Began id)
                  (updateAction id (set_status running) (with_chain rest s)))).
Proof.
  intros Hidle Hchain Hinv Hc Hbd.
  pose proof (inv_ordered s Hinv) as Hord.
  pose proof (inv_once s Hinv) as Honce.
  pose proof (inv_lane s Hinv) as Hlane.
  assert (Hnobusy : busy s = None) by (unfold busy; by rewrite Hidle).
  rewrite Hchain in Hord, Honce. simpl in Hord, Honce. destruct Hord as [Hfresh Hord].
  assert (Hmarks : marks rest = marks (chain s)) by by rewrite Hchain.
  assert (Hreg : is_Some (actions s !! id)).
  { apply (invariant_execs_registered s id Hinv). rewrite Hchain. simpl. set_solver. }
  split; unfold busy; simpl; autorewrite with runner; simpl; try done; try apply Hinv.
  - intros id' Hin. apply updateAction_dom. simpl.
    apply (inv_marks_registered s Hinv). by rewrite <- Hmarks.
  - intros id' [= <-]. apply updateAction_dom. simpl. by rewrite Hc.
  - intros id' Hnone. apply updateAction_none in Hnone.
    by apply (inv_unregistered_signal s Hinv).
  - by rewrite <- app_assoc.
  - intros id'. rewrite executed_of_with_current, executed_of_observe.
    rewrite executed_of_updateAction by done.
    rewrite <- (inv_executed s Hinv id'), Hchain, <- app_assoc. done.
  - rewrite Hmarks. apply (inv_marks_once s Hinv).
  - intros id' Hin. rewrite not_elem_of_app. split.
    + apply (inv_marks_fresh s Hinv). by rewrite <- Hmarks.
    + set_solver.
  - rewrite lane_after_app, Hlane, Hnobusy. simpl. by rewrite Hc.
  - intros id' [= <-]. rewrite Hc. set_solver.
  - by intros c' [= <-].
  - intros id' r. autorewrite with runner. simpl. case_decide as Heq.
    + subst id'. destruct (actions s !! id) as [r0|] eqn:Hr0; [|done].
      simpl. intros [= <-] Hna. simpl. split; [done|]. intros Hin. by destruct Hfresh.
    + simpl. intros Hr. unfold is_aborted. simpl. intros Hna.
      by rewrite (inv_pending s Hinv id' r Hr Hna), Hchain.
  - intros id' r. autorewrite with runner. simpl. case_decide as Heq.
    + subst id'. destruct (actions s !! id) as [r0|] eqn:Hr0; [|done].
      simpl. intros [= <-] Hna. simpl. split; [by intros [|]|].
      intros [_ Hne]. by rewrite Hc in Hne.
    + simpl. intros Hr Hna. rewrite (inv_terminal s Hinv id' r Hr Hna), Hnobusy, Hc.
      rewrite elem_of_app. set_solver.
  - intros id' r. autorewrite with runner. simpl. case_decide as Heq.
    + subst id'. destruct (actions s !! id) as [r0|] eqn:Hr0; [|done].
      simpl. by intros [= <-] Hna.
    + simpl. intros Hr Hna. exact (inv_not_aborted s Hinv id' r Hr Hna).
Qed.

Lemma is_aborted_insert_ne id id' b s :
  id ≠ id' -> is_aborted id' (with_signals <[id := b]> s) = is_aborted id' s.
Proof. intros Hne. unfold is_aborted. simpl. by rewrite lookup_insert_ne. Qed.

Lemma invariant_addAction id a s : invariant s -> invariant (addAction id a s).
Proof.
  intros Hinv. unfold addAction. destruct (actions s !! id) as [r|] eqn:Hr; [done|].
  assert (Hnew : id ∉ started (trace s) ++ execs (chain s)).
  { rewrite (inv_executed s Hinv id). unfold executed_of. by rewrite Hr. }
  assert (Hnomark : id ∉ marks (chain s)).
  { intros Hin. apply (inv_marks_registered s Hinv) in Hin. rewrite Hr in Hin.
    by apply is_Some_None in Hin. }
  assert (Hnobusy : busy s ≠ Some id).
  { intros Hb. apply (inv_busy_registered s Hinv) in Hb. rewrite Hr in Hb.
    by apply is_Some_None in Hb. }
  rewrite not_elem_of_app in Hnew. destruct Hnew as [Hnostart Hnoexec].
  split; unfold busy, executed_of; simpl; autorewrite with runner; simpl;
    rewrite ?app_nil_r; try apply Hinv.
  - intros id' Hin. rewrite lookup_insert. case_decide; [done|].
    apply (inv_marks_registered s Hinv). set_solver.
  - intros id' Hb. rewrite lookup_insert. case_decide; [done|].
    by apply (inv_busy_registered s Hinv).
  - intros id'. rewrite !lookup_insert. case_decide; [done|].
    apply (inv_unregistered_signal s Hinv).
  - intros id'. rewrite lookup_insert. case_decide as Heq.
    + subst id'. simpl. split; [|by destruct a].
      rewrite elem_of_app. by intros [|].
    + apply (inv_executed s Hinv).
  - apply NoDup_app. split; [apply (inv_marks_once s Hinv)|].
    split; [set_solver | apply NoDup_singleton].
  - by apply ordered_snoc_mark; [apply (inv_ordered s Hinv)|].
  - intros id' [Hin|Hin]%elem_of_app; [by apply (inv_marks_fresh s Hinv)|].
    set_solver.
  - intros id' r. rewrite lookup_insert. case_decide as Heq.
    + subst id'. intros [= <-] _. split; [set_solver | by destruct a].
    + unfold is_aborted; simpl; rewrite lookup_insert_ne by done;
      fold (is_aborted id' s). intros Hr' Hna.
      rewrite (inv_pending s Hinv id' r Hr' Hna). set_solver.
  - intros id' r. rewrite lookup_insert. case_decide as Heq.
    + subst id'. intros [= <-] _. split; [by destruct a; intros [|] | by intros []].
    + unfold is_aborted; simpl; rewrite lookup_insert_ne by done;
      fold (is_aborted id' s). intros Hr' Hna.
      exact (inv_terminal s Hinv id' r Hr' Hna).
  - intros id' r. rewrite lookup_insert. case_decide as Heq.
    + subst id'. intros [= <-] _. by destruct a.
    + unfold is_aborted; simpl; rewrite lookup_insert_ne by done;
      fold (is_aborted id' s). intros Hr' Hna.
      exact (inv_not_aborted s Hinv id' r Hr' Hna).
Qed.

Lemma status_spread r a : status (set_executed (spread r a)) = status r.
Proof. by destruct a. Qed.

Lemma invariant_runAction id a s s' :
  invariant s -> runAction id a s = Some s' -> invariant s'.
Proof.
  intros Hinv. unfold runAction. destruct (actions s !! id) as [r|] eqn:Hr; [|done].
  destruct (executed r) eqn:Hex; intros [= <-]; [done|].
  assert (Hnew : id ∉ started (trace s) ++ execs (chain s)).
  { rewrite (inv_executed s Hinv id). unfold executed_of. rewrite Hr. simpl. by rewrite Hex. }
  split; unfold busy; simpl; autorewrite with runner; simpl; try apply Hinv.
  - intros id' Hin. apply updateAction_dom. rewrite app_nil_r in Hin.
    by apply (inv_marks_registered s Hinv).
  - intros id' Hb. apply updateAction_dom. by apply (inv_busy_registered s Hinv).
  - intros id' Hnone. apply updateAction_none in Hnone.
    by apply (inv_unregistered_signal s Hinv).
  - rewrite app_assoc. apply NoDup_app. split; [apply (inv_once s Hinv)|].
    split; [set_solver | apply NoDup_singleton].
  - intros id'. unfold executed_of. simpl.
    rewrite lookup_updateAction, app_assoc, elem_of_app.
    rewrite (inv_executed s Hinv id'). unfold executed_of. case_decide as Heq.
    + subst id'. rewrite Hr. simpl. rewrite Hex. set_solver.
    + set_solver.
  - rewrite app_nil_r. apply (inv_marks_once s Hinv).
  - apply ordered_snoc_exec, (inv_ordered s Hinv).
  - intros id'. rewrite app_nil_r. apply (inv_marks_fresh s Hinv).
  - intros id' r'. autorewrite with runner. simpl. rewrite app_nil_r. case_decide as Heq.
    + subst id'. rewrite Hr. simpl. intros [= <-] Hna. rewrite status_spread.
      exact (inv_pending s Hinv id r Hr Hna).
    + apply (inv_pending s Hinv).
  - intros id' r'. autorewrite with runner. simpl. case_decide as Heq.
    + subst id'. rewrite Hr. simpl. intros [= <-] Hna. rewrite status_spread.
      exact (inv_terminal s Hinv id r Hr Hna).
    + apply (inv_terminal s Hinv).
  - intros id' r'. autorewrite with runner. simpl. case_decide as Heq.
    + subst id'. rewrite Hr. simpl. intros [= <-] Hna. rewrite status_spread.
      exact (inv_not_aborted s Hinv id r Hr Hna).
    + apply (inv_not_aborted s Hinv).
Qed.

Lemma invariant_abort id s : invariant s -> invariant (abort id s).
Proof.
  intros Hinv. unfold abort. destruct (actions s !! id) as [r|] eqn:Hr; [|done].
  cbv zeta.
  assert (exists s0, invariant s0 ∧ actions s0 = actions s ∧ signals s0 = signals s ∧
            (if listens id s && negb (is_aborted id s)
             then observe (Killed id) s else s) = s0) as (s0 & Hinv0 & Ha0 & Hs0 & ->).
  { destruct (listens _ s && negb _).
    - exists (observe (Killed id) s). split; [by apply invariant_observe | done].
    - by exists s. }
  clear Hinv.
  assert (Hab : forall id', id ≠ id' ->
            is_aborted id' (with_signals <[id := true]> s0) = is_aborted id' s0).
  { intros id' Hne. unfold is_aborted. simpl. by rewrite lookup_insert_ne. }
  assert (Habid : is_aborted id (with_signals <[id := true]> s0) = true).
  { unfold is_aborted. simpl. by rewrite lookup_insert_eq. }
  split; unfold busy; simpl; autorewrite with runner; simpl; try apply Hinv0.
  - intros id' Hin. apply updateAction_dom. by apply (inv_marks_registered s0 Hinv0).
  - intros id' Hb. apply updateAction_dom. by apply (inv_busy_registered s0 Hinv0).
  - intros id' Hnone. apply updateAction_none in Hnone. simpl in Hnone.
    rewrite lookup_insert. case_decide; [congruence|].
    by apply (inv_unregistered_signal s0 Hinv0).
  - intros id'. rewrite executed_of_updateAction by done. apply (inv_executed s0 Hinv0).
  - intros id' r'. autorewrite with runner. simpl. case_decide as Heq.
    + subst id'. rewrite Habid. by intros _ [=].
    + rewrite Hab by done. apply (inv_pending s0 Hinv0).
  - intros id' r'. autorewrite with runner. simpl. case_decide as Heq.
    + subst id'. rewrite Habid. by intros _ [=].
    + rewrite Hab by done. apply (inv_terminal s0 Hinv0).
  - intros id' r'. autorewrite with runner. simpl. case_decide as Heq.
    + subst id'. rewrite Habid. by intros _ [=].
    + rewrite Hab by done. apply (inv_not_aborted s0 Hinv0).
Qed.

Lemma invariant_proceed p : forall n id heard c s,
  bounded n p -> run_id c = id ->
  invariant (with_current (Some c) s) -> invariant (proceed id heard p s).
Proof.
  induction p as [a|e|o k IH|k IH|c' k IH]; intros n id heard c s Hbd Hc Hinv; simpl.
  - apply (invariant_settle id None (with_current (Some c) s)); [|done].
    unfold busy. simpl. by rewrite Hc.
  - apply (invariant_settle id (Some e) (with_current (Some c) s)); [|done].
    unfold busy. simpl. by rewrite Hc.
  - apply (IH n id _ c); [done..|].
    by apply (invariant_observe (Did o) (with_current (Some c) s)).
  - by apply (IH (time s) n id heard c).
  - destruct n as [|n]; [done|].
    apply (invariant_suspend c (mkSuspended id c' k heard) (observe (Called c') s));
      [done | by exists n |].
    by apply (invariant_observe (Called c') (with_current (Some c) s)).
Qed.

(** No handler awaits more than nine promises. *)
Section HandlerBound.
Context {node_path : NodePath}.

Lemma bounded_handler action : bounded 9 (handler action).
Proof.
  unfold handler, runShellAction, runFileAction, runContractAction,
    write_artifacts, write_error_report, when, effect, clock, await.
  destruct (type action); simpl;
    repeat (match goal with
            | |- forall _, _ => intros
            | r : Outcome _ |- _ => destruct r
            | |- context [match ?x with _ => _ end] => destruct x
            end; simpl); done.
Qed.

Lemma invariant_executeAction id rest s :
  current s = None -> chain s = Execute id :: rest -> invariant s ->
  invariant (executeAction id (with_chain rest s)).
Proof.
  intros Hidle Hchain Hinv. unfold executeAction. simpl.
  destruct (actions s !! id) as [action|] eqn:Haction.
  - apply (invariant_proceed _ 9 id false
             (mkSuspended id CWebcontainer (fun _ => Return tt) false));
      [apply bounded_handler | done |].
    apply (invariant_begin id rest _ s); try done. by exists 0.
  - destruct (invariant_execs_registered s id Hinv) as [r Hr]; [|congruence].
    rewrite Hchain. simpl. set_solver.
Qed.

Lemma invariant_tick s : invariant s -> invariant (tick s).
Proof.
  intros Hinv. unfold tick. destruct (current s) eqn:Hcur; [done|].
  destruct (chain s) as [|[id|id] rest] eqn:Hchain; [done|..].
  - by apply invariant_mark.
  - by apply invariant_executeAction.
Qed.

Lemma invariant_resolve w s : invariant s -> invariant (resolve w s).
Proof.
  intros Hinv. unfold resolve. destruct (current s) as [c|] eqn:Hcur; [|done].
  destruct (inv_bounded s Hinv c Hcur) as [n Hn].
  apply (invariant_proceed _ n (run_id c) _ c); [done..|].
  apply (invariant_ext s); try done.
  - unfold busy. simpl. by rewrite Hcur.
  - intros c' [= <-]. by exists n.
Qed.

Lemma invariant_step s e : invariant s -> invariant (step s e).
Proof.
  intros Hinv. destruct e as [id a|id a|id| |w|t]; simpl.
  - by apply invariant_addAction.
  - destruct (runAction id a s) as [s'|] eqn:Hrun; [|done].
    by apply (invariant_runAction id a s).
  - by apply invariant_abort.
  - by apply invariant_tick.
  - by apply invariant_resolve.
  - by apply invariant_time.
Qed.

Lemma invariant_run es : forall s, invariant s -> invariant (run es s).
Proof.
  induction es as [|e es IH]; intros s Hinv; [done|].
  apply IH. by apply invariant_step.
Qed.

Lemma invariant_after es : invariant (after es).
Proof. apply invariant_run, invariant_new_runner. Qed.

End HandlerBound.

(** ** The order of execution *)

Lemma started_proceed p : forall id heard s,
  started (trace (proceed id heard p s)) = started (trace s).
Proof.
  induction p as [a|e|o k IH|k IH|c k IH]; intros id heard s; cbn [proceed].
  - by destruct (settle_spec id None (with_current None s)) as (_ & _ & _ & _ & -> & _).
  - by destruct (settle_spec id (Some e) (with_current None s)) as (_ & _ & _ & _ & -> & _).
  - rewrite IH. simpl. by rewrite started_app, app_nil_r.
  - apply IH.
  - simpl. by rewrite started_app, app_nil_r.
Qed.

Lemma intervals_one_by_one t : forall cur,
  lane_after cur t = Some None ->
  from_option (fun id => [Began id]) [] cur ++ intervals t
  = one_by_one (from_option (fun id => [id]) [] cur ++ started t).
Proof.
  induction t as [|o t IH]; intros cur Hlane.
  - injection Hlane as ->. done.
  - destruct o as [id|id|c|o|id|e]; simpl in *;
      try (destruct cur as [id'|]; apply (IH _ Hlane)).
    + destruct cur as [id'|]; [done|]. apply (IH (Some id) Hlane).
    + destruct cur as [id'|]; [|done]. case_decide; [subst id'|done].
      simpl. f_equal. f_equal. apply (IH None Hlane).
Qed.

Lemma ended_before_idle t : forall id, lane_after (Some id) t = Some None -> Ended id ∈ t.
Proof.
  induction t as [|o t IH]; intros id Hlane; [done|].
  destruct o as [id'|id'|c|o|id'|e]; simpl in *; try (right; by apply IH).
  case_decide; [subst id'; left | done].
Qed.

(** In a trace with well-formed intervals, a handler has ended before the
    next one begins. *)
Lemma lane_after_exclusive t1 a t2 b t3 cur cur' :
  lane_after cur (t1 ++ Began a :: t2 ++ Began b :: t3) = Some cur' -> Ended a ∈ t2.
Proof.
  rewrite lane_after_app. destruct (lane_after cur t1) as [[id|]|]; simpl; try done.
  rewrite lane_after_app. destruct (lane_after (Some a) t2) as [[id|]|] eqn:Ht2; try done.
  intros _. by apply ended_before_idle.
Qed.

Section Order.
Context {node_path : NodePath}.

Lemma finalized_app es1 : forall es2 s,
  finalized (es1 ++ es2) s = finalized es1 s ++ finalized es2 (run es1 s).
Proof.
  induction es1 as [|e es1 IH]; intros es2 s; [done|].
  simpl. by rewrite IH, app_assoc.
Qed.

Lemma run_app es1 es2 s : run (es1 ++ es2) s = run es2 (run es1 s).
Proof. apply foldl_app. Qed.

Lemma started_step s e :
  invariant s ->
  started (trace (step s e)) ++ execs (chain (step s e))
  = (started (trace s) ++ execs (chain s)) ++ finalized [e] s.
Proof.
  intros Hinv. destruct e as [id a|id a|id| |w|t]; simpl; rewrite ?app_nil_r; try done.
  - unfold addAction. destruct (actions s !! id); [done|]. simpl.
    by rewrite execs_app, app_nil_r.
  - unfold runAction, executed_of. destruct (actions s !! id) as [r|]; simpl;
      [|by rewrite app_nil_r].
    destruct (executed r); simpl; [by rewrite app_nil_r|].
    autorewrite with runner. simpl. by rewrite app_assoc.
  - unfold abort. destruct (actions s !! id); [|done]. cbv zeta.
    autorewrite with runner. simpl.
    destruct (listens _ s && negb _); simpl;
      [by rewrite started_app, app_nil_r | done].
  - unfold tick. destruct (current s); [done|].
    destruct (chain s) as [|[id|id] rest] eqn:Hchain; [by rewrite Hchain|..].
    + by autorewrite with runner.
    + unfold executeAction. simpl.
      destruct (invariant_execs_registered s id Hinv) as [r Hr].
      { rewrite Hchain. simpl. set_solver. }
      rewrite Hr, started_proceed, chain_proceed. simpl. autorewrite with runner.
      simpl. by rewrite <- app_assoc.
  - unfold resolve. destruct (current s); [|done].
    by rewrite started_proceed, chain_proceed.
Qed.

Lemma started_run es : forall s,
  invariant s ->
  started (trace (run es s)) ++ execs (chain (run es s))
  = (started (trace s) ++ execs (chain s)) ++ finalized es s.
Proof.
  induction es as [|e es IH]; intros s Hinv; simpl; [by rewrite app_nil_r|].
  rewrite IH by by apply invariant_step.
  rewrite started_step by done. simpl. by rewrite app_nil_r, app_assoc.
Qed.

End Order.

(** ** The lane drains *)

Lemma proceed_progress p : forall n id heard s,
  bounded n p ->
  current (proceed id heard p s) = None ∨
  exists c m, current (proceed id heard p s) = Some c ∧ n = S m ∧
              forall r, bounded m (resume c r).
Proof.
  induction p as [a|e|o k IH|k IH|c k IH]; intros n id heard s Hbd; cbn [proceed].
  - left. by destruct (settle_spec id None (with_current None s)) as (_ & _ & -> & _).
  - left. by destruct (settle_spec id (Some e) (with_current None s)) as (_ & _ & -> & _).
  - by apply IH.
  - by apply IH.
  - right. destruct n as [|m]; [done|]. by exists (mkSuspended id c k heard), m.
Qed.

Section Drain.
Context {node_path : NodePath}.

Lemma turns_app w es1 es2 : turns w es1 -> turns w es2 -> turns w (es1 ++ es2).
Proof. apply Forall_app_2. Qed.

Lemma drain_busy w n : forall s c,
  current s = Some c -> (forall r, bounded n (resume c r)) ->
  exists k es,
    (forall fuel, drain w (k + fuel) s = drain w fuel (run es s)) ∧
    turns w es ∧ current (run es s) = None ∧ chain (run es s) = chain s.
Proof.
  induction n as [|n IH]; intros s c Hcur Hbd.
  - exists 1, [Resolve w]. simpl. rewrite Hcur.
    unfold resolve. rewrite Hcur.
    destruct (proceed_progress _ 0 (run_id c) (listening c) s (Hbd (w (awaiting c))))
      as [Hidle|(c' & m & _ & [=] & _)].
    repeat split; [by repeat constructor | done | by rewrite chain_proceed].
  - pose proof (proceed_progress _ (S n) (run_id c) (listening c) s (Hbd (w (awaiting c))))
      as [Hidle|(c' & m & Hcur' & [= <-] & Hbd')].
    + exists 1, [Resolve w]. simpl. rewrite Hcur. unfold resolve. rewrite Hcur.
      repeat split; [by repeat constructor | done | by rewrite chain_proceed].
    + destruct (IH (resolve w s) c') as (k & es & Hdrain & Hturns & Hidle & Hchain).
      { unfold resolve. by rewrite Hcur. }
      { done. }
      exists (S k), (Resolve w :: es). simpl. rewrite Hcur. repeat split; try done.
      * by constructor; [right|].
      * rewrite Hchain. unfold resolve. rewrite Hcur. by rewrite chain_proceed.
Qed.

Lemma drain_idle w : forall q s,
  invariant s -> current s = None -> chain s = q ->
  exists k es,
    (forall fuel, drain w (k + fuel) s = run es s) ∧
    turns w es ∧ current (run es s) = None ∧ chain (run es s) = [].
Proof.
  induction q as [|r rest IH]; intros s Hinv Hcur Hchain.
  - exists 0, []. repeat split; try done; [|constructor].
    intros [|fuel]; simpl; [done|]. by rewrite Hcur, Hchain.
  - assert (Hrest : chain (tick s) = rest).
    { unfold tick. rewrite Hcur, Hchain. destruct r as [id|id].
      - by autorewrite with runner.
      - unfold executeAction. destruct (actions (with_chain rest s) !! id); [|done].
        rewrite chain_proceed. simpl. by rewrite chain_updateAction. }
    pose proof (invariant_tick s Hinv) as Hinv'.
    destruct (current (tick s)) as [c|] eqn:Hcur'.
    + destruct (inv_bounded _ Hinv' c Hcur') as [n Hn].
      destruct (drain_busy w n (tick s) c Hcur' Hn) as (k1 & es1 & Hd1 & Ht1 & Hi1 & Hc1).
      destruct (IH (run es1 (tick s))) as (k2 & es2 & Hd2 & Ht2 & Hi2 & Hc2).
      { by apply invariant_run. }
      { done. }
      { by rewrite Hc1. }
      exists (S (k1 + k2)), (Tick :: es1 ++ es2). simpl. rewrite Hcur, Hchain.
      repeat split.
      * intros fuel. rewrite <- Nat.add_assoc, Hd1, Hd2. by rewrite run_app.
      * constructor; [by left|]. by apply turns_app.
      * by rewrite run_app.
      * by rewrite run_app.
    + destruct (IH (tick s) Hinv' Hcur' Hrest) as (k2 & es2 & Hd2 & Ht2 & Hi2 & Hc2).
      exists (S k2), (Tick :: es2). simpl. rewrite Hcur, Hchain.
      repeat split; try done. constructor; [by left | done].
Qed.

(** With an environment that settles every promise, the event loop comes
    to rest: nothing pending, nothing waiting on the chain. *)
Lemma drain_quiesces w s :
  invariant s ->
  exists n es,
    (forall fuel, n <= fuel -> drain w fuel s = run es s) ∧
    turns w es ∧ current (run es s) = None ∧ chain (run es s) = [].
Proof.
  intros Hinv.
  assert (exists k es, (forall fuel, drain w (k + fuel) s = run es s) ∧
            turns w es ∧ current (run es s) = None ∧ chain (run es s) = [])
    as (k & es & Hd & Ht & Hi & Hc).
  { destruct (current s) as [c|] eqn:Hcur.
    - destruct (inv_bounded s Hinv c Hcur) as [n Hn].
      destruct (drain_busy w n s c Hcur Hn) as (k1 & es1 & Hd1 & Ht1 & Hi1 & Hc1).
      destruct (drain_idle w (chain (run es1 s)) (run es1 s))
        as (k2 & es2 & Hd2 & Ht2 & Hi2 & Hc2); [by apply invariant_run | done..|].
      exists (k1 + k2), (es1 ++ es2). rewrite run_app. repeat split; try done.
      + intros fuel. by rewrite <- Nat.add_assoc, Hd1, Hd2.
      + by apply turns_app.
    - by apply (drain_idle w (chain s)). }
  exists k, es. repeat split; try done.
  intros fuel Hfuel. replace fuel with (k + (fuel - k)) by lia. apply Hd.
Qed.

Lemma finalized_turns w es : forall s, turns w es -> finalized es s = [].
Proof.
  induction es as [|e es IH]; intros s Hturns; [done|].
  apply Forall_cons in Hturns as [[->| ->] Hturns]; simpl; by apply IH.
Qed.

(** Every finalized action is executed: at rest, the handlers that were
    started are the finalized actions, in finalize order, one by one. *)
Lemma drain_executes_all w es :
  exists n, forall fuel, n <= fuel ->
    let s := drain w fuel (after es) in
    current s = None ∧ chain s = [] ∧
    started (trace s) = finalized es new_runner ∧
    intervals (trace s) = one_by_one (finalized es new_runner).
Proof.
  destruct (drain_quiesces w (after es) (invariant_after es))
    as (n & es' & Hd & Ht & Hi & Hc).
  exists n. intros fuel Hfuel. simpl. rewrite (Hd fuel Hfuel).
  assert (Hinv : invariant (run es' (after es))) by apply invariant_run, invariant_after.
  assert (Hstarted : started (trace (run es' (after es))) = finalized es new_runner).
  { pose proof (started_run (es ++ es') new_runner invariant_new_runner) as H.
    unfold after in *. rewrite run_app, finalized_app, (finalized_turns w es' _ Ht), Hc in H.
    simpl in H. by rewrite !app_nil_r in H. }
  repeat split; try done.
  pose proof (inv_lane _ Hinv) as Hlane. unfold busy in Hlane. rewrite Hi in Hlane.
  rewrite <- Hstarted. apply (intervals_one_by_one _ None Hlane).
Qed.

End Drain.

(** ** What an event may change *)

Lemma proceed_actions p : forall id heard s id',
  exists u, (forall r, executed (u r) = executed r) ∧
            actions (proceed id heard p s) !! id' = u <$> actions s !! id'.
Proof.
  induction p as [a|e|o k IH|k IH|c k IH]; intros id heard s id'; cbn [proceed].
  - destruct (settle_spec id None (with_current None s)) as (_ & _ & _ & _ & _ & _ & ->).
    case_decide; [|exists (fun r => r); by rewrite option_fmap_id].
    by exists (last_update (is_aborted id (with_current None s)) None).
  - destruct (settle_spec id (Some e) (with_current None s)) as (_ & _ & _ & _ & _ & _ & ->).
    case_decide; [|exists (fun r => r); by rewrite option_fmap_id].
    by exists (last_update (is_aborted id (with_current None s)) (Some e)).
  - apply (IH id _ (observe (Did o) s)).
  - apply IH.
  - exists (fun r => r). by rewrite option_fmap_id.
Qed.

Lemma executed_of_proceed p id heard s id' :
  executed_of id' (proceed id heard p s) = executed_of id' s.
Proof.
  unfold executed_of. destruct (proceed_actions p id heard s id') as (u & Hu & ->).
  destruct (actions s !! id'); simpl; [by rewrite Hu | done].
Qed.

Lemma registered_proceed p id heard s id' :
  is_Some (actions (proceed id heard p s) !! id') <-> is_Some (actions s !! id').
Proof.
  destruct (proceed_actions p id heard s id') as (u & Hu & ->). by rewrite fmap_is_Some.
Qed.

Lemma trace_proceed p : forall id heard s, trace s `prefix_of` trace (proceed id heard p s).
Proof.
  induction p as [a|e|o k IH|k IH|c k IH]; intros id heard s; simpl.
  - autorewrite with runner. by apply prefix_app_r.
  - autorewrite with runner. simpl. rewrite <- app_assoc. by apply prefix_app_r.
  - etrans; [|apply IH]. simpl. by apply prefix_app_r.
  - apply IH.
  - by apply prefix_app_r.
Qed.

Section Frames.
Context {node_path : NodePath}.

Lemma registered_step s e id :
  is_Some (actions s !! id) -> is_Some (actions (step s e) !! id).
Proof.
  intros Hreg. destruct e as [id' a|id' a|id'| |w|t]; simpl; try done.
  - unfold addAction. destruct (actions s !! id') eqn:Hid'; [done|]. simpl.
    rewrite lookup_insert. by case_decide.
  - unfold runAction. destruct (actions s !! id') as [r|]; [|done].
    destruct (executed r); [done|]. simpl. by apply updateAction_dom.
  - unfold abort. destruct (actions s !! id'); [|done]. cbv zeta.
    apply updateAction_dom. simpl.
    by destruct (listens _ s && negb _).
  - unfold tick. destruct (current s); [done|].
    destruct (chain s) as [|[id'|id'] rest]; [done|..].
    + by apply updateAction_dom.
    + unfold executeAction. destruct (actions (with_chain rest s) !! id'); [|done].
      apply registered_proceed. simpl. by apply updateAction_dom.
  - unfold resolve. destruct (current s); [|done]. by apply registered_proceed.
Qed.

Lemma registered_run es : forall s id,
  is_Some (actions s !! id) -> is_Some (actions (run es s) !! id).
Proof.
  induction es as [|e es IH]; intros s id Hreg; [done|].
  by apply IH, registered_step.
Qed.

Lemma trace_step s e : trace s `prefix_of` trace (step s e).
Proof.
  destruct e as [id' a|id' a|id'| |w|t]; simpl; try done.
  - unfold addAction. by destruct (actions s !! id').
  - unfold runAction. destruct (actions s !! id') as [r|]; [|done].
    destruct (executed r); [done|]. simpl. by rewrite trace_updateAction.
  - unfold abort. destruct (actions s !! id'); [|done]. cbv zeta.
    rewrite trace_updateAction. simpl.
    destruct (listens _ s && negb _); [|done].
    by apply prefix_app_r.
  - unfold tick. destruct (current s); [done|].
    destruct (chain s) as [|[id'|id'] rest]; [done|..].
    + by rewrite trace_updateAction.
    + unfold executeAction. destruct (actions (with_chain rest s) !! id'); [|done].
      etrans; [|apply trace_proceed]. simpl. rewrite trace_updateAction.
      by apply prefix_app_r.
  - unfold resolve. destruct (current s); [|done]. apply trace_proceed.
Qed.

Lemma trace_run es : forall s, trace s `prefix_of` trace (run es s).
Proof.
  induction es as [|e es IH]; intros s; [done|].
  etrans; [apply (trace_step s e) | apply IH].
Qed.

Lemma observed_run o es s : o ∈ trace s -> o ∈ trace (run es s).
Proof.
  intros Hin. destruct (trace_run es s) as [t ->]. set_solver.
Qed.

(** The pending handler only moves when the promise it awaits settles. *)
Lemma current_unsettled es : forall s c,
  unsettled es = true -> current s = Some c -> current (run es s) = Some c.
Proof.
  induction es as [|e es IH]; intros s c Hes Hcur; [done|].
  simpl in Hes. apply andb_prop in Hes as [He Hes]. apply IH; [done|].
  destruct e as [id' a|id' a|id'| |w|t]; simpl; try done.
  - unfold addAction. by destruct (actions s !! id').
  - unfold runAction. destruct (actions s !! id') as [r|]; [|done].
    destruct (executed r); [done|]. simpl. by rewrite current_updateAction.
  - unfold abort. destruct (actions s !! id'); [|done]. cbv zeta.
    rewrite current_updateAction. simpl.
    by destruct (_ && _).
  - unfold tick. by rewrite Hcur.
Qed.

Lemma executed_of_step s e id :
  executed_of id (step s e) = Some true ->
  executed_of id s = Some true ∨ exists a, e = RunAction id a.
Proof.
  destruct e as [id' a|id' a|id'| |w|t]; simpl; auto.
  - unfold addAction. destruct (actions s !! id') eqn:Hid'; [auto|].
    unfold executed_of. simpl. rewrite lookup_insert. case_decide; [|auto].
    by destruct a.
  - unfold runAction. destruct (actions s !! id') as [r|]; [|auto].
    destruct (executed r); [auto|]. simpl. unfold executed_of. simpl.
    rewrite lookup_updateAction. case_decide; [subst; eauto | auto].
  - unfold abort. destruct (actions s !! id'); [|auto]. cbv zeta.
    rewrite executed_of_updateAction by done.
    destruct (listens _ s && negb _); auto.
  - unfold tick. destruct (current s); [auto|].
    destruct (chain s) as [|[id'|id'] rest]; [auto|..].
    + rewrite executed_of_updateAction by done. auto.
    + unfold executeAction. destruct (actions (with_chain rest s) !! id'); [|auto].
      rewrite executed_of_proceed. autorewrite with runner.
      rewrite executed_of_updateAction by done. auto.
  - unfold resolve. destruct (current s); [|auto]. rewrite executed_of_proceed. auto.
Qed.

Lemma executed_of_step_mono s e id :
  executed_of id s = Some true -> executed_of id (step s e) = Some true.
Proof.
  intros Hex. destruct e as [id' a|id' a|id'| |w|t]; simpl; auto.
  - unfold addAction. destruct (actions s !! id') eqn:Hid'; [auto|].
    unfold executed_of in *. simpl. rewrite lookup_insert. case_decide; [|auto].
    subst id'. by rewrite Hid' in Hex.
  - unfold runAction. destruct (actions s !! id') as [r|] eqn:Hr; [|auto].
    destruct (executed r) eqn:Hexr; [auto|]. simpl. unfold executed_of in *. simpl.
    rewrite lookup_updateAction. case_decide; [|auto]. subst id'. by rewrite Hr.
  - unfold abort. destruct (actions s !! id'); [|auto]. cbv zeta.
    rewrite executed_of_updateAction by done.
    by destruct (listens _ s && negb _).
  - unfold tick. destruct (current s); [auto|].
    destruct (chain s) as [|[id'|id'] rest]; [auto|..].
    + by rewrite executed_of_updateAction.
    + unfold executeAction. destruct (actions (with_chain rest s) !! id'); [|auto].
      rewrite executed_of_proceed. autorewrite with runner.
      by rewrite executed_of_updateAction.
  - unfold resolve. destruct (current s); [|auto]. by rewrite executed_of_proceed.
Qed.

Lemma executed_of_run_mono es : forall s id,
  executed_of id s = Some true -> executed_of id (run es s) = Some true.
Proof.
  induction es as [|e es IH]; intros s id Hex; [done|].
  by apply IH, executed_of_step_mono.
Qed.

End Frames.

(** ** The finalize order of a well-formed stream of events *)

Section FinalizeOrder.
Context {node_path : NodePath}.

Lemma registered_addAction id a s : is_Some (actions (addAction id a s) !! id).
Proof.
  unfold addAction. destruct (actions s !! id) eqn:Hid; [by rewrite Hid|].
  simpl. by rewrite lookup_insert_eq.
Qed.

Lemma finalized_calls es : forall seen s,
  NoDup (finalize_calls es) ->
  (forall id, id ∈ finalize_calls es -> executed_of id s ≠ Some true) ->
  (forall id, id ∈ seen -> is_Some (actions s !! id)) ->
  registered_first seen es = true ->
  finalized es s = finalize_calls es.
Proof.
  induction es as [|e es IH]; intros seen s Hnodup Hfresh Hseen Hreg; [done|].
  assert (Hseen' : forall id, id ∈ seen -> is_Some (actions (step s e) !! id)).
  { intros id Hid. by apply registered_step, Hseen. }
  assert (Hstep : forall id, (forall a, e ≠ RunAction id a) ->
            executed_of id s ≠ Some true -> executed_of id (step s e) ≠ Some true).
  { intros id Hne Hex Hex'. destruct (executed_of_step s e id Hex') as [?|[a ->]]; [done|].
    by destruct (Hne a). }
  destruct e as [id a|id a|id| |w|t]; simpl in *;
    try (apply (IH seen); [done | intros id' Hin; apply Hstep; [done | by apply Hfresh]
                          | done | done]).
  - apply (IH (id :: seen)); [done | | | done].
    + intros id' Hin. apply Hstep; [done | by apply Hfresh].
    + intros id' [->|Hin]%elem_of_cons; [apply registered_addAction | by apply Hseen'].
  - apply andb_prop in Hreg as [Hid Hreg]. apply bool_decide_eq_true_1 in Hid.
    apply NoDup_cons in Hnodup as [Hnotin Hnodup].
    destruct (Hseen id Hid) as [r Hr].
    assert (Hex : executed_of id s = Some false).
    { pose proof (Hfresh id ltac:(left)) as Hne. unfold executed_of in *. rewrite Hr in *.
      simpl in *. by destruct (executed r). }
    rewrite Hex. simpl. f_equal. apply (IH seen); [done | | done | done].
    intros id' Hin. apply Hstep; [|apply Hfresh; by right].
    intros a0 [= <- _]. done.
Qed.

(** When every action is registered before it is finalized, and no action
    is finalized twice, the finalize order is the order of the [runAction]
    calls. *)
Lemma finalized_registered_first es :
  registered_first [] es = true -> NoDup (finalize_calls es) ->
  finalized es new_runner = finalize_calls es.
Proof.
  intros Hreg Hnodup. apply (finalized_calls es []); [done | | | done].
  - intros id _. unfold executed_of. simpl. by rewrite lookup_empty.
  - intros id Hin. by apply elem_of_nil in Hin.
Qed.

End FinalizeOrder.

(** ** C1: one handler at a time, in finalize order *)

Section OneLane.
Context {node_path : NodePath}.

(** C1.  For every stream of events [es] in which each action is registered
    before it is finalized and no action is finalized twice, with the
    [runAction] calls in the order [a1..aN] (and whatever else happens in
    between): the handlers that the runner has started, followed by the
    executions still waiting on the promise chain, are [a1..aN] in that order;
    a handler begins only after the handler before it has ended; and when
    every awaited promise settles, the handlers of [a1..aN] all run, one by
    one, in that order. *)
Theorem handlers_run_in_finalize_order (es : list Event)
    (Hregistered : registered_first [] es = true)
    (Honce : NoDup (finalize_calls es)) :
  let s := after es in
  started (trace s) ++ execs (chain s) = finalize_calls es ∧
  (forall t1 a t2 b t3, trace s = t1 ++ Began a :: t2 ++ Began b :: t3 -> Ended a ∈ t2) ∧
  (forall w, exists n, forall fuel, n <= fuel ->
     intervals (trace (drain w fuel s)) = one_by_one (finalize_calls es)).
Proof.
  simpl. rewrite <- (finalized_registered_first es Hregistered Honce). repeat split.
  - pose proof (started_run es new_runner invariant_new_runner) as H. by simpl in H.
  - intros t1 a t2 b t3 Htrace. pose proof (inv_lane _ (invariant_after es)) as Hlane.
    rewrite Htrace in Hlane. by apply lane_after_exclusive in Hlane.
  - intros w. destruct (drain_executes_all w es) as [n Hn].
    exists n. intros fuel Hfuel. by apply Hn.
Qed.

End OneLane.

(** ** How a status changes *)

Lemma status_of_settle id res s :
  status_of id (settle id res s) =
  (fun _ => match res with
            | None => if is_aborted id s then aborted else complete
            | Some _ => failed
            end) <$> status_of id s.
Proof.
  unfold status_of. destruct (settle_spec id res s) as (_ & _ & _ & _ & _ & _ & ->).
  rewrite decide_True by done. destruct (actions s !! id); [|done]. by destruct res.
Qed.

Lemma error_of_settle id e s :
  is_Some (actions s !! id) -> error_of id (settle id (Some e) s) = Some "Action failed".
Proof.
  intros [r Hr]. unfold error_of.
  destruct (settle_spec id (Some e) s) as (_ & _ & _ & _ & _ & _ & ->).
  rewrite decide_True by done. by rewrite Hr.
Qed.

Lemma status_of_proceed p : forall id heard s,
  is_aborted id s = false -> status_of id s = Some running ->
  forward (Some running) (status_of id (proceed id heard p s)).
Proof.
  induction p as [a|e|o k IH|k IH|c k IH]; intros id heard s Hna Hst; cbn [proceed].
  - rewrite status_of_settle. autorewrite with runner. rewrite Hst, Hna. constructor.
  - rewrite status_of_settle. autorewrite with runner. rewrite Hst. constructor.
  - by apply IH.
  - by apply IH.
  - autorewrite with runner. rewrite Hst. constructor.
Qed.

Lemma status_of_proceed_ne p id heard s id' :
  id ≠ id' -> status_of id' (proceed id heard p s) = status_of id' s.
Proof. intros Hne. unfold status_of. by rewrite lookup_proceed_ne. Qed.

Section Status.
Context {node_path : NodePath}.

Lemma is_aborted_step s e id :
  is_aborted id (step s e) = true -> is_aborted id s = true ∨ e = Abort id.
Proof.
  destruct e as [id' a|id' a|id'| |w|t]; simpl; auto.
  - unfold addAction. destruct (actions s !! id'); [auto|].
    unfold is_aborted. simpl. rewrite lookup_insert. case_decide; [done | auto].
  - unfold runAction. destruct (actions s !! id') as [r|]; [|auto].
    destruct (executed r); [auto|]. simpl. autorewrite with runner. auto.
  - unfold abort. destruct (actions s !! id'); [|auto]. cbv zeta.
    autorewrite with runner. unfold is_aborted. simpl. rewrite lookup_insert.
    case_decide; [subst; auto|].
    destruct (listens _ s && negb _); auto.
  - unfold tick. destruct (current s); [auto|].
    destruct (chain s) as [|[id'|id'] rest]; [auto|..].
    + autorewrite with runner. auto.
    + unfold executeAction. destruct (actions (with_chain rest s) !! id'); [|auto].
      unfold is_aborted. rewrite signals_proceed. simpl. rewrite signals_updateAction. auto.
  - unfold resolve. destruct (current s); [|auto].
    unfold is_aborted. rewrite signals_proceed. auto.
Qed.

Lemma is_aborted_step_mono s e id :
  invariant s -> is_aborted id s = true -> is_aborted id (step s e) = true.
Proof.
  intros Hinv Hab. destruct e as [id' a|id' a|id'| |w|t]; simpl; auto.
  - unfold addAction. destruct (actions s !! id') eqn:Hid'; [auto|].
    unfold is_aborted in *. simpl. rewrite lookup_insert. case_decide; [|done].
    subst id'. by rewrite (inv_unregistered_signal s Hinv id Hid') in Hab.
  - unfold runAction. destruct (actions s !! id') as [r|]; [|auto].
    destruct (executed r); [auto|]. simpl. by autorewrite with runner.
  - unfold abort. destruct (actions s !! id'); [|auto]. cbv zeta.
    autorewrite with runner. unfold is_aborted in *. simpl. rewrite lookup_insert.
    case_decide; [done|].
    by destruct (listens _ s && negb _).
  - unfold tick. destruct (current s); [auto|].
    destruct (chain s) as [|[id'|id'] rest]; [auto|..].
    + by autorewrite with runner.
    + unfold executeAction. destruct (actions (with_chain rest s) !! id'); [|auto].
      unfold is_aborted in *. rewrite signals_proceed. simpl. by rewrite signals_updateAction.
  - unfold resolve. destruct (current s); [|auto].
    unfold is_aborted in *. by rewrite signals_proceed.
Qed.

Lemma is_aborted_run_false es : forall s id,
  invariant s -> is_aborted id (run es s) = false -> is_aborted id s = false.
Proof.
  induction es as [|e es IH]; intros s id Hinv Hna; [done|].
  simpl in Hna. apply IH in Hna; [|by apply invariant_step].
  destruct (is_aborted id s) eqn:Hab; [|done].
  by rewrite (is_aborted_step_mono s e id Hinv Hab) in Hna.
Qed.

(** The status of a record whose [abort] was not invoked is read off the
    lane. *)
Lemma status_running s id r :
  invariant s -> actions s !! id = Some r -> is_aborted id s = false ->
  id ∉ marks (chain s) -> (id ∉ started (trace s) ∨ busy s = Some id) ->
  status r = running.
Proof.
  intros Hinv Hr Hna Hmark Hlane.
  pose proof (inv_pending s Hinv id r Hr Hna) as Hp.
  pose proof (inv_terminal s Hinv id r Hr Hna) as Ht.
  pose proof (inv_not_aborted s Hinv id r Hr Hna) as Ha.
  destruct (status r); try done.
  - destruct Hmark. by apply Hp.
  - destruct Ht as [[Hs Hb] _]; [by left|]. by destruct Hlane.
  - destruct Ht as [[Hs Hb] _]; [by right|]. by destruct Hlane.
Qed.

(** One event moves the status of a record forward, unless [abort] was
    invoked on the record. *)
Lemma status_step s e id :
  invariant s -> is_aborted id (step s e) = false ->
  forward (status_of id s) (status_of id (step s e)).
Proof.
  intros Hinv Hna'.
  assert (Hna : is_aborted id s = false).
  { destruct (is_aborted id s) eqn:Hab; [|done].
    by rewrite (is_aborted_step_mono s e id Hinv Hab) in Hna'. }
  destruct e as [id' a|id' a|id'| |w|t]; simpl in *; try constructor.
  - unfold addAction. destruct (actions s !! id') eqn:Hid'; [constructor|].
    unfold status_of. simpl. rewrite lookup_insert. case_decide; [|constructor].
    subst id'. rewrite Hid'. simpl. destruct a; constructor.
  - unfold runAction. destruct (actions s !! id') as [r|] eqn:Hr; [|constructor].
    destruct (executed r); [constructor|]. simpl. unfold status_of. simpl.
    rewrite lookup_updateAction. case_decide; [|constructor].
    subst id'. rewrite Hr. simpl. destruct a; constructor.
  - revert Hna'. unfold abort. destruct (actions s !! id') eqn:Hid'; [|constructor].
    cbv zeta. autorewrite with runner. rewrite status_of_updateAction.
    unfold is_aborted at 1. simpl. rewrite lookup_insert. case_decide; [done|].
    intros _. destruct (listens _ s && negb _); constructor.
  - unfold tick. destruct (current s) eqn:Hcur; [constructor|].
    assert (Hidle : busy s ≠ Some id) by (unfold busy; by rewrite Hcur).
    destruct (chain s) as [|[id'|id'] rest] eqn:Hchain; [constructor|..].
    + rewrite status_of_updateAction. case_decide; [|constructor]. subst id'.
      destruct (inv_marks_registered s Hinv id) as [r Hr]; [rewrite Hchain; by left|].
      simpl. unfold status_of. rewrite Hr. simpl.
      assert (status r = pending) as ->; [|constructor].
      apply (inv_pending s Hinv id r Hr Hna). rewrite Hchain. by left.
    + unfold executeAction. simpl.
      destruct (invariant_execs_registered s id' Hinv) as [r' Hr'];
        [rewrite Hchain; by left|].
      rewrite Hr'. destruct (decide (id' = id)) as [->|Hne].
      * pose proof (inv_ordered s Hinv) as Hord. pose proof (inv_once s Hinv) as Honce.
        rewrite Hchain in Hord, Honce. simpl in Hord, Honce. destruct Hord as [Hfresh _].
        apply NoDup_app in Honce as (_ & Hdisj & _).
        assert (status r' = running) as Hrun.
        { apply (status_running s id r' Hinv Hr' Hna); [by rewrite Hchain|].
          left. intros Hin. apply (Hdisj id Hin). by left. }
        unfold status_of at 1. rewrite Hr'. simpl. rewrite Hrun.
        apply status_of_proceed; [by autorewrite with runner|].
        autorewrite with runner. rewrite status_of_updateAction, decide_True by done.
        simpl. by rewrite Hr'.
      * rewrite status_of_proceed_ne by done. autorewrite with runner.
        rewrite status_of_updateAction, decide_False by done. constructor.
  - unfold resolve. destruct (current s) as [c|] eqn:Hcur; [|constructor].
    destruct (decide (run_id c = id)) as [<-|Hne].
    + assert (Hbusy : busy s = Some (run_id c)) by (unfold busy; by rewrite Hcur).
      destruct (inv_busy_registered s Hinv _ Hbusy) as [r Hr].
      assert (status r = running) as Hrun.
      { apply (status_running s (run_id c) r Hinv Hr Hna); [|by right].
        intros Hin. by apply (inv_marks_fresh s Hinv _ Hin), (inv_busy_started s Hinv). }
      unfold status_of at 1. rewrite Hr. simpl. rewrite Hrun.
      apply status_of_proceed; [done|]. unfold status_of. rewrite Hr. simpl. by rewrite Hrun.
    + rewrite status_of_proceed_ne by done. constructor.
Qed.

Lemma forward_terminal st x :
  forward (Some st) x -> st = complete ∨ st = aborted ∨ st = failed -> x = Some st.
Proof. intros Hf Hst. inversion Hf; subst; naive_solver. Qed.

Lemma rtc_forward_terminal x y st :
  rtc forward x y -> x = Some st -> terminal st -> y = Some st.
Proof.
  induction 1 as [x|x y z Hxy _ IH]; intros -> Hst; [done|].
  apply IH; [|done]. by apply forward_terminal.
Qed.

Lemma status_run es : forall s id,
  invariant s -> is_aborted id (run es s) = false ->
  rtc forward (status_of id s) (status_of id (run es s)).
Proof.
  induction es as [|e es IH]; intros s id Hinv Hna; [constructor|].
  simpl in *. eapply rtc_l; [|apply IH; [by apply invariant_step | done]].
  apply status_step; [done|].
  apply (is_aborted_run_false es); [by apply invariant_step | done].
Qed.

Lemma status_of_abort s id :
  is_Some (actions s !! id) -> status_of id (abort id s) = Some aborted.
Proof.
  intros [r Hr]. unfold abort. rewrite Hr. cbv zeta.
  rewrite status_of_updateAction, decide_True by done. simpl.
  destruct (listens _ s && negb _); simpl; by rewrite Hr.
Qed.

Lemma entries_bound es id : forall s,
  invariant s -> is_aborted id (run es s) = false ->
  entries id es s <=
  match status_of id s with
  | None | Some pending => 1
  | _ => 0
  end.
Proof.
  induction es as [|e es IH]; intros s Hinv Hna; simpl in *; [lia|].
  pose proof (IH (step s e) (invariant_step s e Hinv) Hna) as Hrest.
  pose proof (status_step s e id Hinv
                (is_aborted_run_false es _ id (invariant_step s e Hinv) Hna)) as Hfw.
  revert Hrest Hfw.
  destruct (status_of id s) as [[]|], (status_of id (step s e)) as [[]|];
    intros Hrest Hfw; inversion Hfw; case_bool_decide; try lia; naive_solver.
Qed.

Lemma executed_of_run_unfinalized es : forall s id,
  id ∉ finalize_calls es -> executed_of id s ≠ Some true ->
  executed_of id (run es s) ≠ Some true.
Proof.
  induction es as [|e es IH]; intros s id Hnot Hex; [done|].
  simpl. apply IH.
  - destruct e; simpl in Hnot; set_solver.
  - intros Hex'. destruct (executed_of_step s e id Hex') as [?|[a ->]]; [done|].
    simpl in Hnot. set_solver.
Qed.

Lemma is_aborted_run_unaborted es : forall s id,
  Forall (fun e => e ≠ Abort id) es -> is_aborted id s = false ->
  is_aborted id (run es s) = false.
Proof.
  induction es as [|e es IH]; intros s id Hes Hna; [done|].
  apply Forall_cons in Hes as [He Hes]. simpl. apply IH; [done|].
  destruct (is_aborted id (step s e)) eqn:Hab; [|done].
  destruct (is_aborted_step s e id Hab); congruence.
Qed.

Lemma leaves_unfinalized id es : leaves id es = true -> id ∉ finalize_calls es.
Proof.
  induction es as [|e es IH]; simpl; [set_solver|].
  intros [He Hes]%andb_prop. destruct e; try by apply IH.
  apply bool_decide_eq_true_1 in He. set_solver.
Qed.

Lemma leaves_unaborted id es : leaves id es = true -> Forall (fun e => e ≠ Abort id) es.
Proof.
  induction es as [|e es IH]; simpl; [constructor|].
  intros [He Hes]%andb_prop. constructor; [|by apply IH].
  destruct e; try done. apply bool_decide_eq_true_1 in He. congruence.
Qed.

Lemma turns_unfinalized w id es : turns w es -> id ∉ finalize_calls es.
Proof.
  induction 1 as [|e es [->| ->] _ IH]; simpl; [set_solver | done | done].
Qed.

Lemma turns_unaborted w id es : turns w es -> Forall (fun e => e ≠ Abort id) es.
Proof.
  induction 1 as [|e es [->| ->] _ IH]; constructor; done.
Qed.

End Status.

(** ** C2: an action is executed once *)

Section AtMostOnce.
Context {node_path : NodePath}.

(** C2.  Once the [executed] flag of a record is true, every later
    [runAction] for its identifier leaves the runner as it is, the flag stays
    true, and the handler of no identifier is started twice. *)
Theorem repeated_finalize_is_ignored (es : list Event) (id : string)
    (Hexecuted : executed_of id (after es) = Some true) :
  (forall es' a, step (after (es ++ es')) (RunAction id a) = after (es ++ es')) ∧
  (forall es', executed_of id (after (es ++ es')) = Some true) ∧
  (forall es', NoDup (started (trace (after (es ++ es'))))).
Proof.
  assert (Hlater : forall es', executed_of id (after (es ++ es')) = Some true).
  { intros es'. unfold after. rewrite run_app. by apply executed_of_run_mono. }
  repeat split; [|done|].
  - intros es' a. specialize (Hlater es'). simpl. unfold runAction, executed_of in *.
    destruct (actions (after (es ++ es')) !! id) as [r|]; [|done].
    simpl in Hlater. injection Hlater as ->. done.
  - intros es'. pose proof (inv_once _ (invariant_after (es ++ es'))) as Hnodup.
    by apply NoDup_app in Hnodup as [? _].
Qed.

End AtMostOnce.

Lemma repeated_finalize_witness :
  executed_of "1" (after finalized_at_once) = Some true ∧
  (forall es' a, step (after (finalized_at_once ++ es')) (RunAction "1" a)
                 = after (finalized_at_once ++ es')) ∧
  (forall es', executed_of "1" (after (finalized_at_once ++ es')) = Some true) ∧
  (forall es', NoDup (started (trace (after (finalized_at_once ++ es'))))).
Proof.
  split; [reflexivity|].
  apply (repeated_finalize_is_ignored finalized_at_once "1"). reflexivity.
Defined.

(** ** C7: the moves of a status *)

Section Monotone.
Context {node_path : NodePath}.

(** C7, amended.  For every record whose [abort] has not been invoked, and
    every sequence of events, the status only moves forward along
    pending -> running -> {complete, failed}, and once it is complete or
    failed no later event changes it.  An invocation of [abort] sets the
    status of its record to ['aborted'], whatever the status was. *)
Theorem status_moves_forward (es es' : list Event) (id : string)
    (Hunaborted : is_aborted id (after (es ++ es')) = false) :
  rtc forward (status_of id (after es)) (status_of id (after (es ++ es'))) ∧
  (forall st, status_of id (after es) = Some st -> terminal st ->
     status_of id (after (es ++ es')) = Some st) ∧
  (forall s, is_Some (actions s !! id) -> status_of id (step s (Abort id)) = Some aborted).
Proof.
  assert (Hrtc : rtc forward (status_of id (after es)) (status_of id (after (es ++ es')))).
  { unfold after in *. rewrite run_app in *.
    apply status_run; [apply invariant_run, invariant_new_runner | done]. }
  repeat split; [done| |].
  - intros st Hst Hterminal. by apply (rtc_forward_terminal _ _ st Hrtc).
  - intros s Hreg. by apply status_of_abort.
Qed.

End Monotone.

Lemma status_moves_forward_witness :
  is_aborted "1" (after (file_completes ++ [AddAction "2" sleep; Tick])) = false ∧
  rtc forward (status_of "1" (after file_completes))
    (status_of "1" (after (file_completes ++ [AddAction "2" sleep; Tick]))) ∧
  (forall st, status_of "1" (after file_completes) = Some st -> terminal st ->
     status_of "1" (after (file_completes ++ [AddAction "2" sleep; Tick])) = Some st) ∧
  (forall s, is_Some (actions s !! "1") -> status_of "1" (step s (Abort "1")) = Some aborted).
Proof.
  split; [reflexivity|].
  apply (status_moves_forward file_completes [AddAction "2" sleep; Tick] "1"). reflexivity.
Defined.

(** C7 as stated fails: [abort] moves a complete record to ['aborted'], and
    the callback of [addAction] moves a record aborted while it waited
    back to ['running']. *)
Lemma terminal_status_changes :
  status_of "1" (after file_completes) = Some complete ∧
  status_of "1" (after (file_completes ++ [Abort "1"])) = Some aborted ∧
  status_of "2" (after (registered_behind ++ [Abort "2"])) = Some aborted ∧
  status_of "2" (after (registered_behind ++ [Abort "2"] ++ lane_moves_on)) = Some running.
Proof. repeat apply conj; vm_compute; reflexivity. Qed.

(** ** C8: [executed] and ['running'] *)

Section Running.
Context {node_path : NodePath}.

Lemma status_of_proceed_cases p : forall id heard s id',
  status_of id' (proceed id heard p s) = status_of id' s ∨
  exists st, status_of id' (proceed id heard p s) = Some st ∧ st ≠ running.
Proof.
  assert (Hsettle : forall id result s id',
            status_of id' (settle id result (with_current None s)) = status_of id' s ∨
            exists st, status_of id' (settle id result (with_current None s)) = Some st
                       ∧ st ≠ running).
  { intros id result s id'. destruct (decide (id = id')) as [<-|Hne].
    - rewrite status_of_settle. change (status_of id (with_current None s))
        with (status_of id s).
      destruct (status_of id s) as [st|]; [|by left]. right. simpl.
      destruct result; [by eexists|]. eexists. split; [done|].
      by destruct (is_aborted id _).
    - left. unfold status_of.
      destruct (settle_spec id result (with_current None s)) as (_ & _ & _ & _ & _ & _ & ->).
      by rewrite decide_False. }
  induction p as [a|e|o k IH|k IH|c k IH]; intros id heard s id'; cbn [proceed].
  - apply Hsettle.
  - apply Hsettle.
  - apply (IH id _ (observe (Did o) s) id').
  - apply IH.
  - by left.
Qed.

(** The status becomes ['running'] only in a turn of the promise chain,
    which leaves [executed] as it is. *)
Lemma running_step s e id :
  status_of id (step s e) = Some running -> status_of id s ≠ Some running ->
  e = Tick ∧ executed_of id (step s e) = executed_of id s.
Proof.
  intros Hrun Hnot. destruct e as [id' a|id' a|id'| |w|t]; simpl in *; try done.
  - revert Hrun. unfold addAction. destruct (actions s !! id') eqn:Hid'; [done|].
    unfold status_of in *. simpl. rewrite lookup_insert. case_decide; [|done].
    by destruct a.
  - revert Hrun. unfold runAction. destruct (actions s !! id') as [r|] eqn:Hr; [|done].
    destruct (executed r); [done|]. simpl. unfold status_of in *. simpl.
    rewrite lookup_updateAction. case_decide as Heq; [|done]. subst id'.
    rewrite Hr in *. simpl in *. intros Hrun. destruct Hnot.
    by destruct a.
  - revert Hrun. unfold abort. destruct (actions s !! id') as [r|] eqn:Hr; [|done].
    cbv zeta. rewrite status_of_updateAction. case_decide as Heq.
    + subst id'. destruct (listens _ s && negb _); simpl; by rewrite Hr.
    + by destruct (listens _ s && negb _).
  - split; [done|]. unfold tick. destruct (current s); [done|].
    destruct (chain s) as [|[id'|id'] rest]; [done|..].
    + by rewrite executed_of_updateAction.
    + unfold executeAction. destruct (actions (with_chain rest s) !! id'); [|done].
      rewrite executed_of_proceed. unfold executed_of at 1. simpl.
      fold (executed_of id (updateAction id' (set_status running) (with_chain rest s))).
      by rewrite executed_of_updateAction.
  - revert Hrun. unfold resolve. destruct (current s) as [c|]; [|done].
    destruct (status_of_proceed_cases (resume c (w (awaiting c))) (run_id c)
                (listening c) s id) as [->|(st & -> & Hst)]; [done|].
    by intros [= ->].
Qed.

(** [executed] becomes true only in [runAction], which leaves the status as
    it is. *)
Lemma executed_flip_step s e id :
  executed_of id s = Some false -> executed_of id (step s e) = Some true ->
  (exists a, e = RunAction id a) ∧ status_of id (step s e) = status_of id s.
Proof.
  intros Hno Hyes.
  destruct (executed_of_step s e id Hyes) as [Hold|[a ->]]; [congruence|].
  split; [by exists a|]. simpl. unfold runAction.
  destruct (actions s !! id) as [r|] eqn:Hr; [|done].
  destruct (executed r); [done|]. simpl. unfold status_of. simpl.
  rewrite lookup_updateAction, decide_True, Hr by done. simpl.
  by destruct a.
Qed.

(** C8, amended.  The [executed] flag of a record flips to true in the
    update made by [runAction], and only there; that update leaves the status
    of the record as it was.  The status becomes ['running'] only in a turn
    of the promise chain (the callback of [addAction], or [#executeAction]),
    which leaves [executed] as it was, and which may come before or after
    the [runAction] call: [executed] and ['running'] are never set together.
    As long as [abort] is not invoked on the record, its status becomes
    ['running'], coming from another status, at most once. *)
Theorem executed_flips_at_finalize (es : list Event) (id : string) (a : BoltAction)
    (r : ActionState)
    (Hrecord : actions (after es) !! id = Some r) (Hfirst : executed r = false) :
  executed_of id (after (es ++ [RunAction id a])) = Some true ∧
  status_of id (after (es ++ [RunAction id a])) = Some (status r) ∧
  (forall es' e,
     executed_of id (after es') = Some false ->
     executed_of id (after (es' ++ [e])) = Some true ->
     (exists a', e = RunAction id a') ∧
     status_of id (after (es' ++ [e])) = status_of id (after es')) ∧
  (forall es' e,
     status_of id (after es') ≠ Some running ->
     status_of id (after (es' ++ [e])) = Some running ->
     e = Tick ∧ executed_of id (after (es' ++ [e])) = executed_of id (after es')) ∧
  (forall es', is_aborted id (after es') = false -> entries id es' new_runner <= 1).
Proof.
  split; [|split; [|split; [|split]]].
  - unfold after. rewrite run_app. fold (after es). simpl.
    unfold runAction, executed_of. rewrite Hrecord, Hfirst. simpl.
    by rewrite lookup_updateAction, decide_True, Hrecord by done.
  - unfold after. rewrite run_app. fold (after es). simpl.
    unfold runAction, status_of. rewrite Hrecord, Hfirst. simpl.
    rewrite lookup_updateAction, decide_True, Hrecord by done. simpl.
    by destruct a.
  - intros es' e. unfold after. rewrite run_app. apply executed_flip_step.
  - intros es' e Hnot Hrun. unfold after in *. rewrite run_app in *.
    by apply running_step.
  - intros es' Hna.
    pose proof (entries_bound es' id new_runner invariant_new_runner Hna) as Hle.
    by simpl in Hle.
Qed.

End Running.

Lemma executed_flips_witness :
  actions (after [AddAction "1" hello]) !! "1" = Some (new_record hello) ∧
  executed (new_record hello) = false ∧
  executed_of "1" (after ([AddAction "1" hello] ++ [RunAction "1" hello])) = Some true ∧
  status_of "1" (after ([AddAction "1" hello] ++ [RunAction "1" hello]))
    = Some (status (new_record hello)) ∧
  (status_of "1" (after [AddAction "1" hello]) ≠ Some running ->
   status_of "1" (after ([AddAction "1" hello] ++ [Tick])) = Some running ->
   executed_of "1" (after ([AddAction "1" hello] ++ [Tick]))
   = executed_of "1" (after [AddAction "1" hello])) ∧
  (forall es', is_aborted "1" (after es') = false -> entries "1" es' new_runner <= 1).
Proof.
  split; [reflexivity|]. split; [reflexivity|].
  destruct (executed_flips_at_finalize [AddAction "1" hello] "1" hello (new_record hello)
              eq_refl eq_refl) as (Hexecuted & Hstatus & _ & Hrunning & Hentries).
  split; [exact Hexecuted|]. split; [exact Hstatus|]. split; [|exact Hentries].
  intros Hnot Hrun. exact (proj2 (Hrunning [AddAction "1" hello] Tick Hnot Hrun)).
Defined.

(** C8 as stated fails: between [runAction] and the turn of the chain, the
    record is executed and still pending; after the callback of [addAction]
    and before [runAction], it is running and not executed; and with an
    [abort] in between, the status becomes ['running'] twice. *)
Lemma executed_while_pending :
  executed_of "1" (after finalized_at_once) = Some true ∧
  status_of "1" (after finalized_at_once) = Some pending ∧
  status_of "1" (after [AddAction "1" hello; Tick]) = Some running ∧
  executed_of "1" (after [AddAction "1" hello; Tick]) = Some false ∧
  entries "1" [AddAction "1" sleep; Tick; Abort "1"; RunAction "1" sleep; Tick] new_runner
  = 2.
Proof. repeat apply conj; vm_compute; reflexivity. Qed.

(** ** C9: aborting a pending action *)

Section AbortPending.
Context {node_path : NodePath}.

(** C9, amended.  Invoking [abort] on a record that is pending and not yet
    finalized sets its status to ['aborted'] at once and starts nothing; and
    as long as the action is not finalized afterwards, its handler is never
    started. *)
Theorem abort_pending_action (es es' : list Event) (id : string)
    (Hpending : status_of id (after es) = Some pending)
    (Hunfinalized : executed_of id (after es) = Some false)
    (Hlater : id ∉ finalize_calls es') :
  status_of id (after (es ++ [Abort id])) = Some aborted ∧
  trace (after (es ++ [Abort id])) = trace (after es) ∧
  id ∉ started (trace (after (es ++ Abort id :: es'))).
Proof.
  pose proof (invariant_after es) as Hinv.
  assert (Hreg : is_Some (actions (after es) !! id)) by by apply (executed_registered id _ false).
  assert (Hidle : busy (after es) ≠ Some id).
  { intros Hbusy. apply (inv_busy_started _ Hinv) in Hbusy.
    assert (executed_of id (after es) = Some true); [|congruence].
    apply (inv_executed _ Hinv). set_solver. }
  repeat split.
  - unfold after. rewrite run_app. by apply status_of_abort.
  - unfold after. rewrite run_app. fold (after es). simpl. unfold abort.
    destruct Hreg as [r ->]. cbv zeta. rewrite trace_updateAction. simpl.
    assert (Hdeaf : listens id (after es) = false); [|by rewrite Hdeaf].
    apply bool_decide_eq_false_2. intros [[=]|Hin]%listeners_started.
    assert (executed_of id (after es) = Some true); [|congruence].
    apply (inv_executed _ Hinv). set_solver.
  - intros Hin.
    assert (executed_of id (after (es ++ Abort id :: es')) = Some true) as Hex.
    { apply (inv_executed _ (invariant_after _)). set_solver. }
    revert Hex. unfold after. rewrite run_app. fold (after es).
    apply executed_of_run_unfinalized; [done | congruence].
Qed.

End AbortPending.

Lemma abort_pending_witness :
  status_of "2" (after registered_behind) = Some pending ∧
  executed_of "2" (after registered_behind) = Some false ∧
  "2" ∉ finalize_calls lane_moves_on ∧
  status_of "2" (after (registered_behind ++ [Abort "2"])) = Some aborted ∧
  trace (after (registered_behind ++ [Abort "2"])) = trace (after registered_behind) ∧
  "2" ∉ started (trace (after (registered_behind ++ Abort "2" :: lane_moves_on))).
Proof.
  assert (Hlater : "2" ∉ finalize_calls lane_moves_on) by (simpl; apply not_elem_of_nil).
  split; [reflexivity|]. split; [reflexivity|]. split; [exact Hlater|].
  apply (abort_pending_action registered_behind lane_moves_on "2");
    [reflexivity | reflexivity | exact Hlater].
Defined.

(** C9 as stated fails: a pending action that is aborted and then finalized
    has its handler started when the lane reaches it. *)
Lemma aborted_action_still_runs :
  let es := registered_behind ++ [Abort "2"; RunAction "2" hello] ++ lane_moves_on in
  status_of "2" (after registered_behind) = Some pending ∧
  status_of "2" (after (registered_behind ++ [Abort "2"])) = Some aborted ∧
  Began "2" ∈ trace (after es) ∧
  Called (CWriteFile "a.txt" (Text "hi")) ∈ trace (after (es ++ [Resolve calm])).
Proof.
  cbv zeta; repeat apply conj; vm_compute; repeat constructor.
Qed.

(** ** C10: the callback of [addAction] *)

Section Registration.
Context {node_path : NodePath}.

(** C10.  [addAction] of a new identifier registers, on the current
    execution promise, a callback that sets the status of the record to
    ['running'] whatever it is when the callback runs.  So an action that is
    registered and never finalized (nor aborted) ends up ['running'] once the
    chain has settled, with [executed] still false and without its handler
    ever being started. *)
Theorem registration_schedules_running (es : list Event) (id : string) (a : BoltAction)
    (Hfresh : actions (after es) !! id = None) :
  let s := after (es ++ [AddAction id a]) in
  chain s = chain (after es) ++ [MarkRunning id] ∧
  status_of id s = Some pending ∧
  (forall s' q r, current s' = None -> chain s' = MarkRunning id :: q ->
     actions s' !! id = Some r ->
     actions (tick s') !! id = Some (set_status running r) ∧ trace (tick s') = trace s') ∧
  (forall es' w, leaves id es' = true -> exists n, forall fuel, n <= fuel ->
     let s' := drain w fuel (run es' s) in
     status_of id s' = Some running ∧ executed_of id s' = Some false ∧
     id ∉ started (trace s')).
Proof.
  assert (Hafter : after (es ++ [AddAction id a]) = addAction id a (after es)).
  { unfold after. by rewrite run_app. }
  simpl. rewrite Hafter.
  assert (Hs : addAction id a (after es) =
               with_chain (chain (after es) ++ [MarkRunning id])
                 (with_signals <[id := false]>
                    (with_actions <[id := new_record a]> (after es)))).
  { unfold addAction. by rewrite Hfresh. }
  split; [by rewrite Hs|]. split.
  { rewrite Hs. unfold status_of. simpl. rewrite lookup_insert_eq. by destruct a. }
  split.
  { intros s' q r Hidle Hchain Hr. unfold tick. rewrite Hidle, Hchain. split.
    - rewrite lookup_updateAction, decide_True by done. simpl. by rewrite Hr.
    - by rewrite trace_updateAction. }
  intros es' w Hleaves.
  {   set (s1 := run es' (addAction id a (after es))).
    assert (Hinv1 : invariant s1).
    { apply invariant_run, invariant_addAction, invariant_after. }
    destruct (drain_quiesces w s1 Hinv1) as (n & es'' & Hd & Ht & Hi & Hc).
    exists n. intros fuel Hfuel. cbv zeta. fold s1. rewrite (Hd fuel Hfuel).
    assert (Hinv2 : invariant (run es'' s1)) by by apply invariant_run.
    assert (Hex0 : executed_of id (addAction id a (after es)) = Some false).
    { rewrite Hs. unfold executed_of. simpl. rewrite lookup_insert_eq. by destruct a. }
    assert (Hna : is_aborted id (run es'' s1) = false).
    { apply is_aborted_run_unaborted; [by apply (turns_unaborted w)|].
      apply is_aborted_run_unaborted; [by apply leaves_unaborted|].
      rewrite Hs. unfold is_aborted. simpl. by rewrite lookup_insert_eq. }
    assert (Hnex : executed_of id (run es'' s1) ≠ Some true).
    { apply executed_of_run_unfinalized; [by apply (turns_unfinalized w)|].
      apply executed_of_run_unfinalized; [by apply leaves_unfinalized|].
      by rewrite Hex0. }
    assert (Hreg : is_Some (actions (run es'' s1) !! id)).
    { do 2 apply registered_run. apply registered_addAction. }
    destruct Hreg as [r Hr].
    assert (Hnot : id ∉ started (trace (run es'' s1))).
    { intros Hin. apply Hnex, (inv_executed _ Hinv2). set_solver. }
    repeat split; [| |done].
    + unfold status_of. rewrite Hr. simpl. f_equal.
      apply (status_running _ id r Hinv2 Hr Hna); [|by left].
      rewrite Hc. apply not_elem_of_nil.
    + unfold executed_of in *. rewrite Hr in *. simpl in *. by destruct (executed r). }
Qed.

End Registration.

Lemma registration_witness :
  actions (after file_completes) !! "2" = None ∧
  let s := after (file_completes ++ [AddAction "2" sleep]) in
  chain s = chain (after file_completes) ++ [MarkRunning "2"] ∧
  status_of "2" s = Some pending ∧
  (forall s' q r, current s' = None -> chain s' = MarkRunning "2" :: q ->
     actions s' !! "2" = Some r ->
     actions (tick s') !! "2" = Some (set_status running r) ∧ trace (tick s') = trace s') ∧
  (forall es' w, leaves "2" es' = true -> exists n, forall fuel, n <= fuel ->
     let s' := drain w fuel (run es' s) in
     status_of "2" s' = Some running ∧ executed_of "2" s' = Some false ∧
     "2" ∉ started (trace s')).
Proof.
  split; [reflexivity|].
  apply (registration_schedules_running file_completes "2" sleep). reflexivity.
Defined.

(** ** C3: a failure stays with its action *)

Lemma proceed_ends p : forall id heard s result,
  ends_now (time s) p = Some result ->
  exists s0, proceed id heard p s = settle id result (with_current None s0) ∧
             actions s0 = actions s ∧ signals s0 = signals s ∧ chain s0 = chain s.
Proof.
  induction p as [a|e|o k IH|k IH|c k IH]; intros id heard s result Hend; simpl in Hend.
  - injection Hend as <-. by exists s.
  - injection Hend as <-. by exists s.
  - destruct (IH id (heard || attaches_listener o) (observe (Did o) s) result Hend)
      as (s0 & Hs0 & ?). by exists s0.
  - destruct (IH (time s) id heard s result Hend) as (s0 & Hs0 & ?). by exists s0.
  - done.
Qed.

Section Failure.
Context {node_path : NodePath}.

(** C3.  When the handler of the running action raises an error [e], the
    error is caught: the record of that action gets the status ['failed'] and
    an error detail, no other record changes, and the promise chain goes on
    with what waits on it.  Every action that was or will be finalized is
    still executed, in finalize order, once the promises it awaits settle. *)
Theorem failure_does_not_stop_lane (es : list Event) (w : World) (id e : string)
    (Hraises : next_end w (after es) = Some (id, Some e)) :
  let s := after (es ++ [Resolve w]) in
  status_of id s = Some failed ∧
  error_of id s = Some "Action failed" ∧
  Caught e ∈ trace s ∧
  (forall id', id' ≠ id -> actions s !! id' = actions (after es) !! id') ∧
  current s = None ∧
  chain s = chain (after es) ∧
  (forall later w', exists n, forall fuel, n <= fuel ->
     started (trace (drain w' fuel (run later s)))
     = finalized (es ++ Resolve w :: later) new_runner).
Proof.
  unfold next_end in Hraises.
  destruct (current (after es)) as [c|] eqn:Hcur; [|done].
  destruct (ends_now _ _) as [result|] eqn:Hend; [|done].
  injection Hraises as <- ->.
  assert (Hs : after (es ++ [Resolve w]) =
               proceed (run_id c) (listening c) (resume c (w (awaiting c))) (after es)).
  { unfold after. rewrite run_app. simpl. unfold resolve. fold (after es). by rewrite Hcur. }
  destruct (proceed_ends _ (run_id c) (listening c) (after es) _ Hend)
    as (s0 & Hs0 & Hact & Hsig & Hchain).
  assert (Hreg : is_Some (actions s0 !! run_id c)).
  { rewrite Hact. apply (inv_busy_registered _ (invariant_after es)).
    unfold busy. by rewrite Hcur. }
  simpl. rewrite Hs. repeat split.
  - rewrite Hs0, status_of_settle. destruct Hreg as [r Hr]. unfold status_of. simpl.
    by rewrite Hr.
  - rewrite Hs0. by apply error_of_settle.
  - rewrite Hs0. simpl. set_solver.
  - intros id' Hne. by apply lookup_proceed_ne.
  - rewrite Hs0. by destruct (settle_spec (run_id c) (Some e) (with_current None s0))
      as (_ & _ & -> & _).
  - by rewrite chain_proceed.
  - intros later w'. rewrite <- Hs.
    destruct (drain_executes_all w' (es ++ Resolve w :: later)) as [n Hn].
    exists n. intros fuel Hfuel. destruct (Hn fuel Hfuel) as (_ & _ & Hstarted & _).
    revert Hstarted. unfold after. by rewrite (run_app es), (run_app es [Resolve w]).
Qed.

End Failure.

Lemma failure_witness :
  next_end stormy (after shell_dispatched) = Some ("1", Some "boom") ∧
  let s := after (shell_dispatched ++ [Resolve stormy]) in
  status_of "1" s = Some failed ∧
  error_of "1" s = Some "Action failed" ∧
  Caught "boom" ∈ trace s ∧
  (forall id', id' ≠ "1" -> actions s !! id' = actions (after shell_dispatched) !! id') ∧
  current s = None ∧
  chain s = chain (after shell_dispatched) ∧
  (forall later w', exists n, forall fuel, n <= fuel ->
     started (trace (drain w' fuel (run later s)))
     = finalized (shell_dispatched ++ Resolve stormy :: later) new_runner).
Proof.
  split; [reflexivity|].
  apply (failure_does_not_stop_lane shell_dispatched stormy "1" "boom"). reflexivity.
Defined.

(** ** Following one handler *)

Section Following.
Context {node_path : NodePath}.

Lemma tick_execute id q r s :
  current s = None -> chain s = Execute id :: q -> actions s !! id = Some r ->
  tick s = proceed id false (handler r)
             (observe (Began id) (updateAction id (set_status running) (with_chain q s))).
Proof.
  intros Hidle Hchain Hr. unfold tick, executeAction. rewrite Hidle, Hchain. simpl.
  by rewrite Hr.
Qed.

Lemma resolve_after x w s c :
  unsettled x = true -> current s = Some c ->
  resolve w (run x s) =
  proceed (run_id c) (listening c) (resume c (w (awaiting c))) (run x s).
Proof.
  intros Hx Hcur. unfold resolve. by rewrite (current_unsettled x s _ Hx Hcur).
Qed.

Lemma run_cons e es s : run (e :: es) s = run es (step s e).
Proof. done. Qed.

Lemma run_nil s : run [] s = s.
Proof. done. Qed.

Lemma settled_status id result s :
  is_Some (actions s !! id) ->
  status_of id (settle id result s) =
  Some (match result with
        | None => if is_aborted id (settle id result s) then aborted else complete
        | Some _ => failed
        end).
Proof.
  intros [r Hr]. rewrite status_of_settle. unfold status_of, is_aborted.
  destruct (settle_spec id result s) as (_ & -> & _). by rewrite Hr.
Qed.

End Following.

(** The events of a schedule, one after the other. *)
Ltac schedule :=
  cbv zeta; unfold settling; cbn [mbind list_bind foldr app];
  repeat first [rewrite run_cons | rewrite run_app | rewrite run_nil];
  cbn [step].

(** The promise awaited after the events [x] settles as [Hw] says. *)
Ltac settles x Hx Hw :=
  erewrite (resolve_after x); [|exact Hx|reflexivity];
  cbn [run_id listening resume awaiting]; rewrite ?Hw;
  cbn -[settle run updateAction].

(** A record registered at the start is still registered. *)
Ltac registered :=
  repeat first [apply registered_run | apply updateAction_dom | progress simpl];
  match goal with H : actions _ !! _ = Some _ |- _ => rewrite H; eauto end.

(** ** What the lane and a handler did, in order *)

Lemma handled_app t1 t2 : handled (t1 ++ t2) = handled t1 ++ handled t2.
Proof. induction t1 as [|[]]; simpl; congruence. Qed.

Lemma handled_observe o s :
  handled (trace (observe o s)) = handled (trace s) ++ handled [o].
Proof. simpl. by rewrite handled_app. Qed.

Lemma handled_settle id result s :
  handled (trace (settle id result s))
  = handled (trace s) ++ match result with
                         | None => [Ended id]
                         | Some e => [Caught e; Ended id]
                         end.
Proof.
  destruct result; simpl; rewrite trace_updateAction, ?handled_app; simpl;
    by rewrite <- ?app_assoc.
Qed.

Lemma handled_in o t : o ∈ handled t -> o ∈ t.
Proof.
  induction t as [|o' t IH]; [done|]. destruct o'; simpl; set_solver.
Qed.

Section Handled.
Context {node_path : NodePath}.

(** While no promise settles, a pending handler does nothing: the events
    add at most kills to the trace. *)
Lemma handled_unsettled x : forall s c,
  unsettled x = true -> current s = Some c ->
  handled (trace (run x s)) = handled (trace s).
Proof.
  induction x as [|e x IH]; intros s c Hx Hcur; [done|].
  simpl in Hx. apply andb_prop in Hx as [He Hx]. simpl.
  rewrite (IH (step s e) c Hx).
  - destruct e as [id' a|id' a|id'| |w|t]; simpl; try done.
    + unfold addAction. by destruct (actions s !! id').
    + unfold runAction. destruct (actions s !! id') as [r|]; [|done].
      destruct (executed r); [done|]. simpl. by rewrite trace_updateAction.
    + unfold abort. destruct (actions s !! id'); [|done]. cbv zeta.
      rewrite trace_updateAction. simpl.
      destruct (listens _ s && negb _); [|done]. simpl.
      by rewrite handled_app, app_nil_r.
    + unfold tick. by rewrite Hcur.
  - by apply (current_unsettled [e]); [simpl; rewrite He|].
Qed.

End Handled.

(** The handled trace of a runner that was followed with [schedule] and
    [settles]. *)
Ltac traced :=
  repeat first
    [ rewrite handled_settle
    | rewrite handled_observe
    | rewrite trace_updateAction
    | progress cbn [trace with_current with_chain]
    | erewrite handled_unsettled; [|eassumption|reflexivity] ];
  cbn [handled app]; rewrite <- ?app_assoc; cbn [app].

(** ** C4: the exit code of a shell action *)

Section Shell.
Context {node_path : NodePath}.

(** C4, amended.  A shell action that is executed awaits three promises:
    the sandbox, the [spawn] call and the exit of the process.  When all
    three are fulfilled it ends ['complete'] whatever the exit code
    (['aborted'] if its [abort] was invoked by then), never ['failed'].  It
    ends ['failed'] when one of them is rejected: the sandbox (no process is
    spawned), the [spawn] call, or the exit of the process; an error of the
    [spawn] call is not the only failure.  The events [x1], [x2], [x3] are
    whatever reaches the runner while the handler is suspended. *)
Theorem shell_exit_code_is_ignored (s : Runner) (id : string) (q : list Reaction)
    (r : ActionState) (x1 x2 x3 : list Event)
    (Hidle : current s = None) (Hnext : chain s = Execute id :: q)
    (Hrecord : actions s !! id = Some r) (Hshell : type r = shell)
    (Hx1 : unsettled x1 = true) (Hx2 : unsettled x2 = true) (Hx3 : unsettled x3 = true) :
  let spawn := CSpawn "jsh" ["-c"; content r] in
  (forall (w : World) exitCode,
     w CWebcontainer = Fulfilled tt -> w spawn = Fulfilled tt ->
     w CExit = Fulfilled exitCode ->
     let s' := run (Tick :: settling w [x1; x2; x3]) s in
     status_of id s' = Some (if is_aborted id s' then aborted else complete) ∧
     status_of id s' ≠ Some failed ∧
     handled (trace s') =
       handled (trace s) ++
       [Began id; Called CWebcontainer; Called spawn; Did AddAbortListener;
        Did PipeOutput; Called CExit;
        Did (LoggerDebug "Process terminated with code"); Ended id]) ∧
  (forall (w : World) e,
     w CWebcontainer = Rejected e ->
     let s' := run (Tick :: settling w [x1]) s in
     status_of id s' = Some failed ∧
     handled (trace s') =
       handled (trace s) ++ [Began id; Called CWebcontainer; Caught e; Ended id]) ∧
  (forall (w : World) e,
     w CWebcontainer = Fulfilled tt -> w spawn = Rejected e ->
     let s' := run (Tick :: settling w [x1; x2]) s in
     status_of id s' = Some failed ∧
     handled (trace s') =
       handled (trace s) ++
       [Began id; Called CWebcontainer; Called spawn; Caught e; Ended id]) ∧
  (forall (w : World) e,
     w CWebcontainer = Fulfilled tt -> w spawn = Fulfilled tt -> w CExit = Rejected e ->
     let s' := run (Tick :: settling w [x1; x2; x3]) s in
     status_of id s' = Some failed ∧
     handled (trace s') =
       handled (trace s) ++
       [Began id; Called CWebcontainer; Called spawn; Did AddAbortListener;
        Did PipeOutput; Called CExit; Caught e; Ended id]).
Proof.
  pose proof (tick_execute id q r s Hidle Hnext Hrecord) as Htick.
  unfold handler, runShellAction in Htick. rewrite Hshell in Htick.
  cbn -[settle run updateAction] in Htick.
  cbv zeta. split; [|split; [|split]].
  - intros w exitCode Hsandbox Hspawn Hexit. schedule. rewrite Htick.
    settles x1 Hx1 Hsandbox. settles x2 Hx2 Hspawn. settles x3 Hx3 Hexit.
    rewrite settled_status by registered. split; [done|].
    split; [by destruct (is_aborted id _)|]. by traced.
  - intros w e Hsandbox. schedule. rewrite Htick.
    settles x1 Hx1 Hsandbox.
    rewrite settled_status by registered. split; [done|]. by traced.
  - intros w e Hsandbox Hspawn. schedule. rewrite Htick.
    settles x1 Hx1 Hsandbox. settles x2 Hx2 Hspawn.
    rewrite settled_status by registered. split; [done|]. by traced.
  - intros w e Hsandbox Hspawn Hexit. schedule. rewrite Htick.
    settles x1 Hx1 Hsandbox. settles x2 Hx2 Hspawn. settles x3 Hx3 Hexit.
    rewrite settled_status by registered. split; [done|]. by traced.
Qed.

End Shell.

Lemma shell_exit_code_witness :
  let s := after [AddAction "1" sleep; RunAction "1" sleep; Tick] in
  current s = None ∧ chain s = [Execute "1"] ∧
  actions s !! "1" = Some (set_executed (set_status running (new_record sleep))) ∧
  status_of "1" (run (Tick :: settling calm [[]; [Clock "noon"]; []]) s) = Some complete ∧
  status_of "1" (run (Tick :: settling stormy [[]]) s) = Some failed ∧
  status_of "1" (run (Tick :: settling spawn_refused [[]; [Clock "noon"]]) s)
    = Some failed ∧
  status_of "1" (run (Tick :: settling exit_lost [[]; [Clock "noon"]; []]) s)
    = Some failed.
Proof.
  cbv zeta. split; [reflexivity|]. split; [reflexivity|]. split; [reflexivity|].
  destruct (shell_exit_code_is_ignored
              (after [AddAction "1" sleep; RunAction "1" sleep; Tick]) "1" []
              (set_executed (set_status running (new_record sleep)))
              [] [Clock "noon"] []
              eq_refl eq_refl eq_refl eq_refl eq_refl eq_refl eq_refl)
    as (Hexits & Hsandbox & Hspawn & Hexit).
  split.
  { pose proof (Hexits calm 0%Z eq_refl eq_refl eq_refl) as Hcalm.
    cbv zeta in Hcalm. destruct Hcalm as [Hstatus _]. rewrite Hstatus.
    vm_compute. reflexivity. }
  split; [exact (proj1 (Hsandbox stormy "boom" eq_refl))|].
  split; [exact (proj1 (Hspawn spawn_refused "ENOENT" eq_refl eq_refl))|].
  exact (proj1 (Hexit exit_lost "process lost" eq_refl eq_refl eq_refl)).
Defined.

(** C4 as stated fails: a shell action fails without an error of the
    [spawn] call, when the sandbox promise is rejected (no process is
    spawned) and when the exit promise is rejected after a [spawn] that
    succeeded; and a shell action whose [spawn] succeeded ends ['aborted'],
    not ['complete'], when its [abort] is invoked before the process
    exits. *)
Lemma shell_fails_without_spawn_error :
  let s1 := after (shell_dispatched ++ [Resolve stormy]) in
  let s2 := after (shell_dispatched ++ [Resolve exit_lost; Resolve exit_lost;
                                        Resolve exit_lost]) in
  let s3 := after (shell_dispatched ++ [Resolve calm; Resolve calm; Abort "1";
                                        Resolve calm]) in
  status_of "1" s1 = Some failed ∧ calls (trace s1) = [CWebcontainer] ∧
  exit_lost (CSpawn "jsh" ["-c"; "sleep 9"]) = Fulfilled tt ∧
  status_of "1" s2 = Some failed ∧
  calls (trace s2) = [CWebcontainer; CSpawn "jsh" ["-c"; "sleep 9"]; CExit] ∧
  calm (CSpawn "jsh" ["-c"; "sleep 9"]) = Fulfilled tt ∧
  calm CExit = Fulfilled 0%Z ∧
  status_of "1" s3 = Some aborted ∧ Ended "1" ∈ trace s3.
Proof.
  cbv zeta; repeat apply conj; vm_compute; repeat constructor.
Qed.

(** ** What a handler did *)

Lemma observed_here o s : o ∈ trace (observe o s).
Proof. simpl. set_solver. Qed.

Lemma observed_observe o o' s : o ∈ trace s -> o ∈ trace (observe o' s).
Proof. simpl. set_solver. Qed.

Lemma observed_with_current o c s : o ∈ trace s -> o ∈ trace (with_current c s).
Proof. done. Qed.

Lemma observed_settle o id result s : o ∈ trace s -> o ∈ trace (settle id result s).
Proof.
  intros Hin. destruct result; simpl; rewrite trace_updateAction; set_solver.
Qed.

Lemma observed_updateAction o id u s : o ∈ trace s -> o ∈ trace (updateAction id u s).
Proof. by rewrite trace_updateAction. Qed.

Ltac observed :=
  repeat first [apply observed_settle | apply observed_here | apply observed_observe
               | apply observed_with_current | apply observed_updateAction
               | apply observed_run].

(** ** C6: a file action *)

Section File.
Context {node_path : NodePath}.

(** C6, amended.  In a file action whose sandbox is available, the parent
    folder is created first, unless it is ["."]; a failure to create it is
    only logged, and the write is attempted next all the same; a failure of
    the write is only logged as well: the handler returns normally and the
    action ends ['complete'] (['aborted'] if its [abort] was invoked in the
    meantime), not ['failed'].  The events [x1], [x2], [x3] are whatever
    reaches the runner while the handler is suspended. *)
Theorem file_failures_are_logged (s : Runner) (id : string) (q : list Reaction)
    (r : ActionState) (path : string) (w : World) (x1 x2 x3 : list Event)
    (Hidle : current s = None) (Hnext : chain s = Execute id :: q)
    (Hrecord : actions s !! id = Some r)
    (Hfile : type r = file) (Hpath : filePath r = Some path)
    (Hx1 : unsettled x1 = true) (Hx2 : unsettled x2 = true) (Hx3 : unsettled x3 = true)
    (Hsandbox : w CWebcontainer = Fulfilled tt) :
  let folder := strip_trailing_slashes (dirname path) in
  let write := CWriteFile path (Text (content r)) in
  let s' := run (Tick :: settling w (if decide (folder = ".") then [x1; x3]
                                     else [x1; x2; x3])) s in
  status_of id s' = Some (if is_aborted id s' then aborted else complete) ∧
  Called write ∈ trace s' ∧
  (folder ≠ "." -> Called (CMkdir folder) ∈ trace s' ∧
     forall e, w (CMkdir folder) = Rejected e ->
               Did (LoggerError "Failed to create folder") ∈ trace s') ∧
  (forall e, w write = Rejected e ->
             Did (LoggerError "Failed to write file") ∈ trace s') ∧
  handled (trace s') =
    handled (trace s) ++ [Began id; Called CWebcontainer] ++
    (if decide (folder = ".") then []
     else [Called (CMkdir folder);
           Did (match w (CMkdir folder) with
                | Fulfilled _ => LoggerDebug ("Created folder " +:+ folder)
                | Rejected _ => LoggerError "Failed to create folder"
                end)]) ++
    [Called write;
     Did (match w write with
          | Fulfilled _ => LoggerDebug ("File written " +:+ path)
          | Rejected _ => LoggerError "Failed to write file"
          end);
     Ended id].
Proof.
  pose proof (tick_execute id q r s Hidle Hnext Hrecord) as Htick.
  unfold handler, runFileAction in Htick. rewrite Hfile, Hpath in Htick.
  cbn -[settle run updateAction] in Htick.
  cbv zeta. destruct (decide (strip_trailing_slashes (dirname path) = ".")) as [Hdot|Hdot].
  - rewrite bool_decide_eq_false_2 in Htick by (intros Hne; by apply Hne).
    schedule. rewrite Htick.
    destruct (w (CWriteFile path (Text (content r)))) as [[]|e] eqn:Hwrite;
      settles x1 Hx1 Hsandbox; settles x3 Hx3 Hwrite;
      rewrite settled_status by registered;
      (split; [done|]); (split; [observed|]); (split; [done|]);
      (split; [intros e' [=]; observed|]); by traced.
  - rewrite bool_decide_eq_true_2 in Htick by done.
    schedule. rewrite Htick.
    destruct (w (CMkdir (strip_trailing_slashes (dirname path)))) as [[]|e1] eqn:Hmkdir;
      destruct (w (CWriteFile path (Text (content r)))) as [[]|e2] eqn:Hwrite;
      settles x1 Hx1 Hsandbox; settles x2 Hx2 Hmkdir; settles x3 Hx3 Hwrite;
      rewrite settled_status by registered;
      (split; [done|]); (split; [observed|]);
      (split; [intros _; split; [observed | intros e' [=]; observed]|]);
      (split; [intros e' [=]; observed|]); by traced.
Qed.

End File.

Lemma file_failures_witness :
  let s := after [AddAction "1" nested; RunAction "1" nested; Tick] in
  let w := read_only compiled in
  current s = None ∧ chain s = [Execute "1"] ∧
  actions s !! "1" = Some (set_executed (set_status running (new_record nested))) ∧
  let s' := run (Tick :: settling w [[]; [AddAction "2" hello]; []]) s in
  status_of "1" s' = Some (if is_aborted "1" s' then aborted else complete) ∧
  handled (trace s') =
    handled (trace s) ++
    [Began "1"; Called CWebcontainer; Called (CMkdir "src");
     Did (LoggerError "Failed to create folder");
     Called (CWriteFile "src/a.txt" (Text "hi"));
     Did (LoggerError "Failed to write file"); Ended "1"].
Proof.
  split; [reflexivity|]. split; [reflexivity|]. split; [reflexivity|].
  pose proof (file_failures_are_logged
                (after [AddAction "1" nested; RunAction "1" nested; Tick]) "1" []
                (set_executed (set_status running (new_record nested))) "src/a.txt"
                (read_only compiled) [] [AddAction "2" hello] []
                eq_refl eq_refl eq_refl eq_refl eq_refl eq_refl eq_refl eq_refl eq_refl)
    as H.
  cbv zeta in H. destruct H as (Hstatus & _ & _ & _ & Htrace).
  split; [exact Hstatus | exact Htrace].
Defined.

(** C6 as stated fails: the write of a file action is rejected, and the
    action ends ['complete']. *)
Lemma failed_write_completes :
  let s := after file_in_read_only_sandbox in
  read_only compiled (CWriteFile "src/a.txt" (Text "hi")) = Rejected "EACCES" ∧
  Called (CWriteFile "src/a.txt" (Text "hi")) ∈ trace s ∧
  Ended "1" ∈ trace s ∧
  status_of "1" s = Some complete ∧
  error_of "1" s = None.
Proof.
  cbv zeta; repeat apply conj; vm_compute; repeat constructor.
Qed.

(** ** C5: a contract that does not compile *)

Section Contract.
Context {node_path : NodePath}.

(** C5, amended.  For a contract action whose source is read and whose
    compiler call returns [success: false], the handler attempts to write an
    error report with [success: false] and the compiler's errors to
    [join(outputDir, basename) + ".error.json"], where [outputDir] defaults to
    ["contracts/artifacts"], whether or not the output folder could be
    created, and the action ends ['failed'].  When the write is accepted the
    handler prints the errors on the console and raises ['Compilation
    failed']; when it is refused the error of the write is raised instead
    and nothing is printed.  The error detail of the record is the fixed text
    ["Action failed"] in both cases: the compiler's errors are never on the
    record. *)
Theorem contract_failure_is_reported (s : Runner) (id : string) (q : list Reaction)
    (r : ActionState) (path source : string) (result : CompilationResult) (w : World)
    (x1 x2 x3 x4 x5 x6 : list Event)
    (Hidle : current s = None) (Hnext : chain s = Execute id :: q)
    (Hrecord : actions s !! id = Some r)
    (Hcontract : type r = contract) (Hpath : filePath r = Some path)
    (Hx1 : unsettled x1 = true) (Hx2 : unsettled x2 = true) (Hx3 : unsettled x3 = true)
    (Hx4 : unsettled x4 = true) (Hx5 : unsettled x5 = true) (Hx6 : unsettled x6 = true)
    (Himport : w CImportCompiler = Fulfilled tt)
    (Hsandbox : w CWebcontainer = Fulfilled tt)
    (Hread : w (CReadFile path) = Fulfilled source)
    (Hcompile : w (CCompile source (language r) path (optimize r)) = Fulfilled result)
    (Hfailure : success result = false) :
  let dir := or_default (outputDir r) "contracts/artifacts" in
  let outputPath := join dir (basename path (extname path)) in
  let s' := run (Tick :: settling w [x1; x2; x3; x4; x5; x6]) s in
  status_of id s' = Some failed ∧
  error_of id s' = Some "Action failed" ∧
  exists compiledAt,
    let write :=
      CWriteFile (outputPath +:+ ".error.json")
        (JsonErrorReport
           {| er_success := false; er_fileName := path;
              er_language := language r;
              er_errors := default [] (errors result);
              er_warnings := default [] (warnings result);
              er_compiledAt := compiledAt |}) in
    Called write ∈ trace s' ∧
    handled (trace s') =
      handled (trace s) ++
      [Began id; Called CImportCompiler; Called CWebcontainer; Called (CReadFile path);
       Called (CCompile source (language r) path (optimize r)); Called (CMkdir dir)] ++
      match w (CMkdir dir) with
      | Fulfilled _ => []
      | Rejected _ =>
          [Did (LoggerDebug "Output directory already exists or failed to create")]
      end ++
      [Called write] ++
      match w write with
      | Fulfilled _ =>
          [Did (LoggerError ("Contract compilation failed: " +:+ path));
           Did (ConsoleError ("Contract compilation failed! " +:+
                  or_default (join_with newline <$> errors result) "Unknown error"))] ++
          (if non_empty (warnings result)
           then [Did (ConsoleLog ("Warnings: " +:+
                        join_with newline (default [] (warnings result))))]
           else []) ++
          [Did (LoggerError "Contract action failed:"); Caught "Compilation failed"]
      | Rejected e => [Did (LoggerError "Contract action failed:"); Caught e]
      end ++
      [Ended id].
Proof.
  pose proof (tick_execute id q r s Hidle Hnext Hrecord) as Htick.
  unfold handler, runContractAction, write_error_report in Htick.
  rewrite Hcontract, Hpath in Htick.
  cbn -[settle run updateAction] in Htick.
  destruct result as [ok code abi errs warns gas meta]. simpl in Hfailure. subst ok.
  assert (Hwarn : exists b, non_empty warns = b) by eauto. destruct Hwarn as [b Hwarn].
  schedule. rewrite Htick. cbn [errors warnings].
  destruct (w (CMkdir (or_default (outputDir r) "contracts/artifacts")))
    as [[]|e1] eqn:Hmkdir;
    settles x1 Hx1 Himport; settles x2 Hx2 Hsandbox; settles x3 Hx3 Hread;
    settles x4 Hx4 Hcompile; settles x5 Hx5 Hmkdir;
    match goal with
    | |- context [mkErrorReport _ _ _ _ _ ?t] => generalize t; intros compiledAt
    end;
    match goal with
    | |- context [Called (CWriteFile ?p ?d)] =>
        destruct (w (CWriteFile p d)) as [[]|e2] eqn:Hwrite
    end;
    settles x6 Hx6 Hwrite; rewrite ?Hwarn; destruct b; cbn -[settle run updateAction];
    rewrite settled_status by registered;
    (split; [done|]); (split; [apply error_of_settle; registered|]);
    exists compiledAt; (split; [observed|]); traced; rewrite ?Hwrite, ?Hwarn; reflexivity.
Qed.

End Contract.

Lemma contract_failure_witness :
  let s := after contract_dispatched in
  let r := set_executed (set_status running (new_record c_sol)) in
  let w := compiler_says rejected_source in
  current s = None ∧ chain s = [Execute "3"] ∧ actions s !! "3" = Some r ∧
  let s' := run (Tick :: settling w [[]; []; [Clock "noon"]; []; []; []]) s in
  status_of "3" s' = Some failed ∧
  error_of "3" s' = Some "Action failed" ∧
  exists compiledAt,
    let write :=
      CWriteFile "contracts/artifacts/C.error.json"
        (JsonErrorReport
           {| er_success := false; er_fileName := "C.sol";
              er_language := Some solidity;
              er_errors := ["bad syntax"];
              er_warnings := [];
              er_compiledAt := compiledAt |}) in
    Called write ∈ trace s' ∧
    handled (trace s') =
      handled (trace s) ++
      [Began "3"; Called CImportCompiler; Called CWebcontainer; Called (CReadFile "C.sol");
       Called (CCompile "contract C {" (Some solidity) "C.sol" None);
       Called (CMkdir "contracts/artifacts"); Called write;
       Did (LoggerError "Contract compilation failed: C.sol");
       Did (ConsoleError "Contract compilation failed! bad syntax");
       Did (LoggerError "Contract action failed:"); Caught "Compilation failed";
       Ended "3"].
Proof.
  split; [reflexivity|]. split; [reflexivity|]. split; [reflexivity|].
  exact (contract_failure_is_reported (after contract_dispatched) "3" []
           (set_executed (set_status running (new_record c_sol))) "C.sol" "contract C {"
           rejected_source (compiler_says rejected_source) [] [] [Clock "noon"] [] [] []
           eq_refl eq_refl eq_refl eq_refl eq_refl eq_refl eq_refl eq_refl eq_refl
           eq_refl eq_refl eq_refl eq_refl eq_refl eq_refl eq_refl).
Defined.

(** C5 as stated fails: the error detail of the failed record is the text
    ["Action failed"], the same whatever errors the compiler reports; the
    errors are in the report file, not on the record. *)
Lemma compiler_errors_not_on_record :
  let s1 := after (contract_compiled rejected_source) in
  let s2 := after (contract_compiled unexpected_token) in
  errors rejected_source = Some ["bad syntax"] ∧
  errors unexpected_token = Some ["unexpected token"] ∧
  status_of "3" s1 = Some failed ∧
  error_of "3" s1 = Some "Action failed" ∧
  actions s1 !! "3" = actions s2 !! "3" ∧
  Called (CWriteFile "contracts/artifacts/C.error.json"
            (JsonErrorReport
               {| er_success := false; er_fileName := "C.sol";
                  er_language := Some solidity; er_errors := ["bad syntax"];
                  er_warnings := []; er_compiledAt := "" |})) ∈ trace s1.
Proof.
  cbv zeta; repeat apply conj; vm_compute; repeat constructor.
Qed.

Lemma handlers_order_witness :
  let es := registered_behind ++ [RunAction "2" hello] in
  registered_first [] es = true ∧ NoDup (finalize_calls es) ∧
  let s := after es in
  started (trace s) ++ execs (chain s) = finalize_calls es ∧
  (forall t1 a t2 b t3, trace s = t1 ++ Began a :: t2 ++ Began b :: t3 -> Ended a ∈ t2) ∧
  (forall w, exists n, forall fuel, n <= fuel ->
     intervals (trace (drain w fuel s)) = one_by_one (finalize_calls es)).
Proof.
  assert (Honce : NoDup (finalize_calls (registered_behind ++ [RunAction "2" hello]))).
  { apply (bool_decide_unpack _). vm_compute. exact I. }
  split; [reflexivity|]. split; [exact Honce|].
  apply (handlers_run_in_finalize_order (registered_behind ++ [RunAction "2" hello]));
    [reflexivity | exact Honce].
Defined.

(** * Further properties of the runner *)

(** ** The lane only knows registered actions *)

Section Registered.
Context {node_path : NodePath}.

Lemma signal_step s e id :
  (is_Some (actions s !! id) -> is_Some (signals s !! id)) ->
  is_Some (actions (step s e) !! id) -> is_Some (signals (step s e) !! id).
Proof.
  intros Hs. destruct e as [id' a|id' a|id'| |w|t]; simpl; try done.
  - unfold addAction. destruct (actions s !! id') eqn:Hid'; [done|]. simpl.
    rewrite !lookup_insert. by case_decide.
  - unfold runAction. destruct (actions s !! id') as [r|]; [|done].
    destruct (executed r); [done|]. simpl. rewrite signals_updateAction.
    intros Hreg%updateAction_dom. by apply Hs.
  - unfold abort. destruct (actions s !! id') eqn:Hid'; [|done]. cbv zeta.
    rewrite signals_updateAction. intros Hreg%updateAction_dom. simpl in *.
    rewrite lookup_insert. case_decide; [done|].
    destruct (listens _ s && negb _); by apply Hs.
  - unfold tick. destruct (current s); [done|].
    destruct (chain s) as [|[id'|id'] rest]; [done|..].
    + rewrite signals_updateAction. intros Hreg%updateAction_dom. by apply Hs.
    + unfold executeAction. destruct (actions (with_chain rest s) !! id'); [|done].
      rewrite signals_proceed. simpl. rewrite signals_updateAction.
      intros Hreg%registered_proceed. simpl in Hreg. apply updateAction_dom in Hreg.
      by apply Hs.
  - unfold resolve. destruct (current s); [|done]. rewrite signals_proceed.
    intros Hreg%registered_proceed. by apply Hs.
Qed.

Lemma signal_run es : forall s id,
  (forall id', is_Some (actions s !! id') -> is_Some (signals s !! id')) ->
  is_Some (actions (run es s) !! id) -> is_Some (signals (run es s) !! id).
Proof.
  induction es as [|e es IH]; intros s id Hs; [apply Hs|].
  simpl. apply IH. intros id'. apply signal_step, Hs.
Qed.

(** X1.  Every identifier that the lane knows, be it in a callback or an
    execution waiting on the promise chain, in the pending [#executeAction]
    or in a handler that was started, has a record in the store, so that no
    [#updateAction] meets a missing record; and a record has its
    [AbortController]. *)
Theorem lane_registered (es : list Event) (id : string)
    (Hknown : id ∈ marks (chain (after es)) ∨ id ∈ execs (chain (after es)) ∨
              busy (after es) = Some id ∨ id ∈ started (trace (after es))) :
  is_Some (actions (after es) !! id) ∧ is_Some (signals (after es) !! id).
Proof.
  pose proof (invariant_after es) as Hinv.
  assert (Hreg : is_Some (actions (after es) !! id)).
  { destruct Hknown as [Hm|[He|[Hb|Hs]]].
    - by apply (inv_marks_registered _ Hinv).
    - by apply invariant_execs_registered.
    - by apply (inv_busy_registered _ Hinv).
    - by apply invariant_started_registered. }
  split; [done|]. apply signal_run; [|done].
  intros id'. simpl. rewrite lookup_empty. by intros []%is_Some_None.
Qed.

End Registered.

Lemma lane_registered_witness :
  busy (after shell_dispatched) = Some "1" ∧
  is_Some (actions (after shell_dispatched) !! "1") ∧
  is_Some (signals (after shell_dispatched) !! "1").
Proof.
  split; [vm_compute; reflexivity|].
  apply (lane_registered shell_dispatched "1"). right. right. left.
  vm_compute. reflexivity.
Defined.

(** ** The action data of a record *)

Lemma proceed_payload p : forall id heard s id',
  exists u, (forall r, payload (u r) = payload r) ∧
            actions (proceed id heard p s) !! id' = u <$> actions s !! id'.
Proof.
  induction p as [a|e|o k IH|k IH|c k IH]; intros id heard s id'; cbn [proceed].
  - destruct (settle_spec id None (with_current None s)) as (_ & _ & _ & _ & _ & _ & ->).
    case_decide; [|exists (fun r => r); by rewrite option_fmap_id].
    by exists (last_update (is_aborted id (with_current None s)) None).
  - destruct (settle_spec id (Some e) (with_current None s)) as (_ & _ & _ & _ & _ & _ & ->).
    case_decide; [|exists (fun r => r); by rewrite option_fmap_id].
    by exists (last_update (is_aborted id (with_current None s)) (Some e)).
  - apply (IH id _ (observe (Did o) s)).
  - apply IH.
  - exists (fun r => r). by rewrite option_fmap_id.
Qed.

Lemma payload_of_proceed p id heard s id' :
  payload_of id' (proceed id heard p s) = payload_of id' s.
Proof.
  unfold payload_of. destruct (proceed_payload p id heard s id') as (u & Hu & ->).
  destruct (actions s !! id'); simpl; [by rewrite Hu | done].
Qed.

Lemma payload_of_updateAction id u s id' :
  (forall r, payload (u r) = payload r) ->
  payload_of id' (updateAction id u s) = payload_of id' s.
Proof.
  intros Hu. unfold payload_of. rewrite lookup_updateAction. case_decide; [|done].
  destruct (actions s !! id'); simpl; [by rewrite Hu | done].
Qed.

Section Payload.
Context {node_path : NodePath}.

Lemma payload_step s e id :
  payload_of id (step s e) = payload_of id s ∨
  (exists a, e = AddAction id a ∧ actions s !! id = None ∧
             payload_of id (step s e) = Some (payload (new_record a))) ∨
  (exists a r, e = RunAction id a ∧ actions s !! id = Some r ∧ executed r = false ∧
               payload_of id (step s e) = Some (payload (spread r a))).
Proof.
  destruct e as [id' a|id' a|id'| |w|t]; simpl; auto.
  - unfold addAction. destruct (actions s !! id') eqn:Hid'; [auto|].
    destruct (decide (id' = id)) as [->|Hne].
    + right. left. exists a. unfold payload_of. simpl. by rewrite lookup_insert_eq.
    + left. unfold payload_of. simpl. by rewrite lookup_insert_ne.
  - unfold runAction. destruct (actions s !! id') as [r|] eqn:Hr; [|auto].
    destruct (executed r) eqn:Hex; [auto|]. simpl.
    destruct (decide (id' = id)) as [->|Hne].
    + right. right. exists a, r. unfold payload_of. simpl.
      rewrite lookup_updateAction, decide_True, Hr by done. by destruct a.
    + left. unfold payload_of. simpl. by rewrite lookup_updateAction, decide_False.
  - left. unfold abort. destruct (actions s !! id'); [|done]. cbv zeta.
    rewrite payload_of_updateAction by done.
    by destruct (listens _ s && negb _).
  - left. unfold tick. destruct (current s); [done|].
    destruct (chain s) as [|[id'|id'] rest]; [done|..].
    + by rewrite payload_of_updateAction.
    + unfold executeAction. destruct (actions (with_chain rest s) !! id'); [|done].
      rewrite payload_of_proceed. unfold payload_of at 1. simpl.
      fold (payload_of id (updateAction id' (set_status running) (with_chain rest s))).
      by rewrite payload_of_updateAction.
  - left. unfold resolve. destruct (current s); [|done]. by rewrite payload_of_proceed.
Qed.

(** X2.  The action data of a record (type, content, path and the contract
    options) changes at two moments only: when [addAction] registers the
    identifier, and when the first [runAction] merges the final data.  A
    repeated [addAction], an [abort], the promise chain and the handlers never
    change it; so once a record is executed, its data is the data that was
    finalized, in every later state. *)
Theorem action_data_changes_at_finalize (es : list Event) (id : string) :
  (forall e, payload_of id (step (after es) e) ≠ payload_of id (after es) ->
     (exists a, e = AddAction id a ∧ actions (after es) !! id = None) ∨
     (exists a, e = RunAction id a ∧ executed_of id (after es) = Some false)) ∧
  (executed_of id (after es) = Some true ->
   forall es', payload_of id (after (es ++ es')) = payload_of id (after es)).
Proof.
  split.
  - intros e Hchange. destruct (payload_step (after es) e id)
      as [Hsame|[(a & -> & Hnone & _)|(a & r & -> & Hr & Hex & _)]]; [done| |].
    + left. by exists a.
    + right. exists a. unfold executed_of. rewrite Hr. simpl. by rewrite Hex.
  - intros Hex es'. unfold after. rewrite run_app. fold (after es).
    generalize dependent (after es). induction es' as [|e es' IH]; intros s Hex; [done|].
    simpl. rewrite IH by by apply executed_of_step_mono.
    destruct (payload_step s e id)
      as [Hsame|[(a & -> & Hnone & _)|(a & r & -> & Hr & Hex' & _)]]; [done|..].
    + unfold executed_of in Hex. by rewrite Hnone in Hex.
    + unfold executed_of in Hex. rewrite Hr in Hex. simpl in Hex. congruence.
Qed.

Lemma well_typed_payload r r' : payload r = payload r' -> well_typed r -> well_typed r'.
Proof. unfold payload, well_typed. intros [= -> _ -> -> _ _ _]. done. Qed.

Lemma well_typed_new_record a : well_typed (new_record a).
Proof. destruct a; unfold well_typed; simpl; eauto. Qed.

Lemma well_typed_spread r a : well_typed (spread r a).
Proof. destruct a; unfold well_typed; simpl; eauto. Qed.

Lemma well_typed_run es : forall s,
  (forall id r, actions s !! id = Some r -> well_typed r) ->
  forall id r, actions (run es s) !! id = Some r -> well_typed r.
Proof.
  induction es as [|e es IH]; intros s Hs; [done|].
  simpl. apply IH. intros id r Hr.
  assert (Hp : payload_of id (step s e) = Some (payload r)).
  { unfold payload_of. by rewrite Hr. }
  destruct (payload_step s e id)
    as [Hsame|[(a & -> & Hnone & Hnew)|(a & r0 & -> & Hr0 & Hex & Hnew)]].
  - rewrite Hsame in Hp. unfold payload_of in Hp.
    destruct (actions s !! id) as [r1|] eqn:Hr1; [|done].
    simpl in Hp. apply (well_typed_payload r1); [congruence | by apply (Hs id)].
  - rewrite Hnew in Hp.
    apply (well_typed_payload (new_record a)); [congruence | apply well_typed_new_record].
  - rewrite Hnew in Hp.
    apply (well_typed_payload (spread r0 a)); [congruence | apply well_typed_spread].
Qed.

(** Every record of the store has the keys of its type: a ['file'] record
    has a [filePath], a ['contract'] record a [filePath] and a [language]. *)
Lemma store_well_typed (es : list Event) (id : string) (r : ActionState)
    (Hrecord : actions (after es) !! id = Some r) :
  well_typed r.
Proof.
  apply (well_typed_run es new_runner) with id; [|done].
  intros id' r'. simpl. by rewrite lookup_empty.
Qed.

End Payload.

Lemma action_data_witness :
  executed_of "1" (after finalized_at_once) = Some true ∧
  forall es', payload_of "1" (after (finalized_at_once ++ es'))
              = payload_of "1" (after finalized_at_once).
Proof.
  split; [vm_compute; reflexivity|].
  apply (action_data_changes_at_finalize finalized_at_once "1"). vm_compute. reflexivity.
Defined.

(** ** Killing the process of a shell action *)

Lemma kills_app t1 t2 : kills (t1 ++ t2) = kills t1 ++ kills t2.
Proof. induction t1 as [|[]]; simpl; congruence. Qed.

Lemma kills_settle id result s : kills (trace (settle id result s)) = kills (trace s).
Proof.
  destruct result; simpl; rewrite trace_updateAction, ?kills_app; simpl;
    by rewrite ?app_nil_r.
Qed.

Lemma kills_proceed p : forall id heard s,
  kills (trace (proceed id heard p s)) = kills (trace s).
Proof.
  induction p as [a|e|o k IH|k IH|c k IH]; intros id heard s; cbn [proceed].
  - by rewrite kills_settle.
  - by rewrite kills_settle.
  - rewrite IH. simpl. by rewrite kills_app, app_nil_r.
  - apply IH.
  - simpl. by rewrite kills_app, app_nil_r.
Qed.

Lemma listeners_app cur cur' t1 t2 :
  lane_after cur t1 = Some cur' ->
  listeners cur (t1 ++ t2) = listeners cur t1 ++ listeners cur' t2.
Proof.
  revert cur. induction t1 as [|o t1 IH]; intros cur; simpl; [by intros [= ->]|].
  destruct o as [id|id|c|e|id|e]; try (by apply IH).
  - destruct cur; [done | apply IH].
  - destruct cur as [id'|]; [|done]. case_decide; [apply IH | done].
  - destruct e; try (by apply IH). destruct cur; [|by apply IH].
    intros Hlane. by rewrite (IH _ Hlane).
Qed.

(** The pending handler that has attached its listener is among the
    listeners of the trace. *)
Lemma listening_proceed p : forall id heard s,
  lane_after None (trace s) = Some (Some id) ->
  (heard = true -> id ∈ listeners None (trace s)) ->
  forall c, current (proceed id heard p s) = Some c -> listening c = true ->
            run_id c ∈ listeners None (trace (proceed id heard p s)).
Proof.
  induction p as [a|e|o k IH|k IH|c' k IH]; intros id heard s Hlane Hheard c; cbn [proceed].
  - by destruct (settle_spec id None (with_current None s)) as (_ & _ & -> & _).
  - by destruct (settle_spec id (Some e) (with_current None s)) as (_ & _ & -> & _).
  - apply IH.
    + simpl. rewrite lane_after_app, Hlane. done.
    + simpl. rewrite (listeners_app None (Some id) _ _ Hlane).
      intros [->|Ho]%orb_prop; [set_solver|]. destruct o; try done. set_solver.
  - by apply IH.
  - simpl. intros [= <-]. simpl. intros ->.
    rewrite (listeners_app None (Some id) _ _ Hlane). set_solver.
Qed.

Section Kill.
Context {node_path : NodePath}.

Lemma listening_step s e :
  invariant s ->
  (forall c, current s = Some c -> listening c = true ->
             run_id c ∈ listeners None (trace s)) ->
  forall c, current (step s e) = Some c -> listening c = true ->
            run_id c ∈ listeners None (trace (step s e)).
Proof.
  intros Hinv Hs. pose proof (inv_lane s Hinv) as Hlane.
  destruct e as [id' a|id' a|id'| |w|t]; simpl; try done.
  - unfold addAction. by destruct (actions s !! id').
  - unfold runAction. destruct (actions s !! id') as [r|]; [|done].
    destruct (executed r); [done|]. simpl.
    by rewrite current_updateAction, trace_updateAction.
  - unfold abort. destruct (actions s !! id'); [|done]. cbv zeta.
    rewrite current_updateAction, trace_updateAction. simpl.
    destruct (listens _ s && negb _); [|done]. simpl.
    rewrite (listeners_app None _ _ _ Hlane). intros c Hc Hl. specialize (Hs c Hc Hl).
    set_solver.
  - unfold tick. destruct (current s) as [c0|] eqn:Hcur.
    { intros c Hc Hl. apply Hs; [|done]. congruence. }
    destruct (chain s) as [|[id'|id'] rest].
    + intros c Hc. by rewrite Hcur in Hc.
    + rewrite current_updateAction. intros c Hc. simpl in Hc. by rewrite Hcur in Hc.
    + unfold executeAction.
      destruct (actions (with_chain rest s) !! id');
        [|intros c Hc; simpl in Hc; by rewrite Hcur in Hc].
      apply listening_proceed; [|done].
      simpl. rewrite trace_updateAction. simpl. rewrite lane_after_app, Hlane.
      unfold busy. by rewrite Hcur.
  - unfold resolve. destruct (current s) as [c0|] eqn:Hcur;
      [|intros c Hc; by rewrite Hcur in Hc].
    apply listening_proceed; [|by apply Hs].
    rewrite Hlane. unfold busy. by rewrite Hcur.
Qed.

Lemma listening_run es : forall s,
  invariant s ->
  (forall c, current s = Some c -> listening c = true ->
             run_id c ∈ listeners None (trace s)) ->
  forall c, current (run es s) = Some c -> listening c = true ->
            run_id c ∈ listeners None (trace (run es s)).
Proof.
  induction es as [|e es IH]; intros s Hinv Hs; [done|].
  simpl. apply IH; [by apply invariant_step | by apply listening_step].
Qed.

(** What [abort] adds to the kills: the identifier, when its signal has the
    listener and is not yet aborted. *)
Lemma kills_step s e id :
  id ∈ kills (trace (step s e)) ->
  id ∈ kills (trace s) ∨ (e = Abort id ∧ is_aborted id s = false ∧ listens id s = true ∧
                          is_Some (actions s !! id)).
Proof.
  destruct e as [id' a|id' a|id'| |w|t]; simpl; auto.
  - unfold addAction. destruct (actions s !! id'); auto.
  - unfold runAction. destruct (actions s !! id') as [r|]; [|auto].
    destruct (executed r); [auto|]. simpl. rewrite trace_updateAction. auto.
  - unfold abort. destruct (actions s !! id') eqn:Hid'; [|auto]. cbv zeta.
    rewrite trace_updateAction. simpl.
    destruct (listens id' s) eqn:Hl; [|auto].
    destruct (is_aborted id' s) eqn:Hab; [auto|]. simpl.
    rewrite kills_app. simpl. intros [Hin|Hin]%elem_of_app; [auto|].
    apply list_elem_of_singleton in Hin as ->.
    right. rewrite Hid'. by eauto.
  - unfold tick. destruct (current s); [auto|].
    destruct (chain s) as [|[id'|id'] rest]; [auto|..].
    + rewrite trace_updateAction. auto.
    + unfold executeAction. destruct (actions (with_chain rest s) !! id'); [|auto].
      rewrite kills_proceed. simpl. rewrite trace_updateAction, kills_app. simpl.
      rewrite app_nil_r. auto.
  - unfold resolve. destruct (current s); [|auto]. rewrite kills_proceed. auto.
Qed.

Lemma kills_abort s id :
  kills (trace (abort id s))
  = kills (trace s) ++
    (if is_Some_dec (actions s !! id)
     then if listens id s && negb (is_aborted id s) then [id] else []
     else []).
Proof.
  unfold abort. destruct (actions s !! id) as [r|]; simpl; [|by rewrite app_nil_r].
  rewrite trace_updateAction. simpl.
  destruct (listens id s && negb (is_aborted id s)); simpl;
    [by rewrite kills_app | by rewrite app_nil_r].
Qed.

Lemma kills_nodup_step s e :
  invariant s ->
  NoDup (kills (trace s)) ∧ (forall id, id ∈ kills (trace s) -> is_aborted id s = true) ->
  NoDup (kills (trace (step s e))) ∧
  (forall id, id ∈ kills (trace (step s e)) -> is_aborted id (step s e) = true).
Proof.
  intros Hinv [Hnodup Hab]. split.
  - destruct e as [id' a|id' a|id'| |w|t]; simpl; auto.
    + unfold addAction. by destruct (actions s !! id').
    + unfold runAction. destruct (actions s !! id') as [r|]; [|done].
      destruct (executed r); [done|]. simpl. by rewrite trace_updateAction.
    + rewrite kills_abort. destruct (is_Some_dec _); [|by rewrite app_nil_r].
      destruct (listens id' s); simpl; [|by rewrite app_nil_r].
      destruct (is_aborted id' s) eqn:Hab'; simpl; [by rewrite app_nil_r|].
      apply NoDup_app. repeat split; [done | | apply NoDup_singleton].
      intros id Hin ->%list_elem_of_singleton. apply Hab in Hin. congruence.
    + unfold tick. destruct (current s); [done|].
      destruct (chain s) as [|[id'|id'] rest]; [done|..].
      * by rewrite trace_updateAction.
      * unfold executeAction. destruct (actions (with_chain rest s) !! id'); [|done].
        rewrite kills_proceed. simpl. rewrite trace_updateAction, kills_app. simpl.
        by rewrite app_nil_r.
    + unfold resolve. destruct (current s); [|done]. by rewrite kills_proceed.
  - intros id Hin. destruct (kills_step s e id Hin) as [Hold|(-> & _ & _ & [r Hr])].
    + by apply is_aborted_step_mono, Hab.
    + simpl. unfold abort. rewrite Hr.
      cbv zeta. rewrite is_aborted_updateAction. unfold is_aborted. simpl.
      by rewrite lookup_insert_eq.
Qed.

Lemma kills_nodup_run es : forall s,
  invariant s ->
  NoDup (kills (trace s)) ∧ (forall id, id ∈ kills (trace s) -> is_aborted id s = true) ->
  NoDup (kills (trace (run es s))) ∧
  (forall id, id ∈ kills (trace (run es s)) -> is_aborted id (run es s) = true).
Proof.
  induction es as [|e es IH]; intros s Hinv Hk; [done|].
  simpl. apply IH; [by apply invariant_step | by apply kills_nodup_step].
Qed.

(** X4.  The process of a shell action is killed at most once, and only for
    an action whose [abort] was invoked: repeated [abort] calls do not kill
    again.  The listener that [#runShellAction] attaches to the signal is
    never removed: the first [abort] of an action whose handler has attached
    it calls [process.kill()], also when the handler has ended long before.
    And when [abort] is invoked before the listener is attached (the
    process is not yet spawned), the process is never killed, whatever
    happens later: the listener is attached to a signal that has already
    fired. *)
Theorem process_killed_at_most_once (es : list Event) (id : string) :
  NoDup (kills (trace (after es))) ∧
  (id ∈ kills (trace (after es)) -> is_aborted id (after es) = true) ∧
  (is_aborted id (after es) = false -> listens id (after es) = true ->
   kills (trace (after (es ++ [Abort id]))) = kills (trace (after es)) ++ [id]) ∧
  (is_aborted id (after es) = true -> id ∉ kills (trace (after es)) ->
   forall es', id ∉ kills (trace (after (es ++ es')))).
Proof.
  assert (Hk : NoDup (kills (trace (after es))) ∧
               forall id', id' ∈ kills (trace (after es)) -> is_aborted id' (after es) = true).
  { apply kills_nodup_run; [apply invariant_new_runner|]. split; [constructor|].
    intros id' Hin. simpl in Hin. by apply elem_of_nil in Hin. }
  destruct Hk as [Hnodup Hab]. split; [done|]. split; [apply Hab|]. split.
  - intros Hfirst Hlistens. unfold after. rewrite run_app. fold (after es). simpl.
    rewrite kills_abort, Hlistens, Hfirst. simpl.
    destruct (is_Some_dec _) as [|Hnone]; [done|]. destruct Hnone.
    apply (invariant_started_registered _ _ (invariant_after es)).
    apply bool_decide_eq_true_1 in Hlistens.
    by apply listeners_started in Hlistens as [[=]|?].
  - intros Haborted Hnot es'. unfold after. rewrite run_app. fold (after es).
    pose proof (invariant_after es) as Hinv.
    clear Hnodup Hab. generalize dependent (after es).
    induction es' as [|e es' IH]; intros s Haborted Hnot Hinv; [done|].
    simpl. apply IH; [by apply is_aborted_step_mono | | by apply invariant_step].
    intros Hin. destruct (kills_step s e id Hin) as [?|(_ & Hna & _)]; [done | congruence].
Qed.

End Kill.

Lemma process_killed_witness :
  let ended := shell_dispatched ++ [Resolve calm; Resolve calm; Resolve calm] in
  let early := [AddAction "1" sleep; RunAction "1" sleep; Tick; Tick; Abort "1"] in
  (status_of "1" (after ended) = Some complete ∧
   kills (trace (after ended)) = [] ∧
   kills (trace (after (ended ++ [Abort "1"]))) = ["1"] ∧
   kills (trace (after (ended ++ [Abort "1"; Abort "1"]))) = ["1"]) ∧
  (is_aborted "1" (after early) = true ∧ "1" ∉ kills (trace (after early)) ∧
   forall es', "1" ∉ kills (trace (after (early ++ es')))).
Proof.
  split.
  - split; [vm_compute; reflexivity|]. split; [vm_compute; reflexivity|].
    split; [|vm_compute; reflexivity].
    destruct (process_killed_at_most_once
                (shell_dispatched ++ [Resolve calm; Resolve calm; Resolve calm]) "1")
      as (_ & _ & Hkill & _).
    rewrite Hkill; vm_compute; reflexivity.
  - assert (Hnot : "1" ∉ kills (trace (after
              [AddAction "1" sleep; RunAction "1" sleep; Tick; Tick; Abort "1"]))).
    { vm_compute. apply not_elem_of_nil. }
    split; [vm_compute; reflexivity|]. split; [exact Hnot|].
    apply (process_killed_at_most_once
             [AddAction "1" sleep; RunAction "1" sleep; Tick; Tick; Abort "1"] "1");
      [vm_compute; reflexivity | exact Hnot].
Defined.

Section AbortRunning.
Context {node_path : NodePath}.

Lemma spares_unaborted id es : spares id es = true -> Forall (fun e => e ≠ Abort id) es.
Proof.
  induction es as [|e es IH]; simpl; [constructor|].
  intros [He Hes]%andb_prop. constructor; [|by apply IH].
  destruct e; try done. apply bool_decide_eq_true_1 in He. congruence.
Qed.

Lemma is_aborted_run_mono es : forall s id,
  invariant s -> is_aborted id s = true -> is_aborted id (run es s) = true.
Proof.
  induction es as [|e es IH]; intros s id Hinv Hab; [done|].
  simpl. apply IH; [by apply invariant_step | by apply is_aborted_step_mono].
Qed.

(** X5.  Cancelling a running shell action.  When [abort] is invoked for the
    first time on a shell action whose process has been spawned, the process
    is killed and the status of the record is ['aborted'] at once; when the
    process then exits, with whatever exit code, the handler returns and the
    action ends ['aborted'].  The events [x1] to [x4] are whatever else
    reaches the runner while the handler is suspended. *)
Theorem abort_kills_running_shell (es : list Event) (id : string) (q : list Reaction)
    (r : ActionState) (w : World) (x1 x2 x3 x4 : list Event) (exitCode : Z)
    (Hidle : current (after es) = None) (Hnext : chain (after es) = Execute id :: q)
    (Hrecord : actions (after es) !! id = Some r) (Hshell : type r = shell)
    (Hfirst : is_aborted id (after es) = false)
    (Hx1 : unsettled x1 = true) (Hx2 : unsettled x2 = true)
    (Hx3 : unsettled x3 = true) (Hx4 : unsettled x4 = true)
    (Hs1 : spares id x1 = true) (Hs2 : spares id x2 = true) (Hs3 : spares id x3 = true)
    (Hsandbox : w CWebcontainer = Fulfilled tt)
    (Hspawn : w (CSpawn "jsh" ["-c"; content r]) = Fulfilled tt)
    (Hexit : w CExit = Fulfilled exitCode) :
  let s1 := run (Tick :: settling w [x1; x2] ++ x3 ++ [Abort id]) (after es) in
  let s2 := run (x4 ++ [Resolve w]) s1 in
  Killed id ∈ trace s1 ∧ status_of id s1 = Some aborted ∧
  status_of id s2 = Some aborted ∧ Ended id ∈ trace s2 ∧
  current s2 = None.
Proof.
  set (s := after es) in *.
  pose proof (tick_execute id q r s Hidle Hnext Hrecord) as Htick.
  unfold handler, runShellAction in Htick. rewrite Hshell in Htick.
  cbn -[settle run updateAction] in Htick.
  set (before := Tick :: settling w [x1; x2] ++ x3).
  assert (Hinv : invariant (run before s)) by apply invariant_run, invariant_after.
  assert (Hna : is_aborted id (run before s) = false).
  { apply is_aborted_run_unaborted; [|done]. unfold before, settling. simpl.
    constructor; [done|]. rewrite !Forall_app.
    repeat split; try (by apply spares_unaborted); by repeat constructor. }
  assert (Hreg : is_Some (actions (run before s) !! id)).
  { apply registered_run. by rewrite Hrecord. }
  assert (exists k, current (run before s)
                    = Some (mkSuspended id CExit k true) ∧
                    k (Fulfilled exitCode)
                    = effect (LoggerDebug "Process terminated with code")) as (k & Hcur & Hk).
  { unfold before. schedule. rewrite Htick.
    settles x1 Hx1 Hsandbox. settles x2 Hx2 Hspawn.
    eexists. split; [by apply current_unsettled|]. done. }
  cbv zeta. change (Tick :: settling w [x1; x2] ++ x3 ++ [Abort id])
    with (Tick :: (settling w [x1; x2] ++ x3 ++ [Abort id])).
  replace (Tick :: (settling w [x1; x2] ++ x3 ++ [Abort id]))
    with (before ++ [Abort id]) by (unfold before; simpl; by rewrite <- !app_assoc).
  clearbody before.
  assert (Hs1' : run (before ++ [Abort id]) s =
                 updateAction id (set_status aborted)
                   (with_signals <[id := true]> (observe (Killed id) (run before s)))).
  { assert (Hlistens : listens id (run before s) = true).
    { apply bool_decide_eq_true_2.
      apply (listening_run before s (invariant_after es)
               (listening_run es new_runner invariant_new_runner
                  (fun c (H : None = Some c) => match H with end))
               _ Hcur eq_refl). }
    rewrite run_app. simpl. unfold abort. destruct Hreg as [r' ->]. cbv zeta.
    by rewrite Hlistens, Hna. }
  assert (Hinv1 : invariant (run (before ++ [Abort id]) s)) by apply invariant_run, invariant_after.
  assert (Hab1 : is_aborted id (run (before ++ [Abort id]) s) = true).
  { rewrite Hs1'. rewrite is_aborted_updateAction. unfold is_aborted. simpl.
    by rewrite lookup_insert_eq. }
  assert (Hreg1 : is_Some (actions (run (before ++ [Abort id]) s) !! id)).
  { apply registered_run. by rewrite Hrecord. }
  assert (Hcur1 : current (run (before ++ [Abort id]) s)
                  = Some (mkSuspended id CExit k true)).
  { rewrite Hs1', current_updateAction. done. }
  split; [|split].
  - rewrite Hs1', trace_updateAction. simpl. set_solver.
  - rewrite Hs1', status_of_updateAction, decide_True by done. simpl.
    by destruct Hreg as [r' ->].
  - generalize dependent (run (before ++ [Abort id]) s). intros s1 _ Hinv1 Hab1 Hreg1 Hcur1.
    rewrite run_app. simpl.
    rewrite (resolve_after x4 w s1 _ Hx4 Hcur1). cbn [run_id listening resume awaiting].
    rewrite Hexit, Hk. cbn -[settle run updateAction].
    assert (Hreg2 : is_Some (actions (with_current None
               (observe (Did (LoggerDebug "Process terminated with code")) (run x4 s1))) !! id)).
    { simpl. by apply registered_run. }
    rewrite (settled_status id None _ Hreg2).
    destruct (settle_spec id None (with_current None
                (observe (Did (LoggerDebug "Process terminated with code")) (run x4 s1))))
      as (_ & Hsig & Hcur2 & _).
    unfold is_aborted at 1. rewrite Hsig. simpl.
    fold (is_aborted id (run x4 s1)).
    rewrite (is_aborted_run_mono x4 s1 id Hinv1 Hab1).
    repeat split; [|done]. simpl. rewrite trace_updateAction. set_solver.
Qed.

End AbortRunning.

Lemma abort_kills_witness :
  let es := [AddAction "1" sleep; RunAction "1" sleep; Tick] in
  let s1 := run (Tick :: settling calm [[]; []] ++ [Clock "noon"] ++ [Abort "1"]) (after es) in
  let s2 := run ([] ++ [Resolve calm]) s1 in
  current (after es) = None ∧ is_aborted "1" (after es) = false ∧
  Killed "1" ∈ trace s1 ∧ status_of "1" s1 = Some aborted ∧
  status_of "1" s2 = Some aborted ∧ Ended "1" ∈ trace s2 ∧
  current s2 = None.
Proof.
  cbv zeta. split; [vm_compute; reflexivity|]. split; [vm_compute; reflexivity|].
  exact (abort_kills_running_shell [AddAction "1" sleep; RunAction "1" sleep; Tick] "1" []
           (set_executed (set_status running (new_record sleep))) calm
           [] [] [Clock "noon"] [] 0%Z
           eq_refl eq_refl eq_refl eq_refl eq_refl eq_refl eq_refl eq_refl eq_refl
           eq_refl eq_refl eq_refl eq_refl eq_refl eq_refl).
Defined.

(** ** A handler that runs undisturbed *)

Lemma observes_nil s : observes [] s = s.
Proof. destruct s. unfold observes. simpl. by rewrite app_nil_r. Qed.

Lemma observes_cons o obs s : observes (o :: obs) s = observes obs (observe o s).
Proof. unfold observes, observe. simpl. by rewrite <- app_assoc. Qed.

Lemma bounded_awaits w t p : forall n, bounded n p -> awaits w t p <= n.
Proof.
  induction p as [a|e|o k IH|k IH|c k IH]; intros n Hbd; simpl in *; try lia; auto.
  destruct n as [|n]; [done|]. specialize (IH (w c) n (Hbd (w c))). lia.
Qed.

Section Undisturbed.
Context {node_path : NodePath}.

Lemma run_resolve_idle w n : forall s,
  current s = None -> run (replicate n (Resolve w)) s = s.
Proof.
  induction n as [|n IH]; intros s Hidle; [done|].
  simpl. unfold resolve. rewrite Hidle. by apply IH.
Qed.

Lemma current_settle id result s : current (settle id result s) = current s.
Proof. by destruct (settle_spec id result s) as (_ & _ & -> & _). Qed.

Lemma proceed_with_current p : forall id heard c s,
  proceed id heard p (with_current c s) = proceed id heard p s.
Proof.
  induction p as [a|e|o k IH|k IH|c' k IH]; intros id heard c s; cbn [proceed]; try done.
  apply (IH id _ c (observe (Did o) s)).
Qed.

(** The promises that a handler awaits settle one after the other, and
    nothing else happens: the runner ends where [perform] says. *)
Lemma run_undisturbed w p : forall n id heard s,
  awaits w (time s) p <= n ->
  run (replicate n (Resolve w)) (proceed id heard p s)
  = settle id (perform w (time s) p).2
      (with_current None (observes (perform w (time s) p).1 s)).
Proof.
  induction p as [a|e|o k IH|k IH|c k IH]; intros n id heard s Hn; cbn [proceed].
  - cbn [perform fst snd]. rewrite observes_nil. apply run_resolve_idle.
    by rewrite current_settle.
  - cbn [perform fst snd]. rewrite observes_nil. apply run_resolve_idle.
    by rewrite current_settle.
  - rewrite (IH n id _ (observe (Did o) s)) by done.
    change (time (observe (Did o) s)) with (time s). cbn [perform].
    destruct (perform w (time s) k) as [obs result]. cbn [fst snd].
    by rewrite observes_cons.
  - by rewrite (IH (time s) n id heard s).
  - cbn [awaits] in Hn. destruct n as [|n]; [lia|].
    cbn [replicate]. rewrite run_cons. cbn [step]. unfold resolve.
    cbn [current with_current run_id listening resume awaiting].
    rewrite proceed_with_current.
    rewrite (IH (w c) n id heard (observe (Called c) s)) by (cbn [time observe]; lia).
    change (time (observe (Called c) s)) with (time s). cbn [perform].
    destruct (perform w (time s) (k (w c))) as [obs result]. cbn [fst snd].
    by rewrite observes_cons.
Qed.

End Undisturbed.

Lemma writes_app t1 t2 : writes (t1 ++ t2) = writes t1 ++ writes t2.
Proof. induction t1 as [|[| |[]| | |]]; simpl; congruence. Qed.

Lemma calls_app t1 t2 : calls (t1 ++ t2) = calls t1 ++ calls t2.
Proof. induction t1 as [|[]]; simpl; congruence. Qed.

Section BigStep.
Context {node_path : NodePath}.

Lemma run_execution (s : Runner) (id : string) (q : list Reaction)
    (r : ActionState) (w : World)
    (Hidle : current s = None) (Hnext : chain s = Execute id :: q)
    (Hrecord : actions s !! id = Some r) :
  let s' := run (Tick :: replicate 9 (Resolve w)) s in
  let obs := (perform w (time s) (handler r)).1 in
  let result := (perform w (time s) (handler r)).2 in
  trace s' = trace s ++ Began id :: obs ++
             match result with Some e => [Caught e] | None => [] end ++ [Ended id] ∧
  actions s' !! id =
    Some (match result with
          | None => set_status (if is_aborted id s then aborted else complete) r
          | Some _ => set_failed "Action failed" r
          end) ∧
  (forall id', id' ≠ id -> actions s' !! id' = actions s !! id') ∧
  current s' = None ∧ chain s' = q ∧ signals s' = signals s ∧ time s' = time s.
Proof.
  cbv zeta. rewrite run_cons. cbn [step].
  rewrite (tick_execute id q r s Hidle Hnext Hrecord).
  rewrite run_undisturbed.
  2:{ apply bounded_awaits, bounded_handler. }
  change (time (observe (Began id) (updateAction id (set_status running) (with_chain q s))))
    with (time (updateAction id (set_status running) (with_chain q s))).
  rewrite time_updateAction. change (time (with_chain q s)) with (time s).
  destruct (perform w (time s) (handler r)) as [obs result]. cbn [fst snd].
  set (s0 := with_current None _).
  destruct (settle_spec id result s0) as (Hchain & Hsig & Hcur & Htime & _ & _ & Hact).
  assert (Hact0 : forall id', actions s0 !! id' =
            if decide (id = id') then Some (set_status running r) else actions s !! id').
  { intros id'. unfold s0. simpl. rewrite lookup_updateAction. simpl.
    case_decide; [subst; by rewrite Hrecord | done]. }
  repeat split.
  - unfold s0. destruct result; simpl; rewrite !trace_updateAction; simpl;
      rewrite <- ?app_assoc; simpl; rewrite <- ?app_assoc, ?trace_updateAction; done.
  - rewrite Hact, decide_True, Hact0, decide_True by done. simpl.
    unfold is_aborted, s0. simpl. rewrite signals_updateAction. by destruct result.
  - intros id' Hne. rewrite Hact, decide_False, Hact0, decide_False by done. done.
  - rewrite Hcur. done.
  - rewrite Hchain. unfold s0. simpl. by rewrite chain_updateAction.
  - rewrite Hsig. unfold s0. simpl. by rewrite signals_updateAction.
  - rewrite Htime. unfold s0. simpl. by rewrite time_updateAction.
Qed.

(** X6.  One execution, undisturbed.  When the chain reaches the execution of
    [id] and nothing else happens while its handler is suspended, nine
    settled promises are enough for the handler to end, and the runner is
    then as [perform] says: the trace has grown by the begin mark, the calls
    and effects of the handler, the caught error if it threw, and the end
    mark; the status of the record is ['failed'] if the handler threw,
    ['aborted'] if it returned and the signal was aborted, ['complete']
    otherwise; the other records, the signals and the rest of the chain are
    untouched. *)
Theorem execution_undisturbed (s : Runner) (id : string) (q : list Reaction)
    (r : ActionState) (w : World)
    (Hidle : current s = None) (Hnext : chain s = Execute id :: q)
    (Hrecord : actions s !! id = Some r) :
  let s' := run (Tick :: replicate 9 (Resolve w)) s in
  let obs := (perform w (time s) (handler r)).1 in
  let result := (perform w (time s) (handler r)).2 in
  trace s' = trace s ++ Began id :: obs ++
             match result with Some e => [Caught e] | None => [] end ++ [Ended id] ∧
  actions s' !! id =
    Some (match result with
          | None => set_status (if is_aborted id s then aborted else complete) r
          | Some _ => set_failed "Action failed" r
          end) ∧
  (forall id', id' ≠ id -> actions s' !! id' = actions s !! id') ∧
  current s' = None ∧ chain s' = q ∧ signals s' = signals s ∧ time s' = time s.
Proof. exact (run_execution s id q r w Hidle Hnext Hrecord). Qed.

End BigStep.

Lemma execution_undisturbed_witness :
  let s := after contract_dispatched in
  let r := set_executed (set_status running (new_record c_sol)) in
  let w := compiler_says rejected_source in
  let s' := run (Tick :: replicate 9 (Resolve w)) s in
  current s = None ∧ chain s = [Execute "3"] ∧ actions s !! "3" = Some r ∧
  actions s' !! "3" = Some (set_failed "Action failed" r) ∧
  current s' = None ∧ chain s' = [].
Proof.
  cbv zeta. split; [vm_compute; reflexivity|]. split; [vm_compute; reflexivity|].
  split; [vm_compute; reflexivity|].
  pose proof (execution_undisturbed (after contract_dispatched) "3" []
                (set_executed (set_status running (new_record c_sol)))
                (compiler_says rejected_source) eq_refl eq_refl eq_refl) as H.
  cbv zeta in H. destruct H as (_ & Hrecord & _ & Hidle & Hchain & _).
  split; [exact Hrecord|]. split; [exact Hidle | exact Hchain].
Defined.

(** ** Contract actions *)

Section ContractArtifacts.
Context {node_path : NodePath}.

Lemma attempted_accepted (w : World) (files : list (string * FileData)) :
  (forall p d, w (CWriteFile p d) = Fulfilled tt) ->
  attempted w files = files ∧ refusal w files = None.
Proof.
  intros Hw. induction files as [|[p d] files [IH1 IH2]]; [done|].
  cbn. rewrite Hw. by rewrite IH1, IH2.
Qed.

(** What [#runContractAction] does once the source is read and the
    compiler has answered [success: true]. *)
Lemma perform_compiled (r : ActionState) (path source t : string)
    (result : CompilationResult) (w : World)
    (Hcontract : type r = contract) (Hpath : filePath r = Some path)
    (Himport : w CImportCompiler = Fulfilled tt)
    (Hsandbox : w CWebcontainer = Fulfilled tt)
    (Hread : w (CReadFile path) = Fulfilled source)
    (Hcompile : w (CCompile source (language r) path (optimize r)) = Fulfilled result)
    (Hsuccess : success result = true) :
  let files := artifacts r path
                 (join (or_default (outputDir r) "contracts/artifacts")
                    (basename path (extname path))) t result in
  writes (perform w t (handler r)).1 = attempted w files ∧
  (perform w t (handler r)).2 = refusal w files.
Proof.
  cbv zeta. unfold handler, runContractAction, write_artifacts, artifacts.
  rewrite Hcontract, Hpath.
  cbn; rewrite Himport; cbn; rewrite Hsandbox; cbn; rewrite Hread; cbn;
    rewrite Hcompile; cbn; rewrite Hsuccess.
  destruct (w (CMkdir (or_default (outputDir r) "contracts/artifacts"))) as [[]|e];
    destruct (truthy (bytecode result)), (abi result) as [entries|],
      (truthy (metadata result)), (non_empty (warnings result));
    repeat (cbn; match goal with
                 | |- context [w (CWriteFile ?p ?d)] =>
                     destruct (w (CWriteFile p d)) as [[]|?]
                 end);
    done.
Qed.

Lemma run_compiled (s : Runner) (id : string) (q : list Reaction)
    (r : ActionState) (path source : string) (result : CompilationResult) (w : World)
    (Hidle : current s = None) (Hnext : chain s = Execute id :: q)
    (Hrecord : actions s !! id = Some r)
    (Hcontract : type r = contract) (Hpath : filePath r = Some path)
    (Himport : w CImportCompiler = Fulfilled tt)
    (Hsandbox : w CWebcontainer = Fulfilled tt)
    (Hread : w (CReadFile path) = Fulfilled source)
    (Hcompile : w (CCompile source (language r) path (optimize r)) = Fulfilled result)
    (Hsuccess : success result = true) :
  let files := artifacts r path
                 (join (or_default (outputDir r) "contracts/artifacts")
                    (basename path (extname path))) (time s) result in
  let s' := run (Tick :: replicate 9 (Resolve w)) s in
  writes (trace s') = writes (trace s) ++ attempted w files ∧
  actions s' !! id =
    Some (match refusal w files with
          | None => set_status (if is_aborted id s then aborted else complete) r
          | Some _ => set_failed "Action failed" r
          end).
Proof.
  destruct (run_execution s id q r w Hidle Hnext Hrecord) as (Htrace & Hact & _).
  destruct (perform_compiled r path source (time s) result w Hcontract Hpath
              Himport Hsandbox Hread Hcompile Hsuccess) as [Hwritten Hresult].
  cbv zeta in *. split.
  - rewrite Htrace. rewrite writes_app. f_equal. cbn [writes].
    rewrite writes_app, Hwritten. destruct (perform w (time s) (handler r)).2; cbn;
      by rewrite app_nil_r.
  - rewrite Hact, Hresult. done.
Qed.

(** X7.  A contract that compiles.  When the compiler returns [success: true]
    and the sandbox accepts every write, the handler writes, in this order,
    the bytecode to [.bin] if it is a non-empty string, the ABI to
    [.abi.json] if there is one, the metadata to [.metadata.json] if it is a
    non-empty string, and always the report to [.report.json] (with
    [success: true], the warnings and the time of compilation), all under
    [join(outputDir, basename)]; it writes nothing else, whether or not the
    output folder could be created; and the action ends ['complete']
    (['aborted'] if its signal was aborted). *)
Theorem compiled_contract_artifacts (s : Runner) (id : string) (q : list Reaction)
    (r : ActionState) (path source : string) (result : CompilationResult) (w : World)
    (Hidle : current s = None) (Hnext : chain s = Execute id :: q)
    (Hrecord : actions s !! id = Some r)
    (Hcontract : type r = contract) (Hpath : filePath r = Some path)
    (Himport : w CImportCompiler = Fulfilled tt)
    (Hsandbox : w CWebcontainer = Fulfilled tt)
    (Hread : w (CReadFile path) = Fulfilled source)
    (Hcompile : w (CCompile source (language r) path (optimize r)) = Fulfilled result)
    (Hsuccess : success result = true)
    (Hwrites : forall p d, w (CWriteFile p d) = Fulfilled tt) :
  let dir := or_default (outputDir r) "contracts/artifacts" in
  let out := join dir (basename path (extname path)) in
  let s' := run (Tick :: replicate 9 (Resolve w)) s in
  writes (trace s') = writes (trace s) ++ artifacts r path out (time s) result ∧
  status_of id s' = Some (if is_aborted id s then aborted else complete).
Proof.
  destruct (run_compiled s id q r path source result w Hidle Hnext Hrecord Hcontract
              Hpath Himport Hsandbox Hread Hcompile Hsuccess) as [Hwritten Hact].
  cbv zeta in *.
  destruct (attempted_accepted w
              (artifacts r path (join (or_default (outputDir r) "contracts/artifacts")
                                   (basename path (extname path))) (time s) result)
              Hwrites) as [Hall Hnone].
  rewrite Hall in Hwritten. rewrite Hnone in Hact. split; [done|].
  unfold status_of. by rewrite Hact.
Qed.

(** X8.  A refused write ends a contract action.  When the compiler returns
    [success: true], the artifacts are written one after the other; the
    first write that the sandbox refuses is the last one attempted, and the
    action is then ['failed'] with the error ['Action failed'], although the
    contract compiled; the artifacts written before it stay in the sandbox.
    When no write is refused the action ends ['complete'] (['aborted'] if
    its signal was aborted). *)
Theorem refused_write_fails_contract (s : Runner) (id : string) (q : list Reaction)
    (r : ActionState) (path source : string) (result : CompilationResult) (w : World)
    (Hidle : current s = None) (Hnext : chain s = Execute id :: q)
    (Hrecord : actions s !! id = Some r)
    (Hcontract : type r = contract) (Hpath : filePath r = Some path)
    (Himport : w CImportCompiler = Fulfilled tt)
    (Hsandbox : w CWebcontainer = Fulfilled tt)
    (Hread : w (CReadFile path) = Fulfilled source)
    (Hcompile : w (CCompile source (language r) path (optimize r)) = Fulfilled result)
    (Hsuccess : success result = true) :
  let dir := or_default (outputDir r) "contracts/artifacts" in
  let files := artifacts r path (join dir (basename path (extname path))) (time s) result in
  let s' := run (Tick :: replicate 9 (Resolve w)) s in
  writes (trace s') = writes (trace s) ++ attempted w files ∧
  (refusal w files = None ->
   status_of id s' = Some (if is_aborted id s then aborted else complete)) ∧
  (is_Some (refusal w files) ->
   status_of id s' = Some failed ∧ error_of id s' = Some "Action failed").
Proof.
  destruct (run_compiled s id q r path source result w Hidle Hnext Hrecord Hcontract
              Hpath Himport Hsandbox Hread Hcompile Hsuccess) as [Hwritten Hact].
  cbv zeta in *. split; [done|]. unfold status_of, error_of. rewrite Hact.
  split.
  - by intros ->.
  - by intros [e ->].
Qed.

End ContractArtifacts.

Lemma compiled_contract_witness :
  let s := after contract_dispatched in
  let r := set_executed (set_status running (new_record c_sol)) in
  let w := compiler_says compiled in
  let s' := run (Tick :: replicate 9 (Resolve w)) s in
  current s = None ∧ chain s = [Execute "3"] ∧ actions s !! "3" = Some r ∧
  writes (trace s') =
    [("contracts/artifacts/C.bin", Text "6080");
     ("contracts/artifacts/C.abi.json", JsonAbi []);
     ("contracts/artifacts/C.report.json",
      JsonReport (mkReport true "C.sol" (Some solidity) None [] None ""))] ∧
  status_of "3" s' = Some complete.
Proof.
  cbv zeta. split; [vm_compute; reflexivity|]. split; [vm_compute; reflexivity|].
  split; [vm_compute; reflexivity|].
  pose proof (compiled_contract_artifacts (after contract_dispatched) "3" []
                (set_executed (set_status running (new_record c_sol)))
                "C.sol" "contract C {" compiled (compiler_says compiled)
                eq_refl eq_refl eq_refl eq_refl eq_refl eq_refl eq_refl eq_refl eq_refl
                eq_refl (fun _ _ => eq_refl)) as H.
  cbv zeta in H. destruct H as [Hwrites Hstatus].
  split; [exact Hwrites | exact Hstatus].
Defined.

Lemma refused_write_witness :
  let s := after contract_dispatched in
  let r := set_executed (set_status running (new_record c_sol)) in
  let w := read_only compiled in
  let s' := run (Tick :: replicate 9 (Resolve w)) s in
  current s = None ∧ chain s = [Execute "3"] ∧ actions s !! "3" = Some r ∧
  writes (trace s') = [("contracts/artifacts/C.bin", Text "6080")] ∧
  status_of "3" s' = Some failed ∧ error_of "3" s' = Some "Action failed".
Proof.
  cbv zeta. split; [vm_compute; reflexivity|]. split; [vm_compute; reflexivity|].
  split; [vm_compute; reflexivity|].
  pose proof (refused_write_fails_contract (after contract_dispatched) "3" []
                (set_executed (set_status running (new_record c_sol)))
                "C.sol" "contract C {" compiled (read_only compiled)
                eq_refl eq_refl eq_refl eq_refl eq_refl eq_refl eq_refl eq_refl eq_refl
                eq_refl) as H.
  cbv zeta in H. destruct H as (Hwrites & _ & Hfailed).
  split; [exact Hwrites|]. apply Hfailed. vm_compute. by eexists.
Defined.

Section ContractPreparation.
Context {node_path : NodePath}.

Lemma run_unprepared (s : Runner) (id : string) (q : list Reaction)
    (r : ActionState) (path : string) (w : World)
    (Hidle : current s = None) (Hnext : chain s = Execute id :: q)
    (Hrecord : actions s !! id = Some r)
    (Hcontract : type r = contract) (Hpath : filePath r = Some path)
    (Hrejected : existsb (fun c => is_rejected (w c)) (preparation w r path) = true) :
  let s' := run (Tick :: replicate 9 (Resolve w)) s in
  calls (trace s') = calls (trace s) ++ tried w (preparation w r path) ∧
  writes (trace s') = writes (trace s) ∧
  status_of id s' = Some failed ∧ error_of id s' = Some "Action failed".
Proof.
  destruct (run_execution s id q r w Hidle Hnext Hrecord) as (Htrace & Hact & _).
  cbv zeta in *.
  assert (Hperform :
    calls (perform w (time s) (handler r)).1 = tried w (preparation w r path) ∧
    writes (perform w (time s) (handler r)).1 = [] ∧
    is_Some (perform w (time s) (handler r)).2).
  { revert Hrejected. unfold handler, runContractAction, preparation.
    rewrite Hcontract, Hpath. cbn.
    destruct (w CImportCompiler) as [[]|e1]; cbn; [|by eauto].
    destruct (w CWebcontainer) as [[]|e2]; cbn; [|by eauto].
    destruct (w (CReadFile path)) as [source|e3]; cbn; [|by eauto].
    destruct (w (CCompile source (language r) path (optimize r))) as [result|e4];
      cbn; [done|by eauto]. }
  destruct Hperform as (Hcalls & Hwrites & [e Hresult]).
  rewrite Htrace, calls_app, writes_app. cbn [calls writes].
  rewrite calls_app, writes_app, Hcalls, Hwrites, Hresult. cbn [calls writes app].
  rewrite !app_nil_r. split; [done|]. split; [done|]. split.
  - unfold status_of. by rewrite Hact, Hresult.
  - unfold error_of. by rewrite Hact, Hresult.
Qed.

(** X9.  A contract that cannot be compiled at all.  When the compiler module,
    the sandbox, the source or the compiler's answer is rejected, the
    handler stops at the first rejection: no output folder is created and
    no file is written, not even an error report, and the action ends
    ['failed'] with the error ['Action failed']. *)
Theorem contract_fails_unprepared (s : Runner) (id : string) (q : list Reaction)
    (r : ActionState) (path : string) (w : World)
    (Hidle : current s = None) (Hnext : chain s = Execute id :: q)
    (Hrecord : actions s !! id = Some r)
    (Hcontract : type r = contract) (Hpath : filePath r = Some path)
    (Hrejected : existsb (fun c => is_rejected (w c)) (preparation w r path) = true) :
  let s' := run (Tick :: replicate 9 (Resolve w)) s in
  calls (trace s') = calls (trace s) ++ tried w (preparation w r path) ∧
  writes (trace s') = writes (trace s) ∧
  status_of id s' = Some failed ∧ error_of id s' = Some "Action failed".
Proof.
  exact (run_unprepared s id q r path w Hidle Hnext Hrecord Hcontract Hpath Hrejected).
Qed.


End ContractPreparation.

Lemma contract_unprepared_witness :
  let s := after contract_dispatched in
  let r := set_executed (set_status running (new_record c_sol)) in
  let s' := run (Tick :: replicate 9 (Resolve stormy)) s in
  current s = None ∧ chain s = [Execute "3"] ∧ actions s !! "3" = Some r ∧
  calls (trace s') = [CImportCompiler] ∧ writes (trace s') = [] ∧
  status_of "3" s' = Some failed.
Proof.
  cbv zeta. split; [vm_compute; reflexivity|]. split; [vm_compute; reflexivity|].
  split; [vm_compute; reflexivity|].
  pose proof (contract_fails_unprepared (after contract_dispatched) "3" []
                (set_executed (set_status running (new_record c_sol)))
                "C.sol" stormy eq_refl eq_refl eq_refl eq_refl eq_refl eq_refl) as H.
  cbv zeta in H. destruct H as (Hcalls & Hwrites & Hstatus & _).
  split; [exact Hcalls|]. split; [exact Hwrites | exact Hstatus].
Defined.

(** ** The compiler *)

Section CompilerProperties.
Context {engine : Engine}.

Lemma messages_nil sev ds :
  messages sev ds = [] ↔ Forall (fun d => severity d ≠ sev) ds.
Proof.
  unfold messages. induction ds as [|d ds IH]; [by split|].
  rewrite filter_cons. case_decide as Hsev.
  - split; [done|]. intros Hall. by inversion Hall.
  - rewrite IH. split; [by constructor|]. intros Hall. by inversion Hall.
Qed.

Lemma read_output_shape output fileName result :
  read_output output fileName = inl result ->
  if success result
  then errors result = None ∧ is_Some (warnings result)
  else (∃ e es, errors result = Some (e :: es)) ∧
       bytecode result = None ∧ abi result = None ∧ metadata result = None.
Proof.
  unfold read_output. case_bool_decide as Herrs.
  - intros [= <-]. cbn. split; [|done].
    destruct (from_option _ _ _) as [|e es]; [done|by eauto].
  - destruct (out_contracts output) as [sources|]; [|done].
    destruct (sources !! fileName) as [[|[name first] rest]|]; [done| |].
    + intros [= <-]. cbn. eauto.
    + intros [= <-]. cbn. eauto 10.
Qed.

(** X10.  The answers of [compile].  For every source, language and state of the
    compiler: the promise is rejected only for Solidity, when [solc] is not
    loaded yet and cannot be, and the error is then ['Failed to initialize
    Solidity compiler']; a result with [success: true] has no [errors] and
    has [warnings]; a result with [success: false] has at least one error
    and neither bytecode nor ABI nor metadata. *)
Theorem compile_answers (c : SmartContractCompiler) (source : string)
    (lang : option Language) (fileName : string) (options : CompilerOptions) :
  match (compile c source lang fileName options).2 with
  | Fulfilled result =>
      if success result
      then errors result = None ∧ is_Some (warnings result)
      else (∃ e es, errors result = Some (e :: es)) ∧
           bytecode result = None ∧ abi result = None ∧ metadata result = None
  | Rejected e =>
      e = "Failed to initialize Solidity compiler" ∧ lang = Some solidity ∧
      _initialized c = false ∧ is_rejected import_solc = true
  end.
Proof.
  destruct lang as [[]|]; cbn.
  - unfold compileSolidity, initialize.
    destruct (_initialized c) eqn:Hinit; [|destruct import_solc as [solc|e] eqn:Himport];
      cbn; [| |done].
    + destruct (_solc c) as [solc|]; [|cbn; eauto 10].
      destruct (solc _) as [output|e]; [|cbn; eauto 10].
      destruct (read_output output fileName) as [result|e] eqn:Hread; [|cbn; eauto 10].
      by apply read_output_shape in Hread.
    + destruct solc as [solc|]; [|cbn; eauto 10].
      destruct (solc _) as [output|e]; [|cbn; eauto 10].
      destruct (read_output output fileName) as [result|e] eqn:Hread; [|cbn; eauto 10].
      by apply read_output_shape in Hread.
  - eauto 10.
  - destruct (new_Function source); cbn; eauto 10.
  - eauto 10.
Qed.

(** X11.  Warnings never fail a Solidity compilation.  With [solc] loaded and
    answering, [compileSolidity] returns [success: true] exactly when no
    diagnostic has severity ['error'] and the output has at least one
    contract for the file; the result is then made from the first contract
    of the file, with the messages of the diagnostics of severity
    ['warning'], in their order, as its warnings; diagnostics of any other
    severity are dropped. *)
Theorem solidity_succeeds_iff (c : SmartContractCompiler) (solc : Solc)
    (source fileName : string) (options : CompilerOptions) (output : SolcOutput)
    (Hinitialized : _initialized c = true) (Hloaded : _solc c = Some solc)
    (Houtput : solc (solc_input source fileName options) = inl output) :
  let ds := default [] (out_errors output) in
  ∃ result,
    compileSolidity c source fileName options = (c, Fulfilled result) ∧
    (success result = true ↔
       Forall (fun d => severity d ≠ "error") ds ∧
       ∃ sources name first rest,
         out_contracts output = Some sources ∧
         sources !! fileName = Some ((name, first) :: rest)) ∧
    (∀ sources name first rest,
       Forall (fun d => severity d ≠ "error") ds ->
       out_contracts output = Some sources ->
       sources !! fileName = Some ((name, first) :: rest) ->
       result = mkCompilationResult true
                  ((c_evm first ≫= evm_bytecode) ≫= object) (c_abi first) None
                  (Some (formattedMessage <$> filter (fun d => severity d = "warning") ds))
                  (c_evm first ≫= evm_gasEstimates) (c_metadata first)).
Proof.
  cbv zeta. unfold compileSolidity, initialize. rewrite Hinitialized, Hloaded, Houtput.
  eexists. split; [reflexivity|].
  assert (Herrs : from_option (messages "error") [] (out_errors output) = []
                  ↔ Forall (fun d => severity d ≠ "error") (default [] (out_errors output))).
  { destruct (out_errors output) as [ds|]; cbn; [apply messages_nil | by split]. }
  assert (Hwarns : from_option (messages "warning") [] (out_errors output)
                   = formattedMessage <$> filter (fun d => severity d = "warning")
                                            (default [] (out_errors output))).
  { by destruct (out_errors output). }
  unfold read_output. rewrite Hwarns. case_bool_decide as Hsome.
  - cbn. split.
    + split; [done|]. intros [Hnone _]. by apply Herrs in Hnone.
    + intros * Hnone. by apply Herrs in Hnone.
  - assert (Hnone : Forall (fun d => severity d ≠ "error") (default [] (out_errors output))).
    { apply Herrs. by destruct (from_option _ _ _). }
    destruct (out_contracts output) as [sources|]; cbn.
    2:{ split; [|done]. split; [done|]. by intros (_ & ? & ? & ? & ? & ? & _). }
    destruct (sources !! fileName) as [[|[name first] rest]|] eqn:Hlookup; cbn.
    + split; [|by intros * _ [= <-]; rewrite Hlookup].
      split; [done|]. intros (_ & ? & ? & ? & ? & [= <-] & Hl). by rewrite Hlookup in Hl.
    + split; [split; [|done]; intros _; split; [done|]; by eauto 10|].
      intros * _ [= <-]. rewrite Hlookup. by intros [= <- <- <-].
    + split; [|by intros * _ [= <-]; rewrite Hlookup].
      split; [done|]. intros (_ & ? & ? & ? & ? & [= <-] & Hl). by rewrite Hlookup in Hl.
Qed.

Lemma compile_state c source lang fileName options :
  (compile c source lang fileName options).1 = c ∨
  _initialized c = false ∧ lang = Some solidity ∧
  ∃ solc, import_solc = Fulfilled solc ∧
          (compile c source lang fileName options).1 = mkSmartContractCompiler solc true.
Proof.
  destruct lang as [[]|]; cbn; try by left.
  unfold compileSolidity, initialize.
  destruct (_initialized c) eqn:Hinit; [by left|].
  destruct import_solc as [solc|e]; [|by left]. right. eauto.
Qed.

(** X12.  [solc] is loaded at most once.  Whatever is compiled, in whatever
    order, the state of the compiler is either what it was, or [solc] as
    the import gave it, marked initialized; the latter only when the
    compiler was not initialized before and some call was for Solidity; and
    an initialized compiler does not change at all. *)
Theorem solc_loaded_at_most_once (c : SmartContractCompiler) (requests : list Request) :
  let c' := (compile_each c requests).1 in
  (_initialized c = true -> c' = c) ∧
  (c' = c ∨
   _initialized c = false ∧
   (∃ source fileName options, (source, Some solidity, fileName, options) ∈ requests) ∧
   ∃ solc, import_solc = Fulfilled solc ∧ c' = mkSmartContractCompiler solc true).
Proof.
  cbv zeta. revert c. induction requests as [|[[[source lang] fileName] options] rest IH];
    intros c; [by split; [|left]|].
  cbn [compile_each].
  destruct (compile c source lang fileName options) as [c1 answered] eqn:Hcompile.
  destruct (compile_each c1 rest) as [c2 others] eqn:Hrest. cbn [fst].
  pose proof (compile_state c source lang fileName options) as Hstate.
  rewrite Hcompile in Hstate. cbn [fst] in Hstate.
  specialize (IH c1). rewrite Hrest in IH. cbn [fst] in IH. destruct IH as [IHinit IHany].
  split.
  - intros Hinit. destruct Hstate as [->|[Hno _]]; [by apply IHinit | congruence].
  - destruct Hstate as [->|(Hno & -> & solc & Himport & ->)].
    + destruct IHany as [->|(Hno & (source' & fileName' & options' & Hin) & solc & Himport & ->)];
        [by left|].
      right. split; [done|]. split; [|by eauto].
      exists source', fileName', options'. by right.
    + right. split; [done|]. split; [eexists _, _, _; by left|].
      exists solc. split; [done|]. by apply IHinit.
Qed.

End CompilerProperties.

Lemma solidity_succeeds_witness :
  let c := mkSmartContractCompiler (Some lenient_solc) true in
  _initialized c = true ∧ _solc c = Some lenient_solc ∧
  @compileSolidity lenient_engine c "contract C {}" "C.sol"
    (mkCompilerOptions None None None None)
  = (c, Fulfilled (mkCompilationResult true (Some "6080") (Some []) None
                     (Some ["Warning: Unused local variable."]) None (Some "{}"))).
Proof.
  cbv zeta. split; [reflexivity|]. split; [reflexivity|].
  destruct (@solidity_succeeds_iff lenient_engine
              (mkSmartContractCompiler (Some lenient_solc) true) lenient_solc
              "contract C {}" "C.sol" (mkCompilerOptions None None None None)
              (mkSolcOutput (Some [unused_variable])
                 (Some {[ "C.sol" := [("C", storage_contract)] ]}))
              eq_refl eq_refl eq_refl) as (result & Hreturned & _ & Hresult).
  rewrite Hreturned. do 2 f_equal.
  apply (Hresult {[ "C.sol" := [("C", storage_contract)] ]} "C" storage_contract []).
  - repeat constructor; by vm_compute.
  - reflexivity.
  - by vm_compute.
Defined.

Lemma solc_loaded_once_witness :
  let c := mkSmartContractCompiler (Some lenient_solc) true in
  let requests := [("contract C {}", Some solidity, "C.sol", mkCompilerOptions None None None None);
                   ("fn main() {}", Some rust, "lib.rs", mkCompilerOptions None None None None)] in
  _initialized c = true ∧ (@compile_each offline_engine c requests).1 = c.
Proof.
  cbv zeta. split; [reflexivity|].
  apply (@solc_loaded_at_most_once offline_engine). reflexivity.
Defined.

(** ** The runner with the compiler *)

Section RunnerWithCompiler.
Context {node_path : NodePath} {engine : Engine}.


(** X14.  A JavaScript contract is its own bytecode.  When the source parses as
    a function body and the sandbox accepts every write, a contract action
    with language ['javascript'] writes the source itself to [.bin], unless
    it is empty, then the ABI [[]] to [.abi.json] and a report without
    warnings to [.report.json], and ends ['complete'] (['aborted'] if its
    signal was aborted); an empty source counts as compiled and leaves no
    [.bin]. *)
Theorem javascript_contract_artifacts (s : Runner) (id : string) (q : list Reaction)
    (r : ActionState) (path source : string) (c : SmartContractCompiler) (w : World)
    (Hidle : current s = None) (Hnext : chain s = Execute id :: q)
    (Hrecord : actions s !! id = Some r)
    (Hcontract : type r = contract) (Hpath : filePath r = Some path)
    (Hjavascript : language r = Some javascript)
    (Himport : w CImportCompiler = Fulfilled tt)
    (Hsandbox : w CWebcontainer = Fulfilled tt)
    (Hread : w (CReadFile path) = Fulfilled source)
    (Hcompiler : compiles_with c w)
    (Hparses : new_Function source = None)
    (Hwrites : forall p d, w (CWriteFile p d) = Fulfilled tt) :
  let out := join (or_default (outputDir r) "contracts/artifacts")
               (basename path (extname path)) in
  let s' := run (Tick :: replicate 9 (Resolve w)) s in
  writes (trace s') =
    writes (trace s) ++
    (if decide (source = "") then [] else [(out +:+ ".bin", Text source)]) ++
    [(out +:+ ".abi.json", JsonAbi []);
     (out +:+ ".report.json",
      JsonReport {| rp_success := true; rp_fileName := path;
                    rp_language := Some javascript; rp_target := target r;
                    rp_warnings := []; rp_gasEstimates := None;
                    rp_compiledAt := time s |})] ∧
  status_of id s' = Some (if is_aborted id s then aborted else complete).
Proof.
  assert (Hcompile : w (CCompile source (language r) path (optimize r))
                     = Fulfilled (mkCompilationResult true (Some source) (Some []) None
                                    (Some []) None None)).
  { rewrite Hcompiler, Hjavascript. cbn. by rewrite Hparses. }
  destruct (run_compiled s id q r path source _ w Hidle Hnext Hrecord Hcontract
              Hpath Himport Hsandbox Hread Hcompile eq_refl) as [Hwritten Hact].
  cbv zeta in *.
  match type of Hwritten with
  | _ = _ ++ attempted w ?files =>
      destruct (attempted_accepted w files Hwrites) as [Hall Hnone];
      rewrite Hall in Hwritten; rewrite Hnone in Hact
  end.
  split.
  - rewrite Hwritten. unfold artifacts. cbn. rewrite Hjavascript.
    by destruct (decide (source = "")).
  - unfold status_of. by rewrite Hact.
Qed.

(** X15.  Without [solc] there is no error report.  When the import of [solc]
    fails, the compiler call of a Solidity contract action is rejected; the
    handler then writes nothing, not even an error report, and the action
    ends ['failed']. *)
Theorem solidity_without_solc (s : Runner) (id : string) (q : list Reaction)
    (r : ActionState) (path source : string) (c : SmartContractCompiler) (w : World)
    (Hidle : current s = None) (Hnext : chain s = Execute id :: q)
    (Hrecord : actions s !! id = Some r)
    (Hcontract : type r = contract) (Hpath : filePath r = Some path)
    (Hsolidity : language r = Some solidity)
    (Himport : w CImportCompiler = Fulfilled tt)
    (Hsandbox : w CWebcontainer = Fulfilled tt)
    (Hread : w (CReadFile path) = Fulfilled source)
    (Hcompiler : compiles_with c w)
    (Hfresh : _initialized c = false)
    (Hoffline : is_rejected import_solc = true) :
  let s' := run (Tick :: replicate 9 (Resolve w)) s in
  calls (trace s') =
    calls (trace s) ++
    [CImportCompiler; CWebcontainer; CReadFile path;
     CCompile source (Some solidity) path (optimize r)] ∧
  writes (trace s') = writes (trace s) ∧
  status_of id s' = Some failed ∧ error_of id s' = Some "Action failed".
Proof.
  assert (Hcompile : is_rejected (w (CCompile source (language r) path (optimize r)))
                     = true).
  { rewrite Hcompiler, Hsolidity. cbn. unfold compileSolidity, initialize.
    rewrite Hfresh. by destruct import_solc. }
  assert (Hprepared : tried w (preparation w r path) =
                      [CImportCompiler; CWebcontainer; CReadFile path;
                       CCompile source (language r) path (optimize r)]).
  { unfold preparation. rewrite Hread. cbn. rewrite Himport, Hsandbox, Hread. cbn.
    by destruct (w (CCompile source (language r) path (optimize r))). }
  assert (Hrejected : existsb (fun c => is_rejected (w c)) (preparation w r path) = true).
  { unfold preparation. rewrite Hread. cbn [app existsb]. rewrite Hcompile.
    by rewrite !orb_true_r. }
  destruct (run_unprepared s id q r path w Hidle Hnext Hrecord Hcontract Hpath Hrejected)
    as (Hcalls & Hrest).
  cbv zeta in *. split; [|done].
  by rewrite Hcalls, Hprepared, Hsolidity.
Qed.

End RunnerWithCompiler.


Lemma javascript_contract_witness :
  let s := after javascript_dispatched in
  let r := set_executed (set_status running (new_record c_js)) in
  let w := @compiling lenient_engine smartContractCompiler "" in
  let s' := run (Tick :: replicate 9 (Resolve w)) s in
  current s = None ∧ chain s = [Execute "5"] ∧ actions s !! "5" = Some r ∧
  writes (trace s') =
    [("contracts/artifacts/token.abi.json", JsonAbi []);
     ("contracts/artifacts/token.report.json",
      JsonReport (mkReport true "token.js" (Some javascript) None [] None ""))] ∧
  status_of "5" s' = Some complete.
Proof.
  cbv zeta. split; [vm_compute; reflexivity|]. split; [vm_compute; reflexivity|].
  split; [vm_compute; reflexivity|].
  pose proof (@javascript_contract_artifacts posix lenient_engine
                (after javascript_dispatched) "5" []
                (set_executed (set_status running (new_record c_js)))
                "token.js" "" smartContractCompiler
                (@compiling lenient_engine smartContractCompiler "")
                eq_refl eq_refl eq_refl eq_refl eq_refl eq_refl eq_refl eq_refl eq_refl
                (fun _ _ _ _ => eq_refl) eq_refl (fun _ _ => eq_refl)) as H.
  cbv zeta in H. destruct H as (Hwrites & Hstatus).
  split; [exact Hwrites | exact Hstatus].
Defined.

Lemma solidity_without_solc_witness :
  let s := after contract_dispatched in
  let r := set_executed (set_status running (new_record c_sol)) in
  let w := @compiling offline_engine smartContractCompiler "contract C {}" in
  let s' := run (Tick :: replicate 9 (Resolve w)) s in
  current s = None ∧ chain s = [Execute "3"] ∧ actions s !! "3" = Some r ∧
  calls (trace s') =
    [CImportCompiler; CWebcontainer; CReadFile "C.sol";
     CCompile "contract C {}" (Some solidity) "C.sol" None] ∧
  writes (trace s') = [] ∧ status_of "3" s' = Some failed.
Proof.
  cbv zeta. split; [vm_compute; reflexivity|]. split; [vm_compute; reflexivity|].
  split; [vm_compute; reflexivity|].
  pose proof (@solidity_without_solc posix offline_engine (after contract_dispatched) "3" []
                (set_executed (set_status running (new_record c_sol)))
                "C.sol" "contract C {}" smartContractCompiler
                (@compiling offline_engine smartContractCompiler "contract C {}")
                eq_refl eq_refl eq_refl eq_refl eq_refl eq_refl eq_refl eq_refl eq_refl
                (fun _ _ _ _ => eq_refl) eq_refl eq_refl) as H.
  cbv zeta in H. destruct H as (Hcalls & Hwrites & Hstatus & _).
  split; [exact Hcalls|]. split; [exact Hwrites | exact Hstatus].
Defined.

(** ** Only finalized actions run *)

Lemma calls_of_app cur cur' t1 t2 :
  lane_after cur t1 = Some cur' ->
  calls_of cur (t1 ++ t2) = calls_of cur t1 ++ calls_of cur' t2.
Proof.
  revert cur. induction t1 as [|o t1 IH]; intros cur; simpl; [by intros [= ->]|].
  destruct o as [id|id|c|e|id|e]; try (by apply IH).
  - destruct cur; [done | apply IH].
  - destruct cur as [id'|]; [|done]. case_decide; [apply IH | done].
  - destruct cur; [|by apply IH]. intros Hlane. by rewrite (IH _ Hlane).
Qed.

Lemma calls_settle id result s : calls (trace (settle id result s)) = calls (trace s).
Proof.
  destruct result; simpl; rewrite trace_updateAction, ?calls_app; simpl;
    by rewrite ?app_nil_r.
Qed.

Lemma confined_occurs (allowed : Call -> Prop) p :
  (forall c, occurs c p -> allowed c) -> confined allowed p.
Proof.
  induction p as [a|e|o k IH|k IH|c k IH]; simpl; intros Hp; try done.
  - by apply IH.
  - intros t. apply IH. intros c Hc. apply Hp. by exists t.
  - split; [apply Hp; by left|]. intros r. apply IH. intros c' Hc'. apply Hp.
    right. by exists r.
Qed.

Lemma confined_mono (allowed allowed' : Call -> Prop) p :
  (forall c, allowed c -> allowed' c) -> confined allowed p -> confined allowed' p.
Proof.
  intros Himp. induction p as [a|e|o k IH|k IH|c k IH]; simpl; try done.
  - intros Hk t. by apply IH.
  - intros [Hc Hk]. split; [by apply Himp|]. intros r. by apply IH.
Qed.

(** A pending handler makes its calls in its own execution, and only those
    that it is confined to. *)
Lemma attributed_proceed (allowed : string -> Call -> Prop) p : forall id heard s,
  lane_after None (trace s) = Some (Some id) ->
  confined (allowed id) p ->
  calls (trace s) = (calls_of None (trace s)).*2 ->
  (forall id' c, (id', c) ∈ calls_of None (trace s) -> allowed id' c) ->
  let s' := proceed id heard p s in
  calls (trace s') = (calls_of None (trace s')).*2 ∧
  (forall id' c, (id', c) ∈ calls_of None (trace s') -> allowed id' c) ∧
  (forall cur, current s' = Some cur ->
     run_id cur = id ∧ forall r, confined (allowed id) (resume cur r)).
Proof.
  assert (Hsettle : forall id result s,
            lane_after None (trace s) = Some (Some id) ->
            calls_of None (trace (settle id result (with_current None s)))
            = calls_of None (trace s)).
  { intros id result s Hlane. destruct result; simpl; rewrite trace_updateAction; simpl.
    - rewrite <- app_assoc. rewrite (calls_of_app None _ _ _ Hlane). simpl.
      by rewrite app_nil_r.
    - rewrite (calls_of_app None _ _ _ Hlane). simpl. by rewrite app_nil_r. }
  induction p as [a|e|o k IH|k IH|c k IH]; intros id heard s Hlane Hp Hcalls Hs;
    cbn [proceed]; cbv zeta.
  - rewrite calls_settle, Hsettle by done.
    destruct (settle_spec id None (with_current None s)) as (_ & _ & -> & _).
    by repeat split.
  - rewrite calls_settle, Hsettle by done.
    destruct (settle_spec id (Some e) (with_current None s)) as (_ & _ & -> & _).
    by repeat split.
  - apply IH; [|done|..].
    + simpl. by rewrite lane_after_app, Hlane.
    + simpl. rewrite calls_app, (calls_of_app None _ _ _ Hlane). simpl.
      by rewrite !app_nil_r.
    + simpl. rewrite (calls_of_app None _ _ _ Hlane). simpl. by rewrite app_nil_r.
  - apply IH; [done | apply Hp | done..].
  - destruct Hp as [Hc Hk]. simpl.
    rewrite calls_app, (calls_of_app None _ _ _ Hlane). simpl.
    rewrite fmap_app, Hcalls. split; [done|]. split.
    + intros id' c' [Hin|Hin]%elem_of_app; [by apply Hs|].
      by apply list_elem_of_singleton in Hin as [= -> ->].
    + by intros cur [= <-].
Qed.

Section Provenance.
Context {node_path : NodePath}.

Lemma handler_payload r r' : payload r = payload r' -> handler r = handler r'.
Proof.
  destruct r, r' as [ty ? ? ? ? ? ? ? ? ?]. unfold payload. simpl.
  intros [= -> -> -> -> -> -> ->]. unfold handler. simpl. by destruct ty.
Qed.

Lemma called_for_snoc es e id c : called_for es id c -> called_for (es ++ [e]) id c.
Proof.
  intros (es1 & a & es2 & r0 & -> & Hr0 & Hex & Hc).
  exists es1, a, (es2 ++ [e]), r0. by rewrite <- app_assoc.
Qed.

Lemma stored_by_snoc es e id r : stored_by es id r -> stored_by (es ++ [e]) id r.
Proof.
  intros (es1 & a & es2 & r0 & -> & Hr0 & Hex & Hp).
  exists es1, a, (es2 ++ [e]), r0. by rewrite <- app_assoc.
Qed.

Lemma stored_by_payload es id r r' :
  payload r = payload r' -> stored_by es id r -> stored_by es id r'.
Proof.
  intros Hp (es1 & a & es2 & r0 & -> & Hr0 & Hex & Hp').
  exists es1, a, es2, r0. repeat split; [done..|congruence].
Qed.

Lemma confined_stored es id r :
  stored_by es id r -> confined (called_for es id) (handler r).
Proof.
  intros (es1 & a & es2 & r0 & -> & Hr0 & Hex & Hp).
  apply confined_occurs. intros c Hc. exists es1, a, es2, r0.
  repeat split; [done..|]. by rewrite <- (handler_payload _ _ Hp).
Qed.

(** The calls made so far, the calls that the pending handler can still
    make, and the data of the executed records, all come from the
    [runAction] calls of [es]. *)
Lemma provenance es :
  let s := after es in
  calls (trace s) = (calls_of None (trace s)).*2 ∧
  (forall id c, (id, c) ∈ calls_of None (trace s) -> called_for es id c) ∧
  (forall cur, current s = Some cur ->
     forall r, confined (called_for es (run_id cur)) (resume cur r)) ∧
  (forall id r, actions s !! id = Some r -> executed r = true -> stored_by es id r).
Proof.
  cbv zeta. induction es as [|e es (Hcalls & Hmade & Hpending & Hstored)] using rev_ind.
  { split; [done|]. split; [|split; [done|]].
    - intros id c Hin. simpl in Hin. by apply elem_of_nil in Hin.
    - intros id r. simpl. by rewrite lookup_empty. }
  pose proof (invariant_after es) as Hinv.
  pose proof (inv_lane _ Hinv) as Hlane.
  assert (Hstep : after (es ++ [e]) = step (after es) e).
  { unfold after. by rewrite run_app. }
  assert (Hmade' : forall id c, (id, c) ∈ calls_of None (trace (after es)) ->
                                called_for (es ++ [e]) id c).
  { intros id c Hin. by apply called_for_snoc, Hmade. }
  assert (Hpending' : forall cur, current (after es) = Some cur ->
            forall r, confined (called_for (es ++ [e]) (run_id cur)) (resume cur r)).
  { intros cur Hcur r. eapply confined_mono; [|by apply Hpending].
    intros c. apply called_for_snoc. }
  assert (Hkept : forall s',
            (forall id, payload_of id s' = payload_of id (after es) ∧
                        (executed_of id s' = Some true ->
                         executed_of id (after es) = Some true)) ->
            forall id r, actions s' !! id = Some r -> executed r = true ->
                         stored_by (es ++ [e]) id r).
  { intros s' Hsame id r Hr Hex. destruct (Hsame id) as [Hp He].
    unfold payload_of, executed_of in Hp, He. rewrite Hr in Hp, He. simpl in Hp, He.
    destruct (actions (after es) !! id) as [r'|] eqn:Hr'; [|done].
    simpl in Hp, He. apply (stored_by_payload _ _ r'); [congruence|].
    apply stored_by_snoc, Hstored; [done|]. rewrite Hex in He.
    specialize (He eq_refl). congruence. }
  rewrite Hstep. destruct e as [id' a|id' a|id'| |w|t]; simpl.
  - unfold addAction. destruct (actions (after es) !! id') eqn:Hid'.
    { split; [done|]. split; [done|]. split; [done|].
      intros id r Hr Hex. by apply stored_by_snoc, Hstored. }
    simpl. split; [done|]. split; [done|]. split; [done|].
    intros id r. rewrite lookup_insert. case_decide as Heq.
    + intros [= <-]. by destruct a.
    + intros Hr Hex. by apply stored_by_snoc, Hstored.
  - unfold runAction. destruct (actions (after es) !! id') as [r0|] eqn:Hr0; simpl.
    2:{ split; [done|]. split; [done|]. split; [done|].
        intros id r Hr Hex. by apply stored_by_snoc, Hstored. }
    destruct (executed r0) eqn:Hex0; simpl.
    { split; [done|]. split; [done|]. split; [done|].
      intros id r Hr Hex. by apply stored_by_snoc, Hstored. }
    rewrite trace_updateAction, current_updateAction.
    split; [done|]. split; [done|]. split; [done|].
    intros id r. rewrite lookup_updateAction. case_decide as Heq.
    + subst id'. rewrite Hr0. simpl. intros [= <-] _.
      exists es, a, [], r0. repeat split; [done..|]. by destruct a.
    + intros Hr Hex. by apply stored_by_snoc, Hstored.
  - assert (Htrace : forall A (f : list Obs -> A),
              (forall t id, f (t ++ [Killed id]) = f t) ->
              f (trace (abort id' (after es))) = f (trace (after es))).
    { intros A f Hf. unfold abort. destruct (actions (after es) !! id'); [|done].
      cbv zeta. rewrite trace_updateAction. simpl.
      destruct (listens _ _ && negb _); [apply Hf | done]. }
    assert (Hkill : forall t id, calls_of None (t ++ [Killed id]) = calls_of None t).
    { intros t id. generalize (@None string).
      induction t as [|o t IH]; intros cur; [done|].
      destruct o; simpl; try done; try apply IH. destruct cur; [|apply IH].
      by rewrite IH. }
    rewrite (Htrace _ calls) by (intros; by rewrite calls_app, app_nil_r).
    rewrite (Htrace _ (calls_of None)) by apply Hkill.
    split; [done|]. split; [done|]. split.
    + unfold abort. destruct (actions (after es) !! id'); [|done]. cbv zeta.
      rewrite current_updateAction. simpl. by destruct (listens _ _ && negb _).
    + apply Hkept. intros id. split.
      * destruct (payload_step (after es) (Abort id') id)
          as [Hsame|[(? & [=] & _)|(? & ? & [=] & _)]]. done.
      * intros Hex. by destruct (executed_of_step (after es) (Abort id') id Hex) as [?|[? [=]]].
  - unfold tick. destruct (current (after es)) as [cur|] eqn:Hcur.
    { split; [done|]. split; [done|]. split; [rewrite ?Hcur; first [done | apply Hpending']|].
      intros id r Hr Hex. by apply stored_by_snoc, Hstored. }
    destruct (chain (after es)) as [|[id'|id'] rest] eqn:Hchain.
    { split; [done|]. split; [done|]. split; [rewrite ?Hcur; first [done | apply Hpending']|].
      intros id r Hr Hex. by apply stored_by_snoc, Hstored. }
    + rewrite trace_updateAction, current_updateAction. simpl.
      split; [done|]. split; [done|]. split; [rewrite ?Hcur; first [done | apply Hpending']|].
      apply (Hkept (updateAction id' (set_status running) (with_chain rest (after es)))).
      intros id. split; [by rewrite payload_of_updateAction|].
      by rewrite executed_of_updateAction.
    + unfold executeAction. simpl.
      destruct (actions (after es) !! id') as [r|] eqn:Hr.
      2:{ simpl. split; [done|]. split; [done|]. split; [rewrite ?Hcur; first [done | apply Hpending']|].
          intros id r Hr' Hex. by apply stored_by_snoc, Hstored. }
      assert (Hex : executed r = true).
      { assert (Hid : executed_of id' (after es) = Some true).
        { apply (inv_executed _ Hinv). rewrite Hchain. simpl. set_solver. }
        unfold executed_of in Hid. rewrite Hr in Hid. by injection Hid. }
      match goal with
      | |- context [proceed id' false ?p ?s0] =>
          destruct (attributed_proceed (called_for (es ++ [Tick])) p id' false s0)
            as (Hcalls1 & Hmade1 & Hpending1)
      end.
      * simpl. rewrite trace_updateAction. simpl. rewrite lane_after_app, Hlane.
        unfold busy. by rewrite Hcur.
      * apply confined_stored, stored_by_snoc. by apply Hstored.
      * simpl. rewrite trace_updateAction. simpl.
        rewrite calls_app, (calls_of_app None _ _ _ Hlane). simpl.
        by rewrite !app_nil_r.
      * simpl. rewrite trace_updateAction. simpl.
        rewrite (calls_of_app None _ _ _ Hlane). simpl. rewrite app_nil_r.
        apply Hmade'.
      * split; [done|]. split; [done|]. split.
        { intros cur Hcur' r'. destruct (Hpending1 cur Hcur') as [-> Hk]. apply Hk. }
        apply Hkept. intros id. rewrite payload_of_proceed, executed_of_proceed.
        unfold payload_of, executed_of. simpl.
        fold (payload_of id (updateAction id' (set_status running)
                               (with_chain rest (after es)))).
        fold (executed_of id (updateAction id' (set_status running)
                                (with_chain rest (after es)))).
        rewrite payload_of_updateAction, executed_of_updateAction by done. done.
  - unfold resolve. destruct (current (after es)) as [cur|] eqn:Hcur.
    2:{ split; [done|]. split; [done|]. split; [rewrite ?Hcur; first [done | apply Hpending']|].
        intros id r Hr Hex. by apply stored_by_snoc, Hstored. }
    destruct (attributed_proceed (called_for (es ++ [Resolve w]))
                (resume cur (w (awaiting cur))) (run_id cur) (listening cur) (after es))
      as (Hcalls1 & Hmade1 & Hpending1); [| by apply Hpending' | done | done |].
    { rewrite Hlane. unfold busy. by rewrite Hcur. }
    split; [done|]. split; [done|]. split.
    { intros cur' Hcur' r'. destruct (Hpending1 cur' Hcur') as [-> Hk]. apply Hk. }
    apply Hkept. intros id. by rewrite payload_of_proceed, executed_of_proceed.
  - split; [done|]. split; [done|]. split; [done|].
    intros id r Hr Hex. by apply stored_by_snoc, Hstored.
Qed.

Lemma occurs_handler (c : Call) (r : ActionState) :
  occurs c (handler r) ->
  (forall cmd args, c = CSpawn cmd args ->
     type r = shell ∧ cmd = "jsh" ∧ args = ["-c"; content r]) ∧
  (forall path data, c = CWriteFile path data ->
     type r = contract ∨
     type r = file ∧ filePath r = Some path ∧ data = Text (content r)).
Proof.
  unfold handler, runShellAction, runFileAction, runContractAction,
    write_artifacts, write_error_report, when, effect, clock, await.
  destruct (type r); simpl; intros Hc;
    (split; [intros cmd args ->|intros path data ->]);
    repeat (match goal with
            | H : False |- _ => destruct H
            | H : _ ∨ _ |- _ => destruct H
            | H : ex _ |- _ => destruct H
            | H : _ = _ |- _ => discriminate H
            | H : _ = _ |- _ => injection H as <- <-
            | H : context [match ?x with _ => _ end] |- _ => destruct x eqn:?
            end; simpl in *); eauto.
Qed.

(** X16.  Only finalized actions run.  Every call that the handlers have
    made, after any events, was made in the execution of an action, for the
    data that a [runAction] call stored: that call found the record of the
    action registered and not yet executed (a [runAction] call for an
    unknown or an executed action counts for nothing), and the call is one
    of the calls of the handler on the record merged from the record there
    was and the data of that [runAction] call.  So the shell is only spawned
    as [jsh -c] with the content of the effective [runAction] call of that
    action, never with the content the action had when [addAction]
    registered it; and a file action only writes the content and at the path
    of its effective [runAction] call. *)
Theorem only_finalized_actions_run (es : list Event) :
  calls (trace (after es)) = (calls_of None (trace (after es))).*2 ∧
  forall id c, (id, c) ∈ calls_of None (trace (after es)) ->
    exists es1 a es2 r0,
      es = es1 ++ RunAction id a :: es2 ∧
      actions (after es1) !! id = Some r0 ∧ executed r0 = false ∧
      occurs c (handler (spread r0 a)) ∧
      (forall cmd args, c = CSpawn cmd args ->
         exists command, a = ShellAction command ∧ cmd = "jsh" ∧ args = ["-c"; command]) ∧
      (forall path data, c = CWriteFile path data ->
         (exists text, a = FileAction text path ∧ data = Text text) ∨
         (exists text l fp t o d, a = ContractAction text l fp t o d)).
Proof.
  destruct (provenance es) as (Hcalls & Hmade & _). cbv zeta in *.
  split; [done|]. intros id c Hin.
  destruct (Hmade id c Hin) as (es1 & a & es2 & r0 & -> & Hr0 & Hex & Hc).
  exists es1, a, es2, r0. repeat split; [done..| |].
  - intros cmd args Hcall.
    destruct (occurs_handler c _ Hc) as [Hspawn _].
    destruct (Hspawn cmd args Hcall) as (Htype & -> & ->).
    destruct a as [text path|command|text l path t o d]; try done. by exists command.
  - intros path data Hcall.
    destruct (occurs_handler c _ Hc) as [_ Hwrite].
    destruct (Hwrite path data Hcall) as [Htype|(Htype & Hpath & ->)];
      destruct a as [text path'|command|text l path' t o d]; try done.
    + right. by eauto 10.
    + left. exists text. simpl in Hpath. by injection Hpath as ->.
Qed.

End Provenance.

Lemma only_finalized_witness :
  ("1", CSpawn "jsh" ["-c"; "npm install"])
    ∈ calls_of None (trace (after streamed_command)) ∧
  exists es1 a es2 r0,
    streamed_command = es1 ++ RunAction "1" a :: es2 ∧
    actions (after es1) !! "1" = Some r0 ∧ executed r0 = false ∧
    a = ShellAction "npm install".
Proof.
  assert (Hmade : ("1", CSpawn "jsh" ["-c"; "npm install"])
                  ∈ calls_of None (trace (after streamed_command))).
  { vm_compute. repeat constructor. }
  split; [exact Hmade|].
  destruct (only_finalized_actions_run streamed_command) as [_ Hfinalized].
  destruct (Hfinalized _ _ Hmade) as (es1 & a & es2 & r0 & Hes & Hr0 & Hex & _ & Hspawn & _).
  exists es1, a, es2, r0. repeat split; [done..|].
  destruct (Hspawn _ _ eq_refl) as (command & -> & _ & [= <-]). done.
Defined.

(** ** The example contract in JavaScript *)

Section SimpleContractProperties.
Import SimpleContract.
Context {Value : Type} (undefined : Value).

Lemma map_set_keys key (value : Value) m :
  (map_set key value m).*1 = if bool_decide (key ∈ m.*1) then m.*1 else m.*1 ++ [key].
Proof.
  induction m as [|[k v] m IH]; [done|]. cbn [map_set fmap list_fmap fst].
  destruct (decide (k = key)) as [->|Hne].
  - rewrite bool_decide_eq_true_2 by set_solver. done.
  - cbn [fmap list_fmap fst]. rewrite IH.
    destruct (bool_decide_reflect (key ∈ m.*1)) as [Hin|Hin].
    + rewrite bool_decide_eq_true_2 by set_solver. done.
    + rewrite bool_decide_eq_false_2; [done|]. set_solver.
Qed.

Lemma map_get_set key key' (value : Value) m :
  map_get key' (map_set key value m)
  = if decide (key = key') then Some value else map_get key' m.
Proof.
  induction m as [|[k v] m IH]; simpl.
  - by repeat case_decide.
  - repeat (case_decide; simpl; subst); try done; try congruence.
    all: rewrite IH; by repeat case_decide.
Qed.

Lemma map_get_delete key key' (m : list (string * Value)) :
  map_get key' (map_delete key m) = if decide (key = key') then None else map_get key' m.
Proof.
  unfold map_delete. induction m as [|[k v] m IH]; simpl.
  - by case_decide.
  - rewrite filter_cons. simpl. repeat (case_decide; simpl; subst); try done; congruence.
Qed.

Lemma map_delete_keys key (m : list (string * Value)) :
  (map_delete key m).*1 = filter (fun k => k ≠ key) m.*1.
Proof.
  unfold map_delete. induction m as [|[k v] m IH]; [done|].
  rewrite fmap_cons, !filter_cons. cbn [fst].
  case_decide; [rewrite fmap_cons|]; by rewrite IH.
Qed.

Lemma filter_absent key (ks : list string) :
  key ∉ ks -> filter (fun k => k ≠ key) ks = ks.
Proof.
  induction ks as [|k ks IH]; [done|]. intros Hnot. rewrite filter_cons.
  rewrite decide_True by set_solver. rewrite IH by set_solver. done.
Qed.

Lemma filter_present_length key (ks : list string) :
  NoDup ks -> key ∈ ks -> S (length (filter (fun k => k ≠ key) ks)) = length ks.
Proof.
  induction 1 as [|k ks Hk Hks IH]; [by intros ?%elem_of_nil|].
  intros Hin. rewrite filter_cons. destruct (decide (k = key)) as [->|Hne].
  - rewrite decide_False by (intros Hn; by apply Hn). by rewrite filter_absent.
  - rewrite decide_True by done. simpl. rewrite IH; [done|]. set_solver.
Qed.

Lemma called_snoc (ms : list (@Method Value)) m : called (ms ++ [m]) = call (called ms) m.
Proof. unfold called. by rewrite foldl_app. Qed.

Lemma keys_distinct (ms : list (@Method Value)) : NoDup (getAllKeys (called ms)).
Proof.
  induction ms as [|m ms IH] using rev_ind; [constructor|].
  rewrite called_snoc. unfold getAllKeys in *. destruct m as [key value t t'|key t t'|t t'];
    simpl.
  - rewrite map_set_keys. case_bool_decide as Hin; [done|].
    apply NoDup_app. split; [done|]. split; [|apply NoDup_singleton]. set_solver.
  - unfold deleteKey. destruct (map_has key _); simpl; [|done].
    rewrite map_delete_keys. by apply NoDup_filter.
  - constructor.
Qed.

(** X17.  The storage is a map.  In every state that the methods can reach, no
    key is listed twice; [store] makes [retrieve] return the value and
    [hasKey] return true for its key, leaves every other key as it was, and
    keeps the order of the keys, with a new key last; the size grows by one
    exactly when the key is new. *)
Theorem store_then_retrieve (ms : list (@Method Value)) (key : string) (value : Value)
    (now now' : Z) :
  let c := called ms in
  let c' := (store key value now now' c).1 in
  NoDup (getAllKeys c') ∧
  retrieve undefined key c' = value ∧ hasKey key c' = true ∧
  (forall key', key' ≠ key ->
     retrieve undefined key' c' = retrieve undefined key' c ∧
     hasKey key' c' = hasKey key' c) ∧
  getAllKeys c' = (if hasKey key c then getAllKeys c else getAllKeys c ++ [key]) ∧
  getStorageSize c' = (if hasKey key c then getStorageSize c else S (getStorageSize c)).
Proof.
  cbv zeta. split.
  { change ((store key value now now' (called ms)).1)
      with (call (called ms) (Store key value now now')).
    rewrite <- called_snoc. apply keys_distinct. }
  unfold retrieve, hasKey, getAllKeys, getStorageSize, map_has. simpl.
  rewrite map_get_set, decide_True by done. split; [done|].
  assert (Hkeys := map_set_keys key value (storage (called ms))).
  split; [|split; [|split]].
  - rewrite Hkeys. apply bool_decide_eq_true_2. case_bool_decide; set_solver.
  - intros key' Hne. rewrite map_get_set, decide_False by done. split; [done|].
    rewrite Hkeys. apply bool_decide_ext. case_bool_decide; set_solver.
  - done.
  - rewrite <- !(length_fmap fst), Hkeys. case_bool_decide; [done|].
    rewrite length_app. simpl. lia.
Qed.

(** X18.  Deleting a key.  In every state that the methods can reach,
    [deleteKey] returns true exactly when the contract has the key; it then
    removes that one entry (the size drops by one, [hasKey] becomes false,
    [retrieve] returns [undefined]) and logs one event; for a key that the
    contract does not have it changes nothing and logs nothing.  Every other
    key is left as it was. *)
Theorem delete_removes_one_key (ms : list (@Method Value)) (key : string) (now now' : Z) :
  let c := called ms in
  let c' := (deleteKey key now now' c).1 in
  (deleteKey key now now' c).2 = hasKey key c ∧
  hasKey key c' = false ∧ retrieve undefined key c' = undefined ∧
  (forall key', key' ≠ key ->
     retrieve undefined key' c' = retrieve undefined key' c ∧
     hasKey key' c' = hasKey key' c) ∧
  (if hasKey key c
   then S (getStorageSize c') = getStorageSize c ∧
        length (getEvents c') = S (length (getEvents c))
   else c' = c).
Proof.
  cbv zeta. pose proof (keys_distinct ms) as Hdistinct.
  unfold deleteKey, hasKey, retrieve, getAllKeys, getStorageSize, getEvents, map_has in *.
  case_bool_decide as Hin; simpl.
  - split; [done|]. rewrite map_get_delete, decide_True by done.
    rewrite map_delete_keys. split; [|split; [done|split]].
    + apply bool_decide_eq_false_2. rewrite list_elem_of_filter. by intros [? _].
    + intros key' Hne. rewrite map_get_delete, decide_False by done. split; [done|].
      apply bool_decide_ext. rewrite list_elem_of_filter. naive_solver.
    + rewrite <- !(length_fmap fst), map_delete_keys.
      split; [by apply filter_present_length|].
      rewrite length_app. simpl. lia.
  - split; [done|]. split; [by apply bool_decide_eq_false_2|]. split; [|done].
    assert (Hnone : map_get key (storage (called ms)) = None).
    { clear Hdistinct. induction (storage (called ms)) as [|[k v] m IH]; [done|].
      simpl. rewrite decide_False by set_solver. apply IH. set_solver. }
    by rewrite Hnone.
Qed.

Lemma map_delete_absent key (m : list (string * Value)) :
  key ∉ m.*1 -> map_delete key m = m.
Proof.
  unfold map_delete. induction m as [|[k v] m IH]; [done|]. intros Hnot.
  rewrite filter_cons. simpl in *. rewrite decide_True by set_solver.
  rewrite IH by set_solver. done.
Qed.

(** X19.  The events tell the storage.  In every state that the methods can
    reach, replaying the logged events on an empty map (a ['ValueStored']
    sets its key, a ['ValueDeleted'] deletes it, a ['StorageCleared'] empties
    the map) gives the storage, with its keys in the same order; and every
    call of [store] is logged: the number of ['ValueStored'] events is the
    number of [store] calls. *)
Theorem events_tell_storage (ms : list (@Method Value)) :
  let c := called ms in
  replay (getEvents c) = storage c ∧
  length (getEventsByName "ValueStored" c) = stores ms.
Proof.
  cbv zeta. unfold getEvents, getEventsByName.
  induction ms as [|m ms [IHreplay IHstores]] using rev_ind; [done|].
  rewrite called_snoc.
  assert (Hstores : forall m', stores (ms ++ [m'])
                    = stores ms + match m' with Store _ _ _ _ => 1 | _ => 0 end).
  { intros m'. clear. induction ms as [|[] ms IH]; simpl; [by destruct m'|..]; lia. }
  rewrite Hstores.
  destruct m as [key value t t'|key t t'|t t']; simpl.
  - unfold replay in *. rewrite foldl_app. simpl. rewrite IHreplay. split; [done|].
    rewrite filter_app, length_app, IHstores. done.
  - unfold deleteKey. destruct (map_has key _) eqn:Hhas; simpl.
    + unfold replay in *. rewrite foldl_app. simpl. rewrite IHreplay. split; [done|].
      rewrite filter_app, length_app, IHstores. simpl. done.
    + split; [done|]. rewrite IHstores. lia.
  - unfold replay in *. rewrite foldl_app. simpl. split; [done|].
    rewrite filter_app, length_app, IHstores. done.
Qed.

End SimpleContractProperties.

Lemma store_then_retrieve_witness :
  let ms := [SimpleContract.Store "greeting" "Hello World" 1 1] in
  let c' := (SimpleContract.store "number" "42" 2 2 (SimpleContract.called ms)).1 in
  "greeting" ≠ "number" ∧
  SimpleContract.retrieve "undefined" "greeting" c' = "Hello World" ∧
  SimpleContract.getAllKeys c' = ["greeting"; "number"].
Proof.
  cbv zeta.
  destruct (store_then_retrieve "undefined"
              [SimpleContract.Store "greeting" "Hello World" 1 1] "number" "42" 2 2)
    as (_ & _ & _ & Hothers & Hkeys & _).
  cbv zeta in *. split; [done|]. split; [|exact Hkeys].
  destruct (Hothers "greeting") as [-> _]; done.
Defined.

Lemma delete_removes_witness :
  let ms := [SimpleContract.Store "greeting" "Hello World" 1 1;
             SimpleContract.Store "number" "42" 2 2] in
  let c' := (SimpleContract.deleteKey "number" 3 3 (SimpleContract.called ms)).1 in
  "greeting" ≠ "number" ∧
  SimpleContract.retrieve "undefined" "greeting" c' = "Hello World" ∧
  SimpleContract.retrieve "undefined" "number" c' = "undefined".
Proof.
  cbv zeta.
  destruct (delete_removes_one_key "undefined"
              [SimpleContract.Store "greeting" "Hello World" 1 1;
               SimpleContract.Store "number" "42" 2 2] "number" 3 3)
    as (_ & _ & Hgone & Hothers & _).
  cbv zeta in *. split; [done|]. split; [|exact Hgone].
  destruct (Hothers "greeting") as [-> _]; done.
Defined.

(** ** The example contract in Solidity *)

Section SimpleStorageProperties.
Import SimpleStorage.

Lemma mined_snoc txs tx : mined (txs ++ [tx]) = transact (mined txs) tx.
Proof. unfold mined. by rewrite foldl_app. Qed.

(** X20.  The stored value and the log.  After any transactions whose arguments
    are [uint256], the stored value is a [uint256]; it is the value of the
    last [ValueChanged] event, or 0 when nothing was logged; and
    [increment] reverts exactly when the stored value is the largest
    [uint256], and otherwise adds one without wrapping around. *)
Theorem stored_value_is_last_logged (txs : list Transaction) (sender : Z)
    (Hargs : Forall well_formed txs) :
  let c := mined txs in
  (0 <= get c <= max_uint256)%Z ∧
  get c = from_option newValue 0%Z (last (logs c)) ∧
  (increment sender c = None ↔ get c = max_uint256) ∧
  (forall c', increment sender c = Some c' -> get c' = (get c + 1)%Z).
Proof.
  cbv zeta.
  assert (Hinv : (0 <= get (mined txs) <= max_uint256)%Z ∧
                 get (mined txs) = from_option newValue 0%Z (last (logs (mined txs)))).
  { induction txs as [|tx txs IH] using rev_ind; [by vm_compute|].
    apply Forall_app in Hargs as [Hargs Htx]. rewrite Forall_singleton in Htx.
    destruct (IH Hargs) as [Hrange Hlast]. rewrite mined_snoc.
    unfold get in *. destruct tx as [x who|who|who]; unfold transact, increment.
    - cbn -[max_uint256]. rewrite last_snoc. done.
    - case_decide; cbn -[max_uint256]; [done|]. rewrite last_snoc. cbn -[max_uint256]. lia.
    - cbn -[max_uint256]. rewrite last_snoc. by vm_compute. }
  destruct Hinv as [Hrange Hlast]. split; [done|]. split; [done|].
  unfold increment, get in *. split.
  - case_decide as Hover; split; try done; lia.
  - intros c'. case_decide; [done|]. by intros [= <-].
Qed.

End SimpleStorageProperties.

Lemma stored_value_witness :
  let txs := [SimpleStorage.CallSet 41 7; SimpleStorage.CallIncrement 8] in
  Forall SimpleStorage.well_formed txs ∧
  SimpleStorage.get (SimpleStorage.mined txs) = 42%Z ∧
  SimpleStorage.get (SimpleStorage.mined txs)
  = from_option SimpleStorage.newValue 0%Z
      (last (SimpleStorage.logs (SimpleStorage.mined txs))).
Proof.
  cbv zeta.
  assert (Hargs : Forall SimpleStorage.well_formed
                    [SimpleStorage.CallSet 41 7; SimpleStorage.CallIncrement 8]).
  { repeat constructor; by vm_compute. }
  split; [exact Hargs|]. split; [reflexivity|].
  destruct (stored_value_is_last_logged _ 9%Z Hargs) as (_ & Hlast & _).
  exact Hlast.
Defined.
